(** * Tahoe / CMap signature pipeline: extraction, harmonisation, ranking
      and replicate validation

    A shallow embedding of the core of the preprocessing scripts
    ([extract_OG_tahoe_part_1.py], [extract_OG_tahoe_part_2_rank_and_save_parquet.py],
    [filter_tahoe_part2_ranking.py], [generate_valid_instances.py]) together
    with the properties their specification states about them.

    Conventions.
    - A finite float is a rational ([Qc], rationals in lowest terms, so that
      equal values are equal terms); a float cell of a data frame is a
      [cell]: [Some x] for a finite value and [None] for NaN.
    - A data frame is column oriented, as in pandas: a row index and a list
      of labelled columns, every column as long as the index.
    - A Python [dict] is a [gmap], a Python [set] a [gset].
    - A call that raises returns [None] (or an explicit outcome).

    Part I holds the definitions, Part II the theorems. *)

From Stdlib Require Import ZArith QArith Qcanon Qround Lia List Bool String.
From stdpp Require Import gmap strings list sorting.

Import ListNotations.

(** * Part I: the programs *)

Definition cell := option Qc.

(** [pd.notna] on a cell. *)
Definition notna (x : cell) : bool := bool_decide (is_Some x).

(** A frame with row labels of type [L] and experiment columns labelled by
    experiment id. *)
Record Frame (L : Type) := mkFrame {
  index : list L;
  columns : list (Z * list cell)
}.
Arguments mkFrame {L} _ _.
Arguments index {L} _.
Arguments columns {L} _.

(** The vector of row [pos]: its cell in every column, [None] (no such row)
    when [pos] is out of range. *)
Definition row_at {L} (f : Frame L) (pos : nat) : option (list cell) :=
  mapM (λ c : Z * list cell, c.2 !! pos) (columns f).

(** ** ColumnSelector ([part1_h5_to_parquet], [process_h5_chunk]) *)

Section ColumnSelector.

Local Open Scope Z_scope.

(** [enumerate a] pairs every entry of an array with its position. *)
Definition enumerate (a : list Z) : list (Z * Z) :=
  zip (Z.of_nat <$> seq 0 (length a)) a.

(** The positions of an array of length [n]: [np.arange(n)]. *)
Definition arange (n : nat) : list Z := Z.of_nat <$> seq 0 n.

(** Order on (position, value) pairs by value. *)
Definition by_value (p q : Z * Z) : Prop := p.2 ≤ q.2.

#[global] Instance by_value_dec p q : Decision (by_value p q).
Proof. unfold by_value. apply _. Defined.

(** [np.argsort(a)]: the positions of [a] listed by ascending value. How
    equal values are ordered is left open by numpy's default sort; the
    column plan does not depend on it (it is built from a list of distinct
    indices, and [reorder_row_any_order] holds for every sort order). *)
Definition argsort (a : list Z) : list Z :=
  fst <$> merge_sort by_value (enumerate a).

(** One index of [np.take] / fancy indexing: negative indices count from
    the end, anything outside [-n, n) raises IndexError. *)
Definition get_item {A} (a : list A) (i : Z) : option A :=
  let n := Z.of_nat (length a) in
  if bool_decide (0 ≤ i < n) then a !! Z.to_nat i
  else if bool_decide (- n ≤ i < 0) then a !! Z.to_nat (i + n)
  else None.

(** [a[idx]] for an index array, and [np.take(block, idx, axis=1)] on one
    row of the block. *)
Definition take_idx {A} (a : list A) (idx : list Z) : option (list A) :=
  mapM (get_item a) idx.

(** The column plan of [part1_h5_to_parquet]:
    [col_order = np.argsort(col_idx_keep_arr)],
    [col_sorted = col_idx_keep_arr[col_order]],
    [col_unsort = np.argsort(col_order)]. *)
Definition col_order (col_idx_keep : list Z) : list Z := argsort col_idx_keep.

Definition col_sorted (col_idx_keep : list Z) : option (list Z) :=
  take_idx col_idx_keep (col_order col_idx_keep).

Definition col_unsort (col_idx_keep : list Z) : list Z :=
  argsort (col_order col_idx_keep).

(** [process_h5_chunk] on the rows already read into [block_full]:
    [np.take(block_full, col_sorted, axis=1)[:, col_unsort]]. *)
Definition reorder_row {A} (sorted unsort : list Z) (row : list A)
  : option (list A) :=
  block_cols_sorted ← take_idx row sorted;
  take_idx block_cols_sorted unsort.

Definition process_h5_chunk {A} (col_idx_keep : list Z)
    (block_full : list (list A)) : option (list (list A)) :=
  sorted ← col_sorted col_idx_keep;
  mapM (reorder_row sorted (col_unsort col_idx_keep)) block_full.

(** What the caller asked for: the columns [col_idx_keep], in that order. *)
Definition requested_columns {A} (col_idx_keep : list Z)
    (block_full : list (list A)) : option (list (list A)) :=
  mapM (λ row, take_idx row col_idx_keep) block_full.

End ColumnSelector.

(** ** Gene mapping table *)

Section GeneMap.

(** A value of an [entrezID] column as [pd.to_numeric] sees it: a number, a
    text that is no number, or a missing value. The numbers are Entrez ids,
    whole numbers; a number with a fractional part is outside this type. *)
Inductive raw_id :=
  | IdNum (z : Z)
  | IdText (s : string)
  | IdNaN.

#[global] Instance raw_id_eq_dec : EqDecision raw_id.
Proof. solve_decision. Defined.

(** A row of a mapping table; a missing symbol is [None]. *)
Record map_row := mkMapRow {
  Gene_name : option string;
  entrezID : raw_id
}.

#[global] Instance map_row_eq_dec : EqDecision map_row.
Proof. solve_decision. Defined.

(** The rows that carry a given symbol. *)
Definition has_symbol (symbol : string) (row : map_row) : bool :=
  bool_decide (Gene_name row = Some symbol).

(** [gene_map.dropna(subset=['Gene_name', 'entrezID'])]. *)
Definition complete (row : map_row) : bool :=
  bool_decide (is_Some (Gene_name row)) && bool_decide (entrezID row ≠ IdNaN).

Definition dropna (gene_map : list map_row) : list map_row :=
  List.filter complete gene_map.

(** [gene_map.drop_duplicates(subset=['Gene_name'])]: a row is kept unless
    its symbol was seen in an earlier row. *)
Fixpoint drop_duplicates_seen (seen : list (option string))
    (gene_map : list map_row) : list map_row :=
  match gene_map with
  | [] => []
  | row :: rest =>
      if bool_decide (Gene_name row ∈ seen)
      then drop_duplicates_seen seen rest
      else row :: drop_duplicates_seen (Gene_name row :: seen) rest
  end.

Definition drop_duplicates (gene_map : list map_row) : list map_row :=
  drop_duplicates_seen [] gene_map.

(** [dict(zip(table[symbol], table["entrezID"]))]: the pairs are inserted in
    row order, a later pair replacing an earlier one with the same key. A
    pair with a missing symbol is left out: no symbol of a frame looks it
    up. *)
Definition dict_zip (table : list map_row) : gmap string raw_id :=
  foldl (λ d row, match Gene_name row with
                  | Some symbol => <[symbol := entrezID row]> d
                  | None => d
                  end) ∅ table.

(** [main] of the rank-and-checkpoint script, lines 149-152. *)
Definition gene_name_to_entrez (gene_map : list map_row) : gmap string raw_id :=
  dict_zip (drop_duplicates (dropna gene_map)).

(** [filter_tahoe_part2_ranking.py], Step 2, line 73: the dictionary is built
    from the shared-genes table as it is read. *)
Definition gene_name_to_entrez_shared (shared_genes_df : list map_row)
  : gmap string raw_id :=
  dict_zip shared_genes_df.

(** [pd.to_numeric(x, errors="coerce")] followed by [dropna] and
    [astype(int)]: [None] is a dropped value. *)
Definition to_numeric (v : raw_id) : option Z :=
  match v with
  | IdNum z => Some z
  | IdText _ | IdNaN => None
  end.

(** Step 2, line 74: the reference set of shared ids. *)
Definition shared_entrez_ids (shared_genes_df : list map_row) : gset Z :=
  list_to_set (omap (λ row, to_numeric (entrezID row)) shared_genes_df).

End GeneMap.

(** ** GeneIdentifierHarmonizer (Step 3 of the ranking scripts) *)

Section Harmonizer.

(** Boolean-mask row selection on one column: the cells whose row has a
    key. *)
Definition keep_rows {K A} (keys : list (option K)) (col : list A) : list A :=
  omap (λ kx : option K * A, kx.1 ≫= λ _, Some kx.2) (zip keys col).

(** The id a symbol ends up with: [transposed.index.map(gene_name_to_entrez)]
    gives NaN for an unknown symbol, [to_numeric(errors="coerce")] gives NaN
    for a text; both are dropped by the [dropna] that follows. *)
Definition entrez_of (d : gmap string raw_id) (symbol : string) : option Z :=
  d !! symbol ≫= to_numeric.

(** Lines 86-90: the frame re-indexed by Entrez id, unmapped rows dropped. *)
Definition map_to_entrez (d : gmap string raw_id) (transposed : Frame string)
  : Frame Z :=
  let keys := entrez_of d <$> index transposed in
  mkFrame (omap id keys)
          (prod_map id (keep_rows keys) <$> columns transposed).

(** The cells of one column that belong to the rows with id [g], in row
    order. *)
Definition group_cells (g : Z) (keys : list Z) (col : list cell) : list cell :=
  snd <$> List.filter (λ kx : Z * cell, bool_decide (kx.1 = g)) (zip keys col).

(** The same cells seen from the symbols: the cells of the rows whose symbol
    resolves to the id [g]. *)
Definition symbol_group_cells (d : gmap string raw_id) (g : Z)
    (symbols : list string) (col : list cell) : list cell :=
  snd <$> List.filter (λ sx : string * cell,
                         bool_decide (entrez_of d sx.1 = Some g))
            (zip symbols col).

Definition Qc_sum (xs : list Qc) : Qc := foldr Qcplus 0%Qc xs.

Definition Qc_of_nat (n : nat) : Qc := Qc_of_Z (Z.of_nat n).

(** The mean of a group in one column. A group-by mean of pandas leaves NaN
    cells out; a group with no finite cell gives NaN. *)
Definition mean_skipna (xs : list cell) : cell :=
  let present := omap id xs in
  match present with
  | [] => None
  | _ => Some (Qc_sum present / Qc_of_nat (length present))%Qc
  end.

(** The arithmetic mean of all the cells of a group, as the specification
    words the collapsing rule: the sum of all of them over their number, so
    that one NaN cell makes the mean NaN. *)
Definition arithmetic_mean_of_all (xs : list cell) : cell :=
  match mapM id xs with
  | Some (v :: vs) => Some (Qc_sum (v :: vs) / Qc_of_nat (length (v :: vs)))%Qc
  | Some [] | None => None
  end.

(** The group keys of a group-by: the distinct ids, ascending. *)
Definition group_keys (keys : list Z) : list Z :=
  merge_sort Z.le (remove_dups keys).

(** [transposed.groupby("entrezID").mean(numeric_only=True)]. *)
Definition groupby_mean (transposed : Frame Z) : Frame Z :=
  let keys := index transposed in
  let ids := group_keys keys in
  mkFrame ids
    (prod_map id (λ col, (λ g, mean_skipna (group_cells g keys col)) <$> ids)
       <$> columns transposed).

(** [transposed.loc[transposed.index.intersection(shared_entrez_ids)]] on a
    frame whose index has no repeated id: the rows whose id is in the shared
    set, in the order of the frame. *)
Definition enforce_shared (shared : gset Z) (transposed : Frame Z) : Frame Z :=
  let keys := (λ g, if bool_decide (g ∈ shared) then Some g else None)
                <$> index transposed in
  mkFrame (omap id keys)
          (prod_map id (keep_rows keys) <$> columns transposed).

(** Step 3 of the rank-and-checkpoint script (no reference set). *)
Definition harmonize (gene_map : list map_row) (transposed : Frame string)
  : Frame Z :=
  groupby_mean (map_to_entrez (gene_name_to_entrez gene_map) transposed).

(** Step 3 of [filter_tahoe_part2_ranking.py] (reference set supplied). *)
Definition harmonize_shared (shared_genes_df : list map_row)
    (transposed : Frame string) : Frame Z :=
  enforce_shared (shared_entrez_ids shared_genes_df)
    (groupby_mean
       (map_to_entrez (gene_name_to_entrez_shared shared_genes_df) transposed)).

End Harmonizer.

(** ** RankTransformer (Step 4 of the ranking scripts) *)

Section RankTransformer.

(** Descending order with NaN at the bottom: [ranks_above y x] when the
    cell [y] sorts strictly before the cell [x]. *)
Definition ranks_above (y x : cell) : bool :=
  match y, x with
  | Some b, Some a => bool_decide (a < b)%Qc
  | Some _, None => true
  | None, _ => false
  end.

(** [method="first"]: among equal cells the one met first sorts first. *)
Definition comes_first (j : nat) (y : cell) (i : nat) (x : cell) : bool :=
  ranks_above y x || (bool_decide (y = x) && bool_decide (j < i)).

(** The cells of a column with their row positions. *)
Definition entries (col : list cell) : list (nat * cell) := imap pair col.

(** [Series.rank(method="first", ascending=False, na_option="bottom")]: the
    rank of a cell is one more than the number of cells sorting before it. *)
Definition rank_of (col : list cell) (i : nat) (x : cell) : nat :=
  S (length (List.filter (λ e : nat * cell, comes_first e.1 e.2 i x)
                         (entries col))).

Definition rank_first (col : list cell) : list nat := imap (rank_of col) col.

(** The sort behind the ranking: [e1] sorts no later than [e2] when [e2]
    does not come first; the entries of a column in that order are the
    column sorted by descending value, NaN at the bottom, equal cells in row
    order. *)
Definition sorts_no_later (e1 e2 : nat * cell) : Prop :=
  comes_first e2.1 e2.2 e1.1 e1.2 = false.

#[global] Instance sorts_no_later_dec e1 e2 : Decision (sorts_no_later e1 e2).
Proof. unfold sorts_no_later. apply _. Defined.

Definition sorted_entries (col : list cell) : list (nat * cell) :=
  merge_sort sorts_no_later (entries col).

(** [astype("int32")] on an integral value: a value of the int32 range is
    kept, and the model wraps around outside of it. *)
Definition astype_int32 (x : Z) : Z :=
  ((x + 2 ^ 31) `mod` 2 ^ 32 - 2 ^ 31)%Z.

Definition rank_column (col : list cell) : list Z :=
  (λ rk, astype_int32 (Z.of_nat rk)) <$> rank_first col.

(** [sub_df.rank(axis=0, ...).astype("int32")] on a block of columns. *)
Definition rank_block (cols : list (Z * list cell)) : list (Z * list Z) :=
  prod_map id rank_column <$> cols.

(** [range(0, n, step)] for a positive step. *)
Definition py_range (n step : nat) : list nat :=
  (λ k, k * step) <$> seq 0 (Nat.div (n + step - 1) step).

(** [transposed.iloc[:, start:end]]. *)
Definition iloc_cols {A} (cols : list A) (start stop : nat) : list A :=
  take (stop - start) (drop start cols).

(** The chunk loop, lines 191-205: [None] is a raised exception --
    [range] (and the chunk count before it) refuse a zero step, and
    [pd.concat] refuses an empty list of chunks, which is what a
    non-positive step or a frame without columns leaves it with. *)
Definition ranked_chunks (cols : list (Z * list cell)) (rank_chunk_size : nat)
  : list (list (Z * list Z)) :=
  (λ start,
     let stop := Nat.min (start + rank_chunk_size) (length cols) in
     rank_block (iloc_cols cols start stop))
    <$> py_range (length cols) rank_chunk_size.

Definition rank_in_chunks (cols : list (Z * list cell)) (rank_chunk_size : Z)
  : option (list (Z * list Z)) :=
  if bool_decide (rank_chunk_size ≤ 0)%Z then None
  else
    match ranked_chunks cols (Z.to_nat rank_chunk_size) with
    | [] => None
    | chunks => Some (concat chunks)
    end.

(** Ranking all experiment columns in a single pass. *)
Definition rank_single_pass (cols : list (Z * list cell)) : list (Z * list Z) :=
  rank_block cols.

End RankTransformer.

(** ** ReplicateConsistencyValidator ([generate_valid_instances.py]) *)

Section Validator.

(** [scipy.stats.pearsonr] is taken as given: it returns the pair (r, p),
    where r may be NaN, or raises ValueError ([None]). *)
Variable pearsonr : list Qc → list Qc → option (cell * cell).

(** The signature matrix: one labelled column of values per instance.
    Every value is a number, as in the ranked checkpoint that
    [load_tahoe_data] reads; a matrix with NaN cells, which [sum(axis=1)]
    would skip, is outside this type. *)
Definition sig_matrix := list (string * list Qc).

(** A row of the perturbation metadata; a missing drug name is [None]. *)
Record meta_row := mkMeta {
  meta_id : string;
  meta_name : option string
}.

(** A record of [results], and a row of the frame built from them. *)
Record stat_row := mkStat {
  inst_id : string;
  drug_name : string;
  r : cell;
  p : cell;
  num_peers : Z
}.

Record verdict_row := mkVerdict {
  stats : stat_row;
  valid : Z
}.

Definition string_le (a b : string) : Prop := String.leb a b = true.

#[global] Instance string_le_dec a b : Decision (string_le a b).
Proof. unfold string_le. apply _. Defined.

(** [metadata.groupby(drug_col_name)]: one group per drug name, names
    ascending, rows without a name left out; a group lists the instance ids
    of its rows in row order. *)
Definition drug_names (metadata : list meta_row) : list string :=
  merge_sort string_le (remove_dups (omap meta_name metadata)).

Definition instance_ids (metadata : list meta_row) (drug : string) : list string :=
  meta_id <$> List.filter (λ m, bool_decide (meta_name m = Some drug)) metadata.

Definition drug_groups (metadata : list meta_row) : list (string * list string) :=
  (λ drug, (drug, instance_ids metadata drug)) <$> drug_names metadata.

(** [sig_matrix[pid]], and [pid in sig_matrix.columns]. *)
Fixpoint get_column (sigs : sig_matrix) (pid : string) : option (list Qc) :=
  match sigs with
  | [] => None
  | (label, col) :: rest =>
      if bool_decide (label = pid) then Some col else get_column rest pid
  end.

Definition in_columns (sigs : sig_matrix) (pid : string) : bool :=
  bool_decide (is_Some (get_column sigs pid)).

(** Elementwise operations on value vectors. *)
Definition vec_add (u v : list Qc) : list Qc := zip_with Qcplus u v.
Definition vec_sub (u v : list Qc) : list Qc := zip_with Qcminus u v.
Definition vec_div (u : list Qc) (k : Qc) : list Qc := (λ x, x / k)%Qc <$> u.

(** The entry of a vector at a gene, 0 outside the vector. *)
Definition entry (j : nat) (v : list Qc) : Qc := default 0%Qc (v !! j).

(** [drug_sig_matrix.sum(axis=1)]: the sum of the columns. *)
Definition sum_axis1 (cols : list (list Qc)) : list Qc :=
  match cols with
  | [] => []
  | v :: rest => foldl vec_add v rest
  end.

(** The elementwise arithmetic mean of a list of vectors, as the
    specification words the consensus of the peers: at every gene, the sum
    of the vectors' entries at that gene over the number of vectors. *)
Definition elementwise_mean (vs : list (list Qc)) : list Qc :=
  match vs with
  | [] => []
  | v :: _ =>
      imap (λ j _, (Qc_sum (entry j <$> vs) / Qc_of_nat (length vs))%Qc) v
  end.

(** Lines 190-191. *)
Definition peer_consensus (total_sum_vector current_instance_sig : list Qc)
    (num_instances : nat) : list Qc :=
  let peer_sum_vector := vec_sub total_sum_vector current_instance_sig in
  vec_div peer_sum_vector (Qc_of_nat (num_instances - 1)).

(** Lines 193-198: an undefined correlation and a ValueError both give
    r = 0, p = 1. *)
Definition pearson_or_default (x y : list Qc) : cell * cell :=
  match pearsonr x y with
  | Some (Some rv, pv) => (Some rv, pv)
  | Some (None, _) | None => (Some 0%Qc, Some 1%Qc)
  end.

(** The body of the loop over the drug groups, lines 169-206. The instance
    ids of a group and the labels of the matrix are taken distinct, one
    metadata row and one column per experiment: with a repeated id or label
    the selection of line 189 is a frame, not a column, and line 190
    raises ValueError. The properties of the records are stated for
    distinct ids and labels. *)
Definition group_stats (sigs : sig_matrix) (group : string * list string)
  : list stat_row :=
  let '(drug, ids) := group in
  let valid_matrix_ids := List.filter (in_columns sigs) ids in
  let num_instances := length valid_matrix_ids in
  if bool_decide (num_instances ≤ 1) then
    (λ inst, mkStat inst drug None None 0) <$> ids
  else
    let drug_sig_matrix := omap (get_column sigs) valid_matrix_ids in
    let total_sum_vector := sum_axis1 drug_sig_matrix in
    (λ inst,
       let current_instance_sig := default [] (get_column sigs inst) in
       let consensus :=
         peer_consensus total_sum_vector current_instance_sig num_instances in
       let rp := pearson_or_default current_instance_sig consensus in
       mkStat inst drug rp.1 rp.2 (Z.of_nat num_instances - 1))
      <$> valid_matrix_ids.

Definition calculate_raw_stats (sigs : sig_matrix) (metadata : list meta_row)
  : list stat_row :=
  concat (group_stats sigs <$> drug_groups metadata).

(** Comparisons of a cell with a number: false on NaN. *)
Definition cell_lt (x : cell) (t : Qc) : bool :=
  match x with Some v => bool_decide (v < t)%Qc | None => false end.
Definition cell_gt (x : cell) (t : Qc) : bool :=
  match x with Some v => bool_decide (t < v)%Qc | None => false end.
Definition cell_ge (x : cell) (t : cell) : bool :=
  match x, t with
  | Some v, Some c => bool_decide (c ≤ v)%Qc
  | _, _ => false
  end.

(** [np.nanpercentile(a, q)] with the default linear interpolation: [None]
    is the ValueError for a percentile outside [0, 100]; the result is NaN
    when no value of [a] is finite. *)
Definition nanpercentile (a : list cell) (q : Qc) : option cell :=
  if bool_decide (0 ≤ q ∧ q ≤ Qc_of_Z 100)%Qc then
    let sorted := merge_sort Qcle (omap id a) in
    match sorted with
    | [] => Some None
    | first :: _ =>
        let n := length sorted in
        let virtual := (q / Qc_of_Z 100 * Qc_of_nat (n - 1))%Qc in
        let previous := Z.to_nat (Qfloor virtual) in
        let next := Nat.min (previous + 1) (n - 1) in
        let lo := nth previous sorted first in
        let hi := nth next sorted first in
        let gamma := (virtual - Qc_of_nat previous)%Qc in
        Some (Some (lo + (hi - lo) * gamma)%Qc)
    end
  else None.

(** How [apply_filters] ends: it returns the frame, or an exception leaves
    the caller's frame as it was at that point. *)
Inductive outcome :=
  | Returned (results_df : list verdict_row)
  | Raised (results_df : list verdict_row).

Definition frame_of (o : outcome) : list verdict_row :=
  match o with Returned df | Raised df => df end.

(** [results_df['valid'] = 0]. *)
Definition init_valid (results : list stat_row) : list verdict_row :=
  (λ s, mkVerdict s 0) <$> results.

(** [results_df.loc[mask, 'valid'] = 1]. *)
Definition assign_valid (mask : stat_row → bool) (df : list verdict_row)
  : list verdict_row :=
  (λ row, if mask (stats row) then mkVerdict (stats row) 1 else row) <$> df.

Definition valid_stats_mask (s : stat_row) : bool := notna (r s).

(** [apply_filters] on the frame that [pd.DataFrame] builds from the
    records. The frame built from no record at all has no column, and
    line 222 raises KeyError on it, whatever the mode. *)
Definition apply_filters (results : list stat_row) (mode : string)
    (threshold : Qc) : outcome :=
  let results_df := init_valid results in
  if bool_decide (results = []) then Raised results_df
  else if bool_decide (mode = "pvalue") then
    let mask s := cell_lt (p s) threshold && cell_gt (r s) 0 in
    Returned (assign_valid (λ s, valid_stats_mask s && mask s) results_df)
  else if bool_decide (mode = "rvalue") then
    let mask s := cell_gt (r s) threshold in
    Returned (assign_valid (λ s, valid_stats_mask s && mask s) results_df)
  else if bool_decide (mode = "percentile") then
    let rankable := List.filter valid_stats_mask results in
    match rankable with
    | [] => Returned results_df
    | _ =>
        let percentile_cutoff := (Qc_of_Z 100 - threshold)%Qc in
        match nanpercentile (r <$> rankable) percentile_cutoff with
        | None => Raised results_df
        | Some r_cutoff =>
            let mask s := cell_ge (r s) r_cutoff && cell_gt (r s) 0 in
            Returned (assign_valid (λ s, valid_stats_mask s && mask s) results_df)
        end
    end
  else Returned results_df.

(** A row of the filtered frame holds the record [s] and, if the record has
    no statistics, the verdict 0. *)
Definition kept_invalid (s : stat_row) (row : verdict_row) : Prop :=
  stats row = s ∧ (r s = None → valid row = 0%Z).

(** [generate_summary]: the count of valid experiments. *)
Definition count_valid (results_df : list verdict_row) : Z :=
  foldr Z.add 0%Z (valid <$> results_df).

End Validator.

(** ** The scenarios of the specification *)

Section Scenarios.

(** A finite cell holding an integer, and one holding a fraction. *)
Definition fin (n : Z) : cell := Some (Qc_of_Z n).
Definition frac (n : Z) (d : positive) : cell := Some (Q2Qc (n # d)).

(** Symbols A and B both map to id 7, with vectors [1,2,3] and [3,4,5]
    over three experiments. *)
Definition collapse_gene_map : list map_row :=
  [mkMapRow (Some "A") (IdNum 7); mkMapRow (Some "B") (IdNum 7)].

Definition collapse_frame : Frame string :=
  mkFrame ["A"; "B"]
    [(0%Z, [fin 1; fin 3]); (1%Z, [fin 2; fin 4]); (2%Z, [fin 3; fin 5])].

(** The same two rows already keyed by id. *)
Definition collapse_frame_ids : Frame Z :=
  mkFrame [7%Z; 7%Z] (columns collapse_frame).

(** Two rows of id 7 over two experiments, the first row missing its value
    in the second experiment. *)
Definition nan_member_frame : Frame Z :=
  mkFrame [7%Z; 7%Z] [(0%Z, [fin 1; fin 3]); (1%Z, [None; fin 4])].

(** A mapping table that resolves ids 10, 30 and 20, and the reference set
    of ids 10 and 20. *)
Definition reference_gene_map : list map_row :=
  [mkMapRow (Some "A") (IdNum 10); mkMapRow (Some "B") (IdNum 30);
   mkMapRow (Some "C") (IdNum 20)].

Definition reference_frame : Frame string :=
  mkFrame ["A"; "B"; "C"] [(0%Z, [fin 1; fin 2; fin 3])].

Definition reference_set : gset Z := {[ 10%Z; 20%Z ]}.

(** The effect vector [0.5, -0.2, 3.0, NaN]. *)
Definition effect_vector : list cell :=
  [frac 1 2; frac (-2) 10; fin 3; None].

(** Three records: two scored replicates of one drug and a singleton. *)
Definition scored_results : list stat_row :=
  [mkStat "e1" "drugA" (frac 9 10) (frac 1 100) 1;
   mkStat "e2" "drugA" (frac 1 10) (frac 3 100) 1;
   mkStat "e3" "drugB" None None 0].

(** Metadata and rank signatures with a singleton drug and a drug of two
    replicates, over two genes. *)
Definition replicate_metadata : list meta_row :=
  [mkMeta "e1" (Some "drugA"); mkMeta "e3" (Some "drugB");
   mkMeta "e2" (Some "drugA")].

Definition replicate_sigs : sig_matrix :=
  [("e1", [Qc_of_Z 1; Qc_of_Z 2]);
   ("e2", [Qc_of_Z 1; Qc_of_Z 2]);
   ("e3", [Qc_of_Z 2; Qc_of_Z 1])].

(** The sign of a number, as a number. *)
Definition Qc_sign (x : Qc) : Qc :=
  if bool_decide (0 < x)%Qc then 1%Qc
  else if bool_decide (x < 0)%Qc then (-1)%Qc else 0%Qc.

(** [scipy.stats.pearsonr] where it has a closed form, on vectors of two
    entries: NaN for both r and p when one of the vectors is constant,
    otherwise r = sign(x1 - x0) * sign(y1 - y0) and p = 1. It raises
    ValueError when the lengths differ or are below two. Longer vectors,
    where r is not a rational number in general, are outside this
    instance; the scenarios use it on matrices of two genes only. *)
Definition pearsonr_two_genes (x y : list Qc) : option (cell * cell) :=
  match x, y with
  | [x0; x1], [y0; y1] =>
      if bool_decide (x0 = x1 ∨ y0 = y1) then Some (None, None)
      else Some (Some (Qc_sign (x1 - x0) * Qc_sign (y1 - y0))%Qc, fin 1)
  | _, _ => None
  end.

End Scenarios.

(** ** ParallelExtractionCoordinator ([part1_h5_to_parquet], the workers) *)

Section Extraction.

(** Successive slices of the given sizes. *)
Fixpoint split_sizes {A} (sizes : list nat) (ary : list A) : list (list A) :=
  match sizes with
  | [] => []
  | size :: rest => take size ary :: split_sizes rest (drop size ary)
  end.

(** [np.array_split(ary, sections)]: the first [len % sections] sub-arrays
    hold [len // sections + 1] entries and the others [len // sections];
    a number of sections that is not positive raises ValueError. *)
Definition array_split {A} (ary : list A) (sections : Z) : option (list (list A)) :=
  if bool_decide (sections ≤ 0)%Z then None
  else
    let n := Z.to_nat sections in
    let each := Nat.div (length ary) n in
    let extras := Nat.modulo (length ary) n in
    Some (split_sizes (replicate extras (S each) ++ replicate (n - extras) each)
            ary).

(** Lines 211-214: the rows of the node named by the chunk. *)
Definition read_rows {A} (node : list (list A)) (row_indices_chunk : list Z)
  : option (list (list A)) :=
  mapM (get_item node) row_indices_chunk.

(** [process_h5_chunk], lines 206-227: a batch is the list of its rows, each
    the experiment id (cast to int32) and the values of the kept columns.
    [pa.table] refuses a list of arrays that does not match the schema, one
    field for the id and one per column name. *)
Definition h5_chunk_batch {A} (node : list (list A))
    (col_names_keep : list string) (col_idx_keep : list Z)
    (row_indices_chunk : list Z) : option (list (Z * list A)) :=
  block_full ← read_rows node row_indices_chunk;
  block_cols ← process_h5_chunk col_idx_keep block_full;
  if bool_decide (length col_names_keep = length col_idx_keep)
  then Some (zip (astype_int32 <$> row_indices_chunk) block_cols)
  else None.

(** Lines 346-387: sort the rows, split them over the workers, let every
    worker build its batch, write the batches in order. A failing worker
    fails the whole extraction. *)
Definition part1_extract {A} (node : list (list A))
    (col_names_keep : list string) (col_idx_keep : list Z)
    (row_idx_keep : list Z) (n_cores : Z) : option (list (Z * list A)) :=
  let row_sorted := merge_sort Z.le row_idx_keep in
  row_chunks ← array_split row_sorted n_cores;
  results ← mapM (h5_chunk_batch node col_names_keep col_idx_keep) row_chunks;
  Some (concat results).

(** Reading one experiment after the other, without chunks: the row of the
    node, its kept columns in the requested order, and its id. *)
Definition extract_row {A} (node : list (list A)) (col_idx_keep : list Z)
    (row_idx : Z) : option (Z * list A) :=
  row ← get_item node row_idx;
  values ← take_idx row col_idx_keep;
  Some (astype_int32 row_idx, values).

End Extraction.

(** ** SignificanceGate and the column plan ([part1_h5_to_parquet],
    lines 253-332) *)

Section SignificanceGate.

(** An array node of the H5 store: its declared width and its rows. *)
Record h5_array := mkH5 {
  h5_cols : nat;
  h5_rows : list (list cell)
}.

(** A row of the genes table. *)
Record gene_row := mkGene {
  gene_idx : Z;
  gene_name : string
}.

Definition P_VALUE_CHUNK_SIZE : nat := 1000.

(** [x <= threshold] on a cell: false on NaN. *)
Definition cell_le (x : cell) (t : Qc) : bool :=
  match x with Some v => bool_decide (v ≤ t)%Qc | None => false end.

(** Column [j] of [np.any(padj_chunk <= threshold, axis=0)]. *)
Definition column_significant (padj_chunk : list (list cell)) (threshold : Qc)
    (j : nat) : bool :=
  existsb (λ row, cell_le (default None (row !! j)) threshold) padj_chunk.

(** [np.any(padj_chunk <= threshold, axis=0)]: one flag per column. *)
Definition any_significant (n_cols : nat) (padj_chunk : list (list cell))
    (threshold : Qc) : list bool :=
  column_significant padj_chunk threshold <$> seq 0 n_cols.

(** [node[start:stop, :]]. *)
Definition row_slice {A} (rows : list A) (start stop : nat) : list A :=
  take (stop - start) (drop start rows).

(** The loop of lines 289-301 over the chunk starts still to read, with its
    early [break] once every gene is significant. *)
Fixpoint significance_loop (starts : list nat) (chunk_size : nat)
    (padj_node : h5_array) (threshold : Qc) (is_significant : list bool)
  : list bool :=
  match starts with
  | [] => is_significant
  | start :: rest =>
      let stop := Nat.min (start + chunk_size) (length (h5_rows padj_node)) in
      let padj_chunk := row_slice (h5_rows padj_node) start stop in
      let is_significant :=
        zip_with orb is_significant
          (any_significant (h5_cols padj_node) padj_chunk threshold) in
      if forallb id is_significant then is_significant
      else significance_loop rest chunk_size padj_node threshold is_significant
  end.

(** Lines 285-301, for a chunk size that is positive. *)
Definition significant_genes (padj_node : h5_array) (threshold : Qc)
    (chunk_size : nat) : list bool :=
  significance_loop (py_range (length (h5_rows padj_node)) chunk_size)
    chunk_size padj_node threshold (replicate (h5_cols padj_node) false).

(** The exceptions of the plan, and what a call ends with. *)
Inductive py_error := ValueError | UnboundLocalError | RuntimeError.

Inductive result (A : Type) :=
  | Ok (value : A)
  | Raise (error : py_error).
#[global] Arguments Ok {A} _.
#[global] Arguments Raise {A} _.

Record column_plan := mkPlan {
  plan_idx : list Z;
  plan_names : list string
}.

(** [sorted(df["gene_idx"].unique().tolist())]. *)
Definition sorted_unique_idx (genes : list gene_row) : list Z :=
  merge_sort Z.le (remove_dups (gene_idx <$> genes)).

Definition idx_le (a b : gene_row) : Prop := (gene_idx a ≤ gene_idx b)%Z.

#[global] Instance idx_le_dec a b : Decision (idx_le a b).
Proof. unfold idx_le. apply _. Defined.

(** [df.sort_values("gene_idx")]; rows with the same index are kept in row
    order here, pandas leaves their order open. *)
Definition sort_by_idx (genes : list gene_row) : list gene_row :=
  merge_sort idx_le genes.

(** [array[mask]] for a boolean mask as long as the array. *)
Definition mask_select {A} (array : list A) (mask : list bool) : list A :=
  (filter (λ p, p.1 = true) (zip mask array)).*2.

(** Lines 262-332. The function has two locals, [col_idx_keep] and
    [tahoe_genes_filtered]; the second is [None] while no branch has
    assigned it, and reading it then raises UnboundLocalError. [padj] is
    [None] when the store has no '/padj' node. *)
Definition part1_column_plan (enable_filter : bool) (padj : option h5_array)
    (padj_threshold : Qc) (tahoe_genes_all : list gene_row)
  : result column_plan :=
  let n_genes_all := length tahoe_genes_all in
  let locals : result (list Z * option (list gene_row)) :=
    if enable_filter then
      match padj with
      | None => Ok (sorted_unique_idx tahoe_genes_all, None)
      | Some padj_node =>
          if bool_decide (h5_cols padj_node ≠ n_genes_all) then Raise ValueError
          else
            let is_significant :=
              significant_genes padj_node padj_threshold P_VALUE_CHUNK_SIZE in
            let all_indices_in_h5_order :=
              gene_idx <$> sort_by_idx tahoe_genes_all in
            let kept_indices_in_h5_order :=
              mask_select all_indices_in_h5_order is_significant in
            let tahoe_genes_filtered :=
              filter (λ g, gene_idx g ∈ kept_indices_in_h5_order)
                tahoe_genes_all in
            Ok (sorted_unique_idx tahoe_genes_filtered,
                Some tahoe_genes_filtered)
      end
    else Ok (sorted_unique_idx tahoe_genes_all, Some tahoe_genes_all) in
  match locals with
  | Raise e => Raise e
  | Ok (col_idx_keep, None) => Raise UnboundLocalError
  | Ok (col_idx_keep, Some tahoe_genes_filtered) =>
      let col_names_keep := gene_name <$> sort_by_idx tahoe_genes_filtered in
      if bool_decide (length col_idx_keep = 0) then Raise RuntimeError
      else Ok (mkPlan col_idx_keep col_names_keep)
  end.

End SignificanceGate.

(** ** The rank-and-checkpoint pipeline ([main], lines 168-214) *)

Section Pipeline.

(** A value of the dictionary of line 152 as [pd.to_numeric] sees it in the
    mapped column: a number, whole or not, or a text that is no number. (No
    value is missing: line 150 drops the rows without an id.) *)
Inductive dict_value :=
  | Number (q : Qc)
  | Text (s : string).

(** [.astype("Int64")] on one number: the cast to a 64-bit integer is
    refused (TypeError) unless it gives back the same number, which takes a
    whole number within the range of these integers. *)
Definition astype_Int64 (q : Qc) : option Z :=
  let casted := Qfloor q in
  if bool_decide (Qc_of_Z casted = q ∧ (- 2 ^ 63 ≤ casted < 2 ^ 63)%Z)
  then Some casted else None.

(** Line 178 on the frame: the numbers that the symbols of the frame
    resolve to (a symbol the dictionary lacks and a text give NaN, which
    the cast leaves alone) are cast together, and one refusal raises. *)
Definition safe_cast (d : gmap string dict_value) (symbols : list string)
  : bool :=
  forallb (λ symbol,
             match d !! symbol with
             | Some (Number q) => bool_decide (is_Some (astype_Int64 q))
             | Some (Text _) | None => true
             end) symbols.

(** The dictionary with its numbers cast. *)
Definition cast_ids (d : gmap string dict_value) : gmap string raw_id :=
  (λ v, match v with
        | Number q => IdNum (Qfloor q)
        | Text s => IdText s
        end) <$> d.

(** Steps "map to Entrez ids", "collapse" and "rank" of [main], on the
    dictionary of line 152 and the transposed frame: the ids of the
    checkpoint (its [entrezID] column after [reset_index]) and its rank
    columns. [None] is a raised exception, on which the script exits
    without a checkpoint: line 176 divides by the number of gene rows of
    the frame, line 178 refuses a number with a fractional part or beyond
    64 bits, and the chunk loop raises as [rank_in_chunks] does. *)
Definition rank_and_checkpoint (gene_name_to_entrez : gmap string dict_value)
    (transposed : Frame string) (rank_chunk_size : Z)
  : option (list Z * list (Z * list Z)) :=
  let n_before := length (index transposed) in
  if bool_decide (n_before = 0) then None
  else if negb (safe_cast gene_name_to_entrez (index transposed)) then None
  else
    let collapsed :=
      groupby_mean (map_to_entrez (cast_ids gene_name_to_entrez) transposed) in
    ranked_matrix ← rank_in_chunks (columns collapsed) rank_chunk_size;
    Some (index collapsed, ranked_matrix).

End Pipeline.

(** ** The validation run ([generate_summary], [main] of
    [generate_valid_instances.py]) *)

Section ValidationRun.

Variable pearsonr : list Qc → list Qc → option (cell * cell).

(** The figures of the report of [generate_summary]. *)
Record summary := mkSummary {
  total_experiments : Z;
  valid_1 : Z;
  invalid_0 : Z;
  percentage_valid : Qc
}.

(** [generate_summary], lines 41-72: [None] is the report "No instances
    processed." of a frame without rows. *)
Definition generate_summary (results_df : list verdict_row) : option summary :=
  let total := Z.of_nat (length results_df) in
  if bool_decide (total = 0%Z) then None
  else
    let valid := count_valid results_df in
    let invalid := (total - valid)%Z in
    let percent_valid := (Qc_of_Z valid / Qc_of_Z total * Qc_of_Z 100)%Qc in
    Some (mkSummary total valid invalid percent_valid).

(** [set(sigs.columns) & set(meta['id'])]. *)
Definition common_ids (sigs : sig_matrix) (meta : list meta_row) : gset string :=
  list_to_set sigs.*1 ∩ list_to_set (meta_id <$> meta).

(** [sigs[labels]]: the columns picked by label, in the order of the
    labels; a label that is no column raises KeyError ([None]). *)
Definition select_columns (sigs : sig_matrix) (labels : list string)
  : option sig_matrix :=
  mapM (λ label, pair label <$> get_column sigs label) labels.

(** [meta[meta['id'].isin(common_ids)]]. *)
Definition isin_rows (meta : list meta_row) (ids : gset string) : list meta_row :=
  List.filter (λ m, bool_decide (meta_id m ∈ ids)) meta.

(** What a run leaves behind: the table of verdicts and the report, or
    nothing when an exception ends it. *)
Inductive run :=
  | Written (results_df : list verdict_row) (report : option summary)
  | Aborted.

(** [main], lines 297-319, once the matrix and the metadata are loaded.
    [listing] is [list(common_ids)], the common ids in the order in which
    the set happens to list them. The frame built from no record has no
    column, and the filter raises KeyError on it. *)
Definition validate_instances (sigs : sig_matrix) (meta : list meta_row)
    (listing : list string) (mode : string) (threshold : Qc) : run :=
  match select_columns sigs listing with
  | None => Aborted
  | Some sigs_filt =>
      let meta_filt := isin_rows meta (common_ids sigs meta) in
      match calculate_raw_stats pearsonr sigs_filt meta_filt with
      | [] => Aborted
      | results =>
          match apply_filters results mode threshold with
          | Returned results_df =>
              Written results_df (generate_summary results_df)
          | Raised _ => Aborted
          end
      end
  end.

End ValidationRun.

(** ** The shared-genes table ([compare_genes] of [compare_tahoe_cmap.py]) *)

Section CompareGenes.

(** [df.drop_duplicates()] on whole rows: a row is kept unless an equal row
    came before it. *)
Fixpoint drop_duplicate_rows `{EqDecision A} (seen : list A) (rows : list A)
  : list A :=
  match rows with
  | [] => []
  | row :: rest =>
      if bool_decide (row ∈ seen) then drop_duplicate_rows seen rest
      else row :: drop_duplicate_rows (row :: seen) rest
  end.

(** [tahoe_genes_df['gene_name'].map(name_to_entrez)] followed by
    [dropna(subset=['entrezID'])]: the gene names that the mapping knows,
    with the value it gives them. *)
Definition tahoe_mapped (name_to_entrez : gmap string raw_id)
    (gene_names : list string) : list (string * raw_id) :=
  omap (λ name,
          match name_to_entrez !! name with
          | Some IdNaN | None => None
          | Some v => Some (name, v)
          end) gene_names.

(** [read_csv] types a column as a whole: one text among the ids of the
    mapping table makes every id of the column a text, the numbers
    included, which are then held as their decimal numerals. *)
Definition text_typed (gene_map_df : list map_row) : bool :=
  existsb (λ row, match entrezID row with
                  | IdText _ => true
                  | IdNum _ | IdNaN => false
                  end) gene_map_df.

(** [astype(int)] on a value of the [entrezID] column: it raises on a text
    that is no number and on a missing value. *)
Definition astype_int (v : raw_id) : option Z :=
  match v with
  | IdNum z => Some z
  | IdText _ | IdNaN => None
  end.

(** How [compare_genes] ends: with the error report of one of its [except]
    branches, without a table when no gene is shared, or with the table it
    saves. *)
Inductive genes_outcome :=
  | GenesError
  | NoSharedGenes
  | SavedGenes (final_df : list (string * Z)).

(** [compare_genes], lines 141-189, from the [V1] column of the CMap
    signatures, the gene mapping table and the gene names of Tahoe. Line
    182 looks the values of the mapped column up in a set of integers: in a
    column typed as text the values are texts, none of which is equal to an
    integer, and no row is selected. *)
Definition compare_genes (cmap_V1 : list raw_id) (gene_map_df : list map_row)
    (gene_names : list string) : genes_outcome :=
  let cmap_entrez_ids : gset Z := list_to_set (omap to_numeric cmap_V1) in
  let name_to_entrez := gene_name_to_entrez gene_map_df in
  let tahoe_mapped_df := tahoe_mapped name_to_entrez gene_names in
  match mapM (λ row : string * raw_id,
                pair row.1 <$> astype_int row.2) tahoe_mapped_df with
  | None => GenesError
  | Some tahoe_mapped_int =>
      let tahoe_entrez_ids : gset Z := list_to_set tahoe_mapped_int.*2 in
      let shared_entrez_ids := cmap_entrez_ids ∩ tahoe_entrez_ids in
      if bool_decide (shared_entrez_ids = ∅) then NoSharedGenes
      else
        let shared_genes_df :=
          if text_typed gene_map_df then []
          else filter (λ row : string * Z, row.2 ∈ shared_entrez_ids)
                 tahoe_mapped_int in
        SavedGenes (drop_duplicate_rows [] shared_genes_df)
  end.

(** The saved table as the ranking scripts read it back. *)
Definition read_shared_genes (final_df : list (string * Z)) : list map_row :=
  (λ row : string * Z, mkMapRow (Some row.1) (IdNum row.2)) <$> final_df.

End CompareGenes.

(** ** Small inputs for the extraction and the validation run *)

Section Examples.

(** A store of three experiments over three genes. *)
Definition example_node : list (list Z) :=
  [[1; 2; 3]; [4; 5; 6]; [7; 8; 9]]%Z.

(** Adjusted p-values of two experiments for two genes: the first gene is
    significant at 0.05 in the first experiment, the second gene in none. *)
Definition example_padj : h5_array :=
  mkH5 2 [[frac 1 100; frac 1 2]; [None; frac 3 4]].

(** The genes table of that store, listed against the column order. *)
Definition example_genes : list gene_row :=
  [mkGene 1 "B"; mkGene 0 "A"].

(** The replicate matrix with its first two columns exchanged. *)
Definition swapped_sigs : sig_matrix :=
  [("e2", [Qc_of_Z 1; Qc_of_Z 2]);
   ("e1", [Qc_of_Z 1; Qc_of_Z 2]);
   ("e3", [Qc_of_Z 2; Qc_of_Z 1])].

(** The dictionary of the collapse scenario: both symbols resolve to the
    id 7. *)
Definition collapse_dictionary : gmap string dict_value :=
  {[ "A" := Number (Qc_of_Z 7); "B" := Number (Qc_of_Z 7) ]}.

(** The same dictionary with the number 7.5 for the second symbol. *)
Definition fractional_dictionary : gmap string dict_value :=
  {[ "A" := Number (Qc_of_Z 7); "B" := Number (Q2Qc (15 # 2)) ]}.

(** The reference mapping with a text for the id of gene B: the ids of the
    column are read as texts. *)
Definition text_gene_map : list map_row :=
  [mkMapRow (Some "A") (IdNum 10); mkMapRow (Some "B") (IdText "pending");
   mkMapRow (Some "C") (IdNum 20)].

End Examples.

(** * Part II: the properties *)

(** ** ColumnSelector *)

Section ColumnSelectorFacts.
Local Open Scope Z_scope.
Context {A : Type}.

Lemma lookup_enumerate (a : list Z) (k : nat) (p : Z * Z) :
  enumerate a !! k = Some p → p.1 = Z.of_nat k ∧ a !! k = Some p.2.
Proof.
  unfold enumerate. rewrite lookup_zip_with_Some.
  intros (i & x & -> & Hi & Hx). simpl. split; [|done].
  rewrite list_lookup_fmap in Hi.
  destruct (seq 0 (length a) !! k) as [j|] eqn:Hj; simplify_eq/=.
  apply lookup_seq in Hj as [-> _]. done.
Qed.

Lemma get_item_nat {B} (a : list B) (k : nat) :
  (k < length a)%nat → get_item a (Z.of_nat k) = a !! k.
Proof.
  intros Hk. unfold get_item. rewrite bool_decide_eq_true_2 by lia.
  by rewrite Nat2Z.id.
Qed.

Lemma get_item_enumerate (a : list Z) (p : Z * Z) :
  p ∈ enumerate a → get_item a p.1 = Some p.2.
Proof.
  intros [k Hk]%list_elem_of_lookup.
  apply lookup_enumerate in Hk as [-> Hk].
  rewrite get_item_nat; [done|]. by eapply lookup_lt_Some.
Qed.

Lemma enumerate_fst (a : list Z) : (enumerate a).*1 = arange (length a).
Proof. unfold enumerate, arange. apply fst_zip. by rewrite length_fmap, length_seq. Qed.

Lemma enumerate_snd (a : list Z) : (enumerate a).*2 = a.
Proof. unfold enumerate. apply snd_zip. by rewrite length_fmap, length_seq. Qed.

Lemma argsort_perm (a : list Z) : argsort a ≡ₚ arange (length a).
Proof.
  unfold argsort. rewrite merge_sort_Permutation. by rewrite enumerate_fst.
Qed.

Lemma argsort_length (a : list Z) : length (argsort a) = length a.
Proof.
  rewrite (Permutation_length (argsort_perm a)).
  unfold arange. by rewrite length_fmap, length_seq.
Qed.

#[local] Instance by_value_total : Total by_value.
Proof. intros p q. unfold by_value. lia. Qed.

Lemma take_argsort (a : list Z) :
  ∃ s, take_idx a (argsort a) = Some s ∧ s ≡ₚ a ∧ Sorted Z.le s.
Proof.
  exists ((merge_sort by_value (enumerate a)).*2). split; [|split].
  - unfold take_idx, argsort. apply mapM_Some.
    apply Forall2_fmap, Forall_Forall2_diag, Forall_forall.
    intros p Hp. apply get_item_enumerate.
    by rewrite <-(merge_sort_Permutation by_value).
  - rewrite merge_sort_Permutation. by rewrite enumerate_snd.
  - eapply Sorted_fmap; [|apply (Sorted_merge_sort by_value)]. done.
Qed.

Lemma arange_sorted (n : nat) : Sorted Z.le (arange n).
Proof.
  unfold arange. eapply Sorted_fmap with (R1 := le); [lia|].
  generalize 0%nat. induction n as [|n IH]; intros s; simpl; [constructor|].
  constructor; [apply IH|]. destruct n; simpl; constructor. lia.
Qed.

Lemma take_arange {B} (a : list B) : take_idx a (arange (length a)) = Some a.
Proof.
  unfold take_idx, arange. apply mapM_Some.
  apply Forall2_fmap_l, Forall2_lookup. intros i.
  destruct (a !! i) as [x|] eqn:Hx.
  - pose proof (lookup_lt_Some _ _ _ Hx) as Hlt.
    rewrite lookup_seq_lt by done. constructor. simpl.
    by rewrite get_item_nat.
  - apply lookup_ge_None in Hx. rewrite lookup_seq_ge by done. constructor.
Qed.

Lemma get_item_take {B} (a : list B) (i1 : list Z) (b : list B) (j : Z) :
  take_idx a i1 = Some b → get_item b j = get_item i1 j ≫= get_item a.
Proof.
  intros H%mapM_Some. pose proof (Forall2_length _ _ _ H) as Hlen.
  assert (∀ k, b !! k = i1 !! k ≫= get_item a) as Hk.
  { intros k. destruct (i1 !! k) as [i|] eqn:Hi; simpl.
    - destruct (Forall2_lookup_l _ _ _ _ _ H Hi) as (y & -> & Hy). done.
    - apply lookup_ge_None. apply lookup_ge_None in Hi. lia. }
  unfold get_item at 1 3. rewrite <-Hlen.
  repeat case_bool_decide; try done; apply Hk.
Qed.

Lemma take_idx_take {B} (a : list B) (i1 : list Z) (b : list B) (i2 : list Z) :
  take_idx a i1 = Some b →
  take_idx b i2 = take_idx i1 i2 ≫= take_idx a.
Proof.
  intros H. induction i2 as [|j i2 IH]; [done|].
  unfold take_idx in IH |- *.
  cbn [mapM]. rewrite (get_item_take _ _ _ j H), IH.
  destruct (get_item i1 j) as [i|]; simpl; [|done].
  destruct (mapM (get_item i1) i2) as [js|]; simpl.
  - done.
  - by destruct (get_item a i).
Qed.

Lemma take_idx_perm_None {B} (a : list B) (i1 i2 : list Z) :
  i1 ≡ₚ i2 → take_idx a i1 = None → take_idx a i2 = None.
Proof.
  unfold take_idx. rewrite !mapM_None, !Exists_exists.
  intros Hp (x & Hx & Hn). exists x. by rewrite <-Hp.
Qed.

(** Indexing by a permutation of an index list gives a permutation of the
    result. *)
Lemma take_idx_Permutation {B} (a : list B) (i1 i2 : list Z) (b1 : list B) :
  i1 ≡ₚ i2 → take_idx a i1 = Some b1 →
  ∃ b2, take_idx a i2 = Some b2 ∧ b1 ≡ₚ b2.
Proof.
  unfold take_idx. intros Hp. revert b1.
  induction Hp as [|i i1 i2 _ IH|i j l|i1 i2 i3 _ IH1 _ IH2]; intros b1 Hb1.
  - exists []. apply mapM_Some, Forall2_nil_inv_l in Hb1 as ->. done.
  - apply mapM_Some, Forall2_cons_inv_l in Hb1 as (x & b1' & Hx & Hb1' & ->).
    apply mapM_Some in Hb1'. destruct (IH _ Hb1') as (b2 & Hb2 & Hp2).
    exists (x :: b2). split; [|by constructor].
    apply mapM_Some. constructor; [done|]. by apply mapM_Some.
  - apply mapM_Some, Forall2_cons_inv_l in Hb1 as (x & b1' & Hx & Hb1' & ->).
    apply Forall2_cons_inv_l in Hb1' as (y & b1'' & Hy & Hb1'' & ->).
    exists (y :: x :: b1''). split; [|constructor].
    apply mapM_Some. by repeat constructor.
  - destruct (IH1 _ Hb1) as (b2 & Hb2 & Hp2).
    destruct (IH2 _ Hb2) as (b3 & Hb3 & Hp3).
    exists b3. split; [done|by trans b2].
Qed.

(** Reading in any order of the positions and undoing it with the argsort
    of that order gives the requested columns: nothing depends on how the
    sort orders equal indices. *)
Lemma reorder_row_any_order (cols order sorted : list Z) (row : list A) :
  order ≡ₚ arange (length cols) →
  take_idx cols order = Some sorted →
  reorder_row sorted (argsort order) row = take_idx row cols.
Proof.
  intros Hperm Hs.
  assert (take_idx order (argsort order) = Some (arange (length cols))) as Hun.
  { destruct (take_argsort order) as (s & -> & Hp & Hsorted).
    f_equal. apply (Sorted_unique Z.le); [done|apply arange_sorted|].
    by rewrite Hp. }
  assert (sorted ≡ₚ cols) as Hsc.
  { destruct (take_idx_Permutation _ _ _ _ Hperm Hs) as (b2 & Hb2 & Hp2).
    rewrite take_arange in Hb2. by simplify_eq. }
  unfold reorder_row.
  destruct (take_idx row sorted) as [b|] eqn:Hb; simpl.
  - rewrite (take_idx_take _ _ _ _ Hb), (take_idx_take _ _ _ _ Hs).
    rewrite Hun. simpl. by rewrite take_arange.
  - symmetry. by eapply take_idx_perm_None.
Qed.

Lemma reorder_row_ok (cols sorted : list Z) (row : list A) :
  col_sorted cols = Some sorted →
  reorder_row sorted (col_unsort cols) row = take_idx row cols.
Proof.
  intros Hs. apply (reorder_row_any_order cols (col_order cols)); [|done].
  apply argsort_perm.
Qed.

(** C9. For every requested column-index list and every block of rows, reading
    the columns in ascending order ([col_sorted]) and permuting the result
    by [col_unsort = argsort(argsort(cols))] gives the block's columns in
    the caller's order -- including the case where an index is out of range,
    in which both raise. *)
Theorem sorted_read_then_unsort_is_requested_order
    (cols : list Z) (block_full : list (list A)) :
  process_h5_chunk cols block_full = requested_columns cols block_full.
Proof.
  unfold process_h5_chunk, requested_columns.
  destruct (take_argsort cols) as (s & Hs & _).
  unfold col_sorted, col_order. rewrite Hs. simpl.
  apply mapM_ext. intros row. by apply reorder_row_ok.
Qed.

End ColumnSelectorFacts.

(** ** Gene mapping table *)

Section GeneMapFacts.

Lemma dict_zip_snoc (table : list map_row) (row : map_row) :
  dict_zip (table ++ [row]) =
    match Gene_name row with
    | Some symbol => <[symbol := entrezID row]> (dict_zip table)
    | None => dict_zip table
    end.
Proof. unfold dict_zip. by rewrite foldl_app. Qed.

(** A dictionary built by [dict(zip(...))] answers with the last row that
    carries the symbol. *)
Lemma dict_zip_lookup (table : list map_row) (symbol : string) :
  dict_zip table !! symbol =
    entrezID <$> List.find (has_symbol symbol) (reverse table).
Proof.
  induction table as [|row table IH] using rev_ind; [done|].
  rewrite dict_zip_snoc, reverse_snoc. cbn [List.find]. unfold has_symbol at 1.
  destruct (Gene_name row) as [s|] eqn:Hs.
  - case_bool_decide as Heq.
    + simplify_eq. by rewrite lookup_insert_eq.
    + rewrite lookup_insert_ne by congruence. done.
  - rewrite bool_decide_eq_false_2 by done. done.
Qed.

Lemma find_app {A} (f : A → bool) (l k : list A) :
  List.find f (l ++ k) =
    match List.find f l with Some x => Some x | None => List.find f k end.
Proof. induction l as [|x l IH]; simpl; [done|]. by destruct (f x). Qed.

Lemma find_none_iff {A} (f : A → bool) (l : list A) :
  List.find f l = None ↔ ∀ x, x ∈ l → f x = false.
Proof.
  induction l as [|x l IH]; simpl.
  - split; [|done]. intros _ y Hy. by apply elem_of_nil in Hy.
  - destruct (f x) eqn:Hx.
    + split; [done|]. intros H. specialize (H x (list_elem_of_here _ _)). congruence.
    + rewrite IH. split.
      * intros H y [->|Hy]%elem_of_cons; auto.
      * intros H y Hy. apply H. by right.
Qed.

(** When at most one row carries the symbol, first and last agree. *)
Lemma find_reverse_unique (table : list map_row) (symbol : string) :
  NoDup (Gene_name <$> table) →
  List.find (has_symbol symbol) (reverse table) =
    List.find (has_symbol symbol) table.
Proof.
  induction table as [|row table IH]; [done|].
  rewrite fmap_cons, NoDup_cons. intros [Hnotin Hnd].
  rewrite reverse_cons, find_app, IH by done. cbn [List.find].
  destruct (has_symbol symbol row) eqn:Hrow; [|by destruct (List.find _ table)].
  assert (List.find (has_symbol symbol) table = None) as ->; [|done].
  apply find_none_iff. intros x Hx. unfold has_symbol in *.
  apply bool_decide_eq_true in Hrow. apply bool_decide_eq_false. intros Hxs.
  apply Hnotin. rewrite Hrow, <-Hxs. by apply list_elem_of_fmap_2.
Qed.

Lemma drop_duplicates_seen_names (seen : list (option string)) (table : list map_row) :
  NoDup (Gene_name <$> drop_duplicates_seen seen table) ∧
  ∀ row, row ∈ drop_duplicates_seen seen table → Gene_name row ∉ seen.
Proof.
  revert seen. induction table as [|row table IH]; intros seen; simpl.
  - split; [constructor|]. intros row Hrow. by apply elem_of_nil in Hrow.
  - case_bool_decide as Hseen; [apply IH|].
    destruct (IH (Gene_name row :: seen)) as [Hnd Hout]. split.
    + rewrite fmap_cons. constructor; [|done].
      intros (x & Hx & Hin)%list_elem_of_fmap. apply (Hout x Hin).
      rewrite <-Hx. by left.
    + intros x [->|Hx]%elem_of_cons; [done|].
      intros Hin. apply (Hout x Hx). by right.
Qed.

Lemma drop_duplicates_seen_find (seen : list (option string))
    (table : list map_row) (symbol : string) :
  List.find (has_symbol symbol) (drop_duplicates_seen seen table) =
    if bool_decide (Some symbol ∈ seen) then None
    else List.find (has_symbol symbol) table.
Proof.
  revert seen. induction table as [|row table IH]; intros seen; simpl.
  - by case_bool_decide.
  - unfold has_symbol at 2. case_bool_decide as Hseen.
    + rewrite IH. case_bool_decide as Hs; [done|].
      case_bool_decide as Hrow; [|done]. by rewrite Hrow in Hseen.
    + cbn [List.find]. unfold has_symbol at 1.
      case_bool_decide as Hrow.
      * rewrite Hrow in Hseen. by rewrite bool_decide_eq_false_2.
      * rewrite IH. case_bool_decide as Hs; case_bool_decide as Hs'; try done.
        -- apply elem_of_cons in Hs as [?|?]; congruence.
        -- exfalso. apply Hs. by right.
Qed.

Lemma find_filter {A} (f g : A → bool) (l : list A) :
  List.find f (List.filter g l) = List.find (λ x, g x && f x) l.
Proof.
  induction l as [|x l IH]; simpl; [done|].
  destruct (g x); simpl; [|done]. by destruct (f x).
Qed.

(** The rank-and-checkpoint dictionary answers with the first row of the
    table that carries the symbol and an id. *)
Lemma gene_name_to_entrez_lookup (gene_map : list map_row) (symbol : string) :
  gene_name_to_entrez gene_map !! symbol =
    entrezID <$>
      List.find (λ row, complete row && has_symbol symbol row) gene_map.
Proof.
  unfold gene_name_to_entrez, drop_duplicates.
  rewrite dict_zip_lookup, find_reverse_unique
    by apply drop_duplicates_seen_names.
  rewrite drop_duplicates_seen_find.
  rewrite bool_decide_eq_false_2 by apply not_elem_of_nil.
  unfold dropna. by rewrite find_filter.
Qed.

Lemma find_complete_symbol (table : list map_row) (symbol : string) :
  (∀ row, row ∈ table → has_symbol symbol row = true → complete row = true) →
  List.find (λ row, complete row && has_symbol symbol row) table =
    List.find (has_symbol symbol) table.
Proof.
  induction table as [|row table IH]; [done|]. intros Hall. cbn [List.find].
  destruct (has_symbol symbol row) eqn:Hrow.
  - rewrite (Hall row) by (done || by left). done.
  - rewrite andb_false_r. apply IH. intros x Hx. apply Hall. by right.
Qed.

(** C8. The rank-and-checkpoint script drops the rows lacking a symbol or
    an id, then keeps the first row of every symbol, before it builds the
    dictionary. So a symbol resolves to the id of the first row of the table
    that carries the symbol and an id, whatever the ids of the later rows of
    that symbol; when every row of the symbol carries an id, that is the
    first occurrence of the symbol in the table. The ranking filter script
    builds its dictionary from the shared-genes table as it is read, a table
    that [compare_genes] writes from the de-duplicated mapping and that
    lists no symbol twice: there too a symbol resolves to the id of its
    first occurrence. *)
Theorem gene_map_lookup_keeps_first_occurrence
    (table : list map_row) (symbol : string) :
  gene_name_to_entrez table !! symbol =
    entrezID <$> List.find (λ row, complete row && has_symbol symbol row) table
  ∧ (∀ before row after,
       table = before ++ row :: after →
       Gene_name row = Some symbol → entrezID row ≠ IdNaN →
       (∀ x, x ∈ before → Gene_name x = Some symbol → entrezID x = IdNaN) →
       gene_name_to_entrez table !! symbol = Some (entrezID row))
  ∧ ((∀ row, row ∈ table → Gene_name row = Some symbol → entrezID row ≠ IdNaN) →
     gene_name_to_entrez table !! symbol =
       entrezID <$> List.find (has_symbol symbol) table)
  ∧ (NoDup (Gene_name <$> table) →
     gene_name_to_entrez_shared table !! symbol =
       entrezID <$> List.find (has_symbol symbol) table).
Proof.
  split; [apply gene_name_to_entrez_lookup|]. split; [|split].
  - intros before row after -> Hsym Hid Hbefore.
    rewrite gene_name_to_entrez_lookup, find_app.
    assert (List.find (λ row, complete row && has_symbol symbol row) before
            = None) as ->.
    { apply find_none_iff. intros x Hx. unfold complete, has_symbol.
      destruct (decide (Gene_name x = Some symbol)) as [Hsx|Hsx].
      - rewrite (Hbefore x Hx Hsx).
        rewrite (bool_decide_eq_false_2 (IdNaN ≠ IdNaN)) by (by intros ?).
        by rewrite andb_false_r.
      - rewrite (bool_decide_eq_false_2 _ Hsx). by rewrite andb_false_r. }
    cbn [List.find]. unfold complete, has_symbol. rewrite Hsym.
    rewrite !bool_decide_eq_true_2 by (done || eauto). done.
  - intros Hall. rewrite gene_name_to_entrez_lookup, find_complete_symbol; [done|].
    intros row Hrow Hsym. unfold has_symbol in Hsym.
    apply bool_decide_eq_true in Hsym. unfold complete. rewrite Hsym.
    rewrite !bool_decide_eq_true_2 by (eauto || by apply Hall). done.
  - intros Hnd. unfold gene_name_to_entrez_shared.
    by rewrite dict_zip_lookup, find_reverse_unique.
Qed.

(** Symbol A listed three times, first without an id, then with ids 1 and
    2: the rank-and-checkpoint dictionary gives 1. *)
Example checkpoint_dictionary_keeps_first_occurrence :
  gene_name_to_entrez
    [mkMapRow (Some "A") IdNaN; mkMapRow (Some "A") (IdNum 1);
     mkMapRow (Some "A") (IdNum 2)] !! "A" = Some (IdNum 1).
Proof. vm_compute. reflexivity. Qed.

End GeneMapFacts.

(** ** GeneIdentifierHarmonizer *)

Section HarmonizerFacts.

Lemma elem_of_group_keys (g : Z) (keys : list Z) : g ∈ group_keys keys ↔ g ∈ keys.
Proof.
  unfold group_keys. rewrite merge_sort_Permutation. apply elem_of_remove_dups.
Qed.

Lemma NoDup_group_keys (keys : list Z) : NoDup (group_keys keys).
Proof.
  unfold group_keys. rewrite merge_sort_Permutation. apply NoDup_remove_dups.
Qed.

Lemma Sorted_group_keys (keys : list Z) : Sorted Z.le (group_keys keys).
Proof. apply (Sorted_merge_sort Z.le). Qed.

(** The row of a collapsed frame, column by column. *)
Lemma row_at_groupby_mean (f : Frame Z) (pos : nat) (g : Z) :
  index (groupby_mean f) !! pos = Some g →
  row_at (groupby_mean f) pos =
    Some ((λ c : Z * list cell, mean_skipna (group_cells g (index f) c.2))
            <$> columns f).
Proof.
  simpl. intros Hpos. unfold row_at. apply mapM_Some. simpl.
  apply Forall2_fmap, Forall_Forall2_diag, Forall_forall.
  intros [lbl col] _. simpl. by rewrite list_lookup_fmap, Hpos.
Qed.

Lemma mapM_id_Some (xs : list cell) (vs : list Qc) :
  mapM id xs = Some vs → xs = Some <$> vs.
Proof.
  intros H%mapM_Some. induction H as [|x v xs vs Hx _ IH]; [done|].
  simpl in Hx. by rewrite Hx, IH.
Qed.

Lemma omap_id_Some (vs : list Qc) : omap id (Some <$> vs) = vs.
Proof. induction vs as [|v vs IH]; csimpl; [done|]. by f_equal. Qed.

(** Where no cell of the group is NaN, the pandas mean is the arithmetic
    mean of all of them. *)
Lemma mean_skipna_all_present (xs : list cell) :
  Forall is_Some xs → mean_skipna xs = arithmetic_mean_of_all xs.
Proof.
  intros Hall. unfold arithmetic_mean_of_all.
  destruct (mapM id xs) as [vs|] eqn:Hvs.
  - apply mapM_id_Some in Hvs as ->. unfold mean_skipna.
    rewrite omap_id_Some. by destruct vs.
  - apply mapM_None_1, Exists_exists in Hvs as (x & Hx & Hnone).
    rewrite Forall_forall in Hall. destruct (Hall x Hx) as [v ->]. done.
Qed.

Lemma index_enforce_shared (shared : gset Z) (f : Frame Z) :
  index (enforce_shared shared f) = filter (.∈ shared) (index f).
Proof.
  simpl. induction (index f) as [|g keys IH]; [done|].
  rewrite filter_cons, fmap_cons. csimpl.
  case_bool_decide; case_decide; csimpl; try done. by f_equal.
Qed.

Lemma enforce_shared_subseteq (shared : gset Z) (f : Frame Z) :
  (list_to_set (index (enforce_shared shared f)) : gset Z) ⊆ shared.
Proof.
  rewrite index_enforce_shared. intros g.
  rewrite elem_of_list_to_set, list_elem_of_filter. tauto.
Qed.

(** The group of an id in the re-indexed frame is made of the rows whose
    symbol resolves to that id. *)
Lemma group_cells_map_to_entrez (d : gmap string raw_id) (g : Z)
    (symbols : list string) (col : list cell) :
  group_cells g (omap id (entrez_of d <$> symbols))
    (keep_rows (entrez_of d <$> symbols) col)
  = symbol_group_cells d g symbols col.
Proof.
  unfold group_cells, symbol_group_cells, keep_rows.
  revert col. induction symbols as [|s symbols IH]; intros [|x col]; try done.
  - rewrite (zip_with_nil_r pair (entrez_of d <$> s :: symbols)).
    csimpl. by rewrite zip_with_nil_r.
  - rewrite fmap_cons. cbn [zip zip_with List.filter fst snd].
    destruct (entrez_of d s) as [k|] eqn:Hk; csimpl.
    + cbn [zip zip_with List.filter fst snd].
      destruct (decide (k = g)) as [->|Hne].
      * rewrite !bool_decide_eq_true_2 by done. csimpl. f_equal. apply IH.
      * rewrite !bool_decide_eq_false_2 by congruence. apply IH.
    + apply IH.
Qed.

(** The collapsed row of an id, from the symbols: in every experiment the
    mean over the rows whose symbol resolves to the id. *)
Lemma harmonize_row (gene_map : list map_row) (transposed : Frame string)
    (pos : nat) (g : Z) :
  index (harmonize gene_map transposed) !! pos = Some g →
  row_at (harmonize gene_map transposed) pos =
    Some ((λ c : Z * list cell,
             mean_skipna
               (symbol_group_cells (gene_name_to_entrez gene_map) g
                  (index transposed) c.2))
            <$> columns transposed).
Proof.
  intros Hpos. unfold harmonize in *.
  rewrite (row_at_groupby_mean _ _ _ Hpos). f_equal. simpl.
  rewrite <-list_fmap_compose. apply list_fmap_ext. intros _ [lbl col] _.
  simpl. by rewrite group_cells_map_to_entrez.
Qed.

(** C3 (amended). Collapsing reduces the rows of every id to exactly one
    output row, whose cell in each experiment column is the mean of the
    group's cells of that column that are not NaN (NaN when there is none);
    where no cell of the group is NaN in a column, that is the arithmetic
    mean of all group members. *)
Theorem collapse_is_mean_over_finite_cells (f : Frame Z) (g : Z) :
  g ∈ index f →
  ∃ pos,
    index (groupby_mean f) !! pos = Some g
    ∧ (∀ pos', index (groupby_mean f) !! pos' = Some g → pos' = pos)
    ∧ row_at (groupby_mean f) pos =
        Some ((λ c : Z * list cell, mean_skipna (group_cells g (index f) c.2))
                <$> columns f)
    ∧ ∀ c : Z * list cell,
        Forall is_Some (group_cells g (index f) c.2) →
        mean_skipna (group_cells g (index f) c.2) =
          arithmetic_mean_of_all (group_cells g (index f) c.2).
Proof.
  intros Hg. apply elem_of_group_keys, list_elem_of_lookup in Hg as [pos Hpos].
  exists pos. repeat split.
  - done.
  - intros pos' Hpos'. simpl in Hpos'.
    by apply (NoDup_lookup _ _ _ g (NoDup_group_keys (index f))).
  - by apply row_at_groupby_mean.
  - intros c. apply mean_skipna_all_present.
Qed.

(** The collapsing scenario: vectors [1,2,3] and [3,4,5] of one id give the
    single row [2,3,4]. *)
Lemma collapse_scenario_row :
  7%Z ∈ index collapse_frame_ids
  ∧ index (groupby_mean collapse_frame_ids) = [7%Z]
  ∧ row_at (groupby_mean collapse_frame_ids) 0 = Some [fin 2; fin 3; fin 4].
Proof.
  assert (7%Z ∈ index collapse_frame_ids) as Hin by (simpl; left).
  split; [exact Hin|].
  destruct (collapse_is_mean_over_finite_cells collapse_frame_ids 7 Hin)
    as (pos & Hpos & _ & Hrow & _).
  split; [compute_done|].
  assert (pos = 0%nat) as ->.
  { apply lookup_lt_Some in Hpos. simpl in Hpos.
    change (length (group_keys [7%Z; 7%Z])) with 1%nat in Hpos. lia. }
  rewrite Hrow. compute_done.
Defined.

(** The same scenario through the whole of Step 3, from the symbols. *)
Example collapsing_rule_from_symbols :
  index (harmonize collapse_gene_map collapse_frame) = [7%Z]
  ∧ row_at (harmonize collapse_gene_map collapse_frame) 0
    = Some [fin 2; fin 3; fin 4].
Proof. split; compute_done. Qed.

(** C3, as stated, fails where a group member has a NaN cell: the collapsed
    row of [1, NaN] and [3, 4] is [2, 4], while the arithmetic mean of all
    members is NaN in the second experiment. *)
Lemma collapse_skips_nan_members :
  row_at (groupby_mean nan_member_frame) 0 = Some [fin 2; fin 4]
  ∧ row_at (groupby_mean nan_member_frame) 0
    ≠ Some ((λ c : Z * list cell,
               arithmetic_mean_of_all
                 (group_cells 7 (index nan_member_frame) c.2))
              <$> columns nan_member_frame).
Proof. split; compute_done. Qed.

(** C4. With a reference set supplied, the ids of the harmonized frame all
    lie in the reference set: for the intersection filter on any collapsed
    frame and any set, for Step 3 of the ranking filter script as a whole,
    and in the scenario where the mapping table resolves ids 10, 30 and 20
    against the reference set of 10 and 20. *)
Theorem harmonizer_output_within_reference_set :
  (∀ (shared : gset Z) (collapsed : Frame Z),
     (list_to_set (index (enforce_shared shared collapsed)) : gset Z) ⊆ shared)
  ∧ (∀ (shared_genes_df : list map_row) (transposed : Frame string),
       (list_to_set (index (harmonize_shared shared_genes_df transposed)) : gset Z)
         ⊆ shared_entrez_ids shared_genes_df)
  ∧ index (harmonize reference_gene_map reference_frame) = [10%Z; 20%Z; 30%Z]
  ∧ index (enforce_shared reference_set
             (harmonize reference_gene_map reference_frame)) = [10%Z; 20%Z].
Proof.
  split; [apply enforce_shared_subseteq|].
  split; [intros; apply enforce_shared_subseteq|].
  split; compute_done.
Qed.

End HarmonizerFacts.

(** ** RankTransformer *)

Section RankFacts.

Lemma filter_length_le {A} (f g : A → bool) (l : list A) :
  (∀ x, x ∈ l → f x = true → g x = true) →
  length (List.filter f l) ≤ length (List.filter g l).
Proof.
  induction l as [|x l IH]; intros Hfg; simpl; [done|].
  assert (length (List.filter f l) ≤ length (List.filter g l)) as Hle.
  { apply IH. intros y Hy. apply Hfg. by right. }
  destruct (f x) eqn:Hf.
  - rewrite (Hfg x (list_elem_of_here _ _) Hf). simpl. lia.
  - destruct (g x); simpl; lia.
Qed.

Lemma filter_length_lt {A} (f g : A → bool) (l : list A) (w : A) :
  (∀ x, x ∈ l → f x = true → g x = true) →
  w ∈ l → g w = true → f w = false →
  length (List.filter f l) < length (List.filter g l).
Proof.
  induction l as [|x l IH]; intros Hfg Hw Hgw Hfw; simpl.
  - by apply elem_of_nil in Hw.
  - assert (∀ y, y ∈ l → f y = true → g y = true) as Hfg'.
    { intros y Hy. apply Hfg. by right. }
    apply elem_of_cons in Hw as [<-|Hw].
    + rewrite Hgw, Hfw. simpl. pose proof (filter_length_le f g l Hfg'). lia.
    + specialize (IH Hfg' Hw Hgw Hfw). destruct (f x) eqn:Hf.
      * rewrite (Hfg x (list_elem_of_here _ _) Hf). simpl. lia.
      * destruct (g x); simpl; lia.
Qed.

Lemma elem_of_entries (col : list cell) (i : nat) (x : cell) :
  (i, x) ∈ entries col ↔ col !! i = Some x.
Proof.
  unfold entries. rewrite elem_of_lookup_imap. split.
  - intros (j & y & Heq & Hj). by simplify_eq.
  - intros H. by exists i, x.
Qed.

Lemma length_entries (col : list cell) : length (entries col) = length col.
Proof. unfold entries. apply length_imap. Qed.

(** The order of the ranking is a strict total order on the entries of a
    column. *)
Lemma ranks_above_irrefl (x : cell) : ranks_above x x = false.
Proof.
  destruct x as [a|]; simpl; [|done].
  apply bool_decide_eq_false. apply (irreflexivity Qclt).
Qed.

Lemma ranks_above_trans (z y x : cell) :
  ranks_above z y = true → ranks_above y x = true → ranks_above z x = true.
Proof.
  destruct z as [c|], y as [b|], x as [a|]; simpl; try done.
  rewrite !bool_decide_eq_true. intros H1 H2. by trans b.
Qed.

Lemma comes_first_irrefl (i : nat) (x : cell) : comes_first i x i x = false.
Proof.
  unfold comes_first. rewrite ranks_above_irrefl. simpl.
  rewrite (bool_decide_eq_false_2 (i < i)) by lia. apply andb_false_r.
Qed.

Lemma comes_first_spec (j : nat) (y : cell) (i : nat) (x : cell) :
  comes_first j y i x = true ↔
    ranks_above y x = true ∨ (y = x ∧ j < i).
Proof.
  unfold comes_first. rewrite orb_true_iff, andb_true_iff.
  by rewrite !bool_decide_eq_true.
Qed.

Lemma comes_first_trans (k : nat) (z : cell) (j : nat) (y : cell)
    (i : nat) (x : cell) :
  comes_first k z j y = true → comes_first j y i x = true →
  comes_first k z i x = true.
Proof.
  rewrite !comes_first_spec. intros [Hzy|[-> Hkj]] [Hyx|[-> Hji]].
  - left. by eapply ranks_above_trans.
  - by left.
  - by left.
  - right. split; [done|lia].
Qed.

Lemma comes_first_total (j : nat) (y : cell) (i : nat) (x : cell) :
  i ≠ j → comes_first j y i x = true ∨ comes_first i x j y = true.
Proof.
  intros Hne. rewrite !comes_first_spec.
  destruct y as [b|], x as [a|]; simpl.
  - rewrite !bool_decide_eq_true.
    destruct (Qclt_le_dec a b) as [?|Hle]; [by left; left|].
    destruct (Qclt_le_dec b a) as [?|Hle']; [by right; left|].
    assert (a = b) as -> by (by apply Qcle_antisym).
    destruct (decide (j < i)); [left|right]; right; split; (done || lia).
  - by left; left.
  - by right; left.
  - destruct (decide (j < i)); [left|right]; right; split; (done || lia).
Qed.

Lemma comes_first_asym (j : nat) (y : cell) (i : nat) (x : cell) :
  comes_first j y i x = true → comes_first i x j y = false.
Proof.
  intros H. destruct (comes_first i x j y) eqn:H'; [|done].
  pose proof (comes_first_trans _ _ _ _ _ _ H H') as Hjj.
  by rewrite comes_first_irrefl in Hjj.
Qed.

Lemma comes_first_trichotomy (j : nat) (y : cell) (i : nat) (x : cell) :
  (j, y) = (i, x) ∨ comes_first j y i x = true ∨ comes_first i x j y = true.
Proof.
  destruct (decide (i = j)) as [->|Hne];
    [|right; by apply comes_first_total].
  destruct (decide (y = x)) as [->|Hyx]; [by left|right].
  rewrite !comes_first_spec. destruct y as [b|], x as [a|]; simpl.
  - rewrite !bool_decide_eq_true.
    destruct (Qclt_le_dec a b) as [?|Hle]; [by left; left|].
    destruct (Qclt_le_dec b a) as [?|Hle']; [by right; left|].
    destruct Hyx. f_equal. by apply Qcle_antisym.
  - by left; left.
  - by right; left.
  - done.
Qed.

#[local] Instance sorts_no_later_total : Total sorts_no_later.
Proof.
  intros [i x] [j y]. unfold sorts_no_later. simpl.
  destruct (comes_first j y i x) eqn:H; [right|by left].
  by apply comes_first_asym.
Qed.

#[local] Instance sorts_no_later_trans : Transitive sorts_no_later.
Proof.
  intros [i x] [j y] [k z]. unfold sorts_no_later. simpl. intros H1 H2.
  destruct (comes_first k z i x) eqn:H3; [|done].
  destruct (comes_first_trichotomy i x j y) as [Heq|[H|H]].
  - simplify_eq. congruence.
  - pose proof (comes_first_trans _ _ _ _ _ _ H3 H). congruence.
  - congruence.
Qed.

Lemma filter_length_perm {A} (f : A → bool) (l k : list A) :
  l ≡ₚ k → length (List.filter f l) = length (List.filter f k).
Proof.
  induction 1 as [|x l k _ IH|x y l|l1 l2 l3 _ IH1 _ IH2]; simpl.
  - done.
  - destruct (f x); simpl; lia.
  - destruct (f x), (f y); simpl; lia.
  - lia.
Qed.

Lemma filter_all {A} (f : A → bool) (l : list A) :
  Forall (λ x, f x = true) l → List.filter f l = l.
Proof. induction 1 as [|x l Hx _ IH]; simpl; [done|]. by rewrite Hx, IH. Qed.

Lemma filter_none {A} (f : A → bool) (l : list A) :
  Forall (λ x, f x = false) l → List.filter f l = [].
Proof. induction 1 as [|x l Hx _ IH]; simpl; [done|]. by rewrite Hx. Qed.

Lemma NoDup_entries (col : list cell) : NoDup (entries col).
Proof.
  apply (NoDup_fmap_1 fst). unfold entries. rewrite fmap_imap.
  rewrite (imap_ext _ (λ j _, j) col) by done.
  rewrite (imap_seq_0 col (λ j, j)), list_fmap_id. apply NoDup_seq.
Qed.

(** The rank of a cell is its place in the sorted column, counted from
    one. *)
Lemma rank_is_place_in_sorted_order (col : list cell) (i : nat) (x : cell) :
  col !! i = Some x →
  sorted_entries col !! (rank_of col i x - 1) = Some (i, x).
Proof.
  intros Hi. unfold rank_of. rewrite Nat.sub_1_r, Nat.pred_succ.
  assert (sorted_entries col ≡ₚ entries col) as Hperm
    by apply merge_sort_Permutation.
  rewrite (filter_length_perm _ _ _ (symmetry Hperm)).
  assert (StronglySorted sorts_no_later (sorted_entries col)) as Hsorted
    by apply (StronglySorted_merge_sort sorts_no_later).
  assert (NoDup (sorted_entries col)) as Hnd
    by (rewrite Hperm; apply NoDup_entries).
  assert ((i, x) ∈ sorted_entries col) as Hin
    by (rewrite Hperm; by apply elem_of_entries).
  apply list_elem_of_split in Hin as (s1 & s2 & Hs). rewrite Hs in *.
  apply StronglySorted_app in Hsorted as (Hbefore & _ & Hafter).
  apply StronglySorted_cons in Hafter as [Hafter _].
  rewrite List.filter_app, (filter_all _ s1), (filter_none _ (_ :: s2)).
  - rewrite app_nil_r. by apply list_lookup_middle.
  - constructor; [apply comes_first_irrefl|].
    eapply Forall_impl; [exact Hafter|]. by intros [k z].
  - apply Forall_forall. intros [k z] Hz. simpl.
    apply NoDup_app in Hnd as (_ & Hdisj & _).
    destruct (comes_first_trichotomy k z i x) as [Heq|[H|H]]; [|done|].
    + destruct (Hdisj _ Hz). rewrite Heq. by left.
    + specialize (Hbefore (k, z) (i, x) Hz (list_elem_of_here _ _)).
      unfold sorts_no_later in Hbefore. simpl in Hbefore. congruence.
Qed.

Lemma rank_of_lt (col : list cell) (j : nat) (y : cell) (i : nat) (x : cell) :
  col !! j = Some y → comes_first j y i x = true →
  rank_of col j y < rank_of col i x.
Proof.
  intros Hj Hji. unfold rank_of. apply ->Nat.succ_lt_mono.
  apply (filter_length_lt _ _ _ (j, y)).
  - intros [k z] _. simpl. intros Hkj. by eapply comes_first_trans.
  - by apply elem_of_entries.
  - done.
  - apply comes_first_irrefl.
Qed.

Lemma rank_of_bounds (col : list cell) (i : nat) (x : cell) :
  col !! i = Some x → 1 ≤ rank_of col i x ≤ length col.
Proof.
  intros Hi. unfold rank_of. split; [lia|].
  rewrite <-(length_entries col).
  rewrite <-(List.filter_true (entries col)) at 2.
  apply (filter_length_lt _ _ _ (i, x)); try done.
  - by apply elem_of_entries.
  - apply comes_first_irrefl.
Qed.

Lemma lookup_rank_first (col : list cell) (i : nat) :
  rank_first col !! i = rank_of col i <$> col !! i.
Proof. unfold rank_first. apply list_lookup_imap. Qed.

Lemma length_rank_first (col : list cell) : length (rank_first col) = length col.
Proof. unfold rank_first. apply length_imap. Qed.

Lemma rank_first_NoDup (col : list cell) : NoDup (rank_first col).
Proof.
  apply NoDup_alt. intros i j rk. rewrite !lookup_rank_first.
  destruct (col !! i) as [x|] eqn:Hi; [|done].
  destruct (col !! j) as [y|] eqn:Hj; [|done]. simpl.
  intros [= Hri] [= Hrj]. destruct (decide (i = j)) as [|Hne]; [done|].
  destruct (comes_first_total j y i x Hne) as [H|H].
  - pose proof (rank_of_lt col j y i x Hj H). lia.
  - pose proof (rank_of_lt col i x j y Hi H). lia.
Qed.

(** The ranks of a column are exactly 1, ..., G. *)
Lemma rank_first_permutation (col : list cell) :
  rank_first col ≡ₚ seq 1 (length col).
Proof.
  apply submseteq_length_Permutation.
  - apply NoDup_submseteq; [apply rank_first_NoDup|].
    intros rk [i Hi]%list_elem_of_lookup. rewrite lookup_rank_first in Hi.
    destruct (col !! i) as [x|] eqn:Hx; [|done]. simplify_eq/=.
    apply elem_of_seq. pose proof (rank_of_bounds col i x Hx). lia.
  - by rewrite length_seq, length_rank_first.
Qed.

Lemma astype_int32_id (x : Z) :
  (- 2 ^ 31 ≤ x < 2 ^ 31)%Z → astype_int32 x = x.
Proof. intros H. unfold astype_int32. rewrite Z.mod_small; lia. Qed.

Lemma lookup_rank_column (col : list cell) (i : nat) (x : cell) :
  (Z.of_nat (length col) < 2 ^ 31)%Z →
  col !! i = Some x →
  rank_column col !! i = Some (Z.of_nat (rank_of col i x)).
Proof.
  intros Hlen Hi. unfold rank_column.
  rewrite list_lookup_fmap, lookup_rank_first, Hi. simpl. f_equal.
  apply astype_int32_id. pose proof (rank_of_bounds col i x Hi). lia.
Qed.

Lemma rank_column_permutation (col : list cell) :
  (Z.of_nat (length col) < 2 ^ 31)%Z →
  rank_column col ≡ₚ Z.of_nat <$> seq 1 (length col).
Proof.
  intros Hlen. unfold rank_column. rewrite rank_first_permutation.
  erewrite list_fmap_ext; [reflexivity|].
  intros k rk [-> Hrk]%lookup_seq. simpl. apply astype_int32_id. lia.
Qed.

(** C1. In every column the rank transform hands out exactly the ranks
    1, ..., G, one each (G being the number of rows, below 2^31 so that the
    cast to int32 is exact); the cell of rank k is the k-th cell of the
    column sorted by descending effect size, NaN last, equal cells in row
    order; so a larger effect size gets a smaller rank, a finite value ranks
    before every NaN, equal cells (NaN included) are ranked in row order,
    and the cell of rank 1 has no cell sorting above it; the effect vector
    [0.5, -0.2, 3.0, NaN] gets ranks [2, 3, 1, 4]. *)
Theorem rank_transform_is_descending_first_nan_last (col : list cell) :
  (Z.of_nat (length col) < 2 ^ 31)%Z →
  rank_column col ≡ₚ Z.of_nat <$> seq 1 (length col)
  ∧ (∀ i x ri,
       col !! i = Some x → rank_column col !! i = Some ri →
       sorted_entries col !! (Z.to_nat ri - 1) = Some (i, x))
  ∧ (∀ i j x y ri rj,
       col !! i = Some x → col !! j = Some y →
       rank_column col !! i = Some ri → rank_column col !! j = Some rj →
       (∀ a b, x = Some a → y = Some b → (b < a)%Qc → (ri < rj)%Z)
       ∧ (∀ a, x = Some a → y = None → (ri < rj)%Z)
       ∧ (x = y → i < j → (ri < rj)%Z)
       ∧ (ri = 1%Z → ranks_above y x = false))
  ∧ rank_column effect_vector = [2; 3; 1; 4]%Z.
Proof.
  intros Hlen. split; [by apply rank_column_permutation|].
  split.
  { intros i x ri Hi. rewrite (lookup_rank_column col i x Hlen Hi).
    intros [= <-]. rewrite Nat2Z.id. by apply rank_is_place_in_sorted_order. }
  split; [|compute_done].
  intros i j x y ri rj Hi Hj.
  rewrite (lookup_rank_column col i x Hlen Hi).
  rewrite (lookup_rank_column col j y Hlen Hj).
  intros [= <-] [= <-].
  assert (∀ i j x y, col !! i = Some x → col !! j = Some y →
            comes_first i x j y = true →
            (Z.of_nat (rank_of col i x) < Z.of_nat (rank_of col j y))%Z) as Hlt.
  { intros i' j' x' y' Hi' Hj' Hc.
    pose proof (rank_of_lt col i' x' j' y' Hi' Hc). lia. }
  repeat split.
  - intros a b -> -> Hab. apply Hlt; [done|done|].
    apply comes_first_spec. left. simpl. by apply bool_decide_eq_true.
  - intros a -> ->. apply Hlt; [done|done|].
    apply comes_first_spec. by left.
  - intros -> Hij. apply Hlt; [done|done|].
    apply comes_first_spec. by right.
  - intros Hone. destruct (ranks_above y x) eqn:Hyx; [|done].
    assert (comes_first j y i x = true) as Hc
      by (apply comes_first_spec; by left).
    pose proof (rank_of_lt col j y i x Hj Hc).
    pose proof (rank_of_bounds col j y Hj). lia.
Qed.

(** The witness of C1: a column with a tie and two NaN cells. *)
Lemma rank_transform_witness :
  (Z.of_nat (length [fin 5; None; fin 5; None; fin 7]) < 2 ^ 31)%Z
  ∧ rank_column [fin 5; None; fin 5; None; fin 7]
      ≡ₚ Z.of_nat <$> seq 1 5.
Proof.
  assert (Z.of_nat (length [fin 5; None; fin 5; None; fin 7]) < 2 ^ 31)%Z
    as Hlen by (simpl; lia).
  split; [exact Hlen|].
  exact (proj1 (rank_transform_is_descending_first_nan_last _ Hlen)).
Defined.

Example rank_ties_and_nan :
  rank_column [fin 5; None; fin 5; None; fin 7] = [2; 4; 3; 5; 1]%Z
  ∧ sorted_entries [fin 5; None; fin 5; None; fin 7]
    = [(4, fin 7); (0, fin 5); (2, fin 5); (1, None); (3, None)].
Proof. split; compute_done. Qed.

(** *** Ranking in column batches *)

Lemma iloc_cols_chunk {A} (cols : list A) (start size : nat) :
  iloc_cols cols start (Nat.min (start + size) (length cols)) =
    take size (drop start cols).
Proof.
  unfold iloc_cols.
  destruct (decide (start + size ≤ length cols)) as [Hle|Hgt].
  - rewrite Nat.min_l by done. f_equal. lia.
  - rewrite Nat.min_r by lia.
    rewrite !take_ge; [done| |]; rewrite length_drop; lia.
Qed.

Lemma concat_chunks {A} (size m : nat) (l : list A) :
  length l ≤ m * size →
  concat ((λ start, take size (drop start l))
            <$> ((λ k, k * size) <$> seq 0 m)) = l.
Proof.
  revert l. induction m as [|m IH]; intros l Hlen.
  - simpl in *. symmetry. apply nil_length_inv. lia.
  - rewrite <-cons_seq, <-fmap_S_seq, !fmap_cons. simpl.
    trans (take size l ++ drop size l); [|apply take_drop]. f_equal.
    rewrite <-(IH (drop size l)) by (rewrite length_drop; lia).
    f_equal. rewrite <-!list_fmap_compose. apply list_fmap_ext.
    intros _ k _. simpl. by rewrite drop_drop.
Qed.

Lemma py_range_covers (n size : nat) :
  0 < size → n ≤ Nat.div (n + size - 1) size * size.
Proof.
  intros Hs. pose proof (Nat.div_mod (n + size - 1) size) as Hdm.
  pose proof (Nat.mod_upper_bound (n + size - 1) size). nia.
Qed.

Lemma concat_rank_block (blocks : list (list (Z * list cell))) :
  concat (rank_block <$> blocks) = rank_block (concat blocks).
Proof.
  induction blocks as [|b blocks IH]; [done|].
  rewrite fmap_cons. cbn [concat]. rewrite IH.
  unfold rank_block. by rewrite fmap_app.
Qed.

(** The chunks of the loop, put side by side, are the ranked columns. *)
Lemma concat_ranked_chunks (cols : list (Z * list cell)) (size : nat) :
  0 < size → concat (ranked_chunks cols size) = rank_block cols.
Proof.
  intros Hs. unfold ranked_chunks.
  rewrite (list_fmap_ext _
             (rank_block ∘ (λ start, take size (drop start cols)))
             (py_range _ _))
    by (intros; simpl; by rewrite iloc_cols_chunk).
  rewrite list_fmap_compose, concat_rank_block. f_equal.
  unfold py_range. apply concat_chunks. by apply py_range_covers.
Qed.

Lemma ranked_chunks_nonempty (cols : list (Z * list cell)) (size : nat) :
  0 < size → cols ≠ [] → ranked_chunks cols size ≠ [].
Proof.
  intros Hs Hcols Hnil. apply (f_equal length) in Hnil.
  unfold ranked_chunks, py_range in Hnil.
  rewrite !length_fmap, length_seq in Hnil. simpl in Hnil.
  pose proof (py_range_covers (length cols) size Hs) as Hcov.
  rewrite Hnil in Hcov. destruct cols; [done|]. simpl in Hcov. lia.
Qed.

(** C5 (amended). For every matrix with at least one experiment column and
    every positive batch size, ranking the columns batch by batch and
    concatenating the batches gives the rank matrix of a single pass over
    all the columns. *)
Theorem chunked_ranking_is_single_pass
    (cols : list (Z * list cell)) (rank_chunk_size : Z) :
  (0 < rank_chunk_size)%Z → cols ≠ [] →
  rank_in_chunks cols rank_chunk_size = Some (rank_single_pass cols).
Proof.
  intros Hpos Hcols. unfold rank_in_chunks, rank_single_pass.
  rewrite bool_decide_eq_false_2 by lia.
  assert (0 < Z.to_nat rank_chunk_size) as Hs by lia.
  pose proof (ranked_chunks_nonempty cols _ Hs Hcols) as Hne.
  pose proof (concat_ranked_chunks cols _ Hs) as Hcat.
  destruct (ranked_chunks cols (Z.to_nat rank_chunk_size)); [done|].
  by rewrite Hcat.
Qed.

(** The witness of C5: three columns ranked in batches of two. *)
Lemma chunked_ranking_witness :
  (0 < 2)%Z
  ∧ columns collapse_frame ≠ []
  ∧ rank_in_chunks (columns collapse_frame) 2
    = Some (rank_single_pass (columns collapse_frame)).
Proof.
  assert (0 < 2)%Z as Hpos by lia.
  assert (columns collapse_frame ≠ []) as Hcols by done.
  split; [exact Hpos|]. split; [exact Hcols|].
  exact (chunked_ranking_is_single_pass _ _ Hpos Hcols).
Defined.

(** C5, as stated, fails on a matrix without experiment columns: the loop
    leaves no chunk and the concatenation raises, for the default batch size
    as for any other, while a single pass returns the empty rank matrix. *)
Lemma chunked_ranking_raises_without_columns :
  rank_in_chunks [] 512 = None
  ∧ rank_in_chunks [] 512 ≠ Some (rank_single_pass []).
Proof. split; [reflexivity|discriminate]. Qed.

(** A batch size that is not positive raises as well. *)
Lemma chunked_ranking_raises_without_step
    (cols : list (Z * list cell)) (rank_chunk_size : Z) :
  (rank_chunk_size ≤ 0)%Z → rank_in_chunks cols rank_chunk_size = None.
Proof. intros H. unfold rank_in_chunks. by rewrite bool_decide_eq_true_2. Qed.

End RankFacts.

(** ** ReplicateConsistencyValidator *)

Section ValidatorFacts.

Variable pearsonr : list Qc → list Qc → option (cell * cell).

(** *** The leave-one-out identity *)

Lemma lookup_foldl_vec_add (vs : list (list Qc)) (v : list Qc) (j : nat) :
  Forall (λ u, length u = length v) vs →
  foldl vec_add v vs !! j =
    (λ x, x + Qc_sum (entry j <$> vs))%Qc <$> v !! j.
Proof.
  revert v. induction vs as [|u vs IH]; intros v Hlen; simpl.
  - destruct (v !! j); simpl; [|done]. by rewrite Qcplus_0_r.
  - apply Forall_cons in Hlen as [Hu Hvs].
    rewrite IH.
    2:{ unfold vec_add. rewrite length_zip_with, Hu, Nat.min_id.
        eapply Forall_impl; [done|]. simpl. by intros w ->. }
    unfold vec_add. rewrite lookup_zip_with. unfold entry.
    destruct (v !! j) as [x|] eqn:Hx; simpl; [|done].
    destruct (u !! j) as [y|] eqn:Hy; simpl.
    + f_equal. exact (eq_sym (Qcplus_assoc _ _ _)).
    + apply lookup_lt_Some in Hx. apply lookup_ge_None in Hy. lia.
Qed.

Lemma lookup_sum_axis1 (vs : list (list Qc)) (n j : nat) :
  vs ≠ [] → Forall (λ u, length u = n) vs → j < n →
  sum_axis1 vs !! j = Some (Qc_sum (entry j <$> vs)).
Proof.
  destruct vs as [|v vs]; [done|]. intros _ [Hv Hvs]%Forall_cons Hj. simpl.
  rewrite lookup_foldl_vec_add.
  2:{ eapply Forall_impl; [done|]. simpl. congruence. }
  unfold entry at 2. destruct (lookup_lt_is_Some_2 v j) as [x ->]; [lia|]. done.
Qed.

Lemma length_foldl_vec_add (vs : list (list Qc)) (v : list Qc) :
  Forall (λ u, length u = length v) vs → length (foldl vec_add v vs) = length v.
Proof.
  revert v. induction vs as [|u vs IH]; intros v Hlen; simpl; [done|].
  apply Forall_cons in Hlen as [Hu Hvs].
  assert (length (vec_add v u) = length v) as Hl
    by (unfold vec_add; rewrite length_zip_with; lia).
  rewrite IH, Hl; [done|]. rewrite Hl. done.
Qed.

Lemma length_sum_axis1 (vs : list (list Qc)) (n : nat) :
  vs ≠ [] → Forall (λ u, length u = n) vs → length (sum_axis1 vs) = n.
Proof.
  destruct vs as [|v vs]; [done|]. intros _ [Hv Hvs]%Forall_cons. simpl.
  rewrite length_foldl_vec_add; [done|].
  eapply Forall_impl; [done|]. simpl. congruence.
Qed.

Lemma Qc_sum_delete (xs : list Qc) (i : nat) (x : Qc) :
  xs !! i = Some x → (Qc_sum xs - x = Qc_sum (delete i xs))%Qc.
Proof.
  revert i. induction xs as [|y xs IH]; intros [|i] Hi; simplify_eq/=.
  - ring.
  - rewrite <-(IH i Hi). ring.
Qed.

(** The total minus one member is the sum of the other members. *)
Lemma peer_sum_is_sum_of_peers (vs : list (list Qc)) (n i : nat) (v : list Qc) :
  2 ≤ length vs → Forall (λ u, length u = n) vs → vs !! i = Some v →
  vec_sub (sum_axis1 vs) v = sum_axis1 (delete i vs).
Proof.
  intros Hk Hlen Hi.
  assert (vs ≠ []) as Hne by (intros ->; simpl in Hk; lia).
  assert (delete i vs ≠ []) as Hne'.
  { intros Hnil. apply (f_equal length) in Hnil.
    rewrite length_delete in Hnil by eauto. simpl in Hnil. lia. }
  assert (Forall (λ u, length u = n) (delete i vs)) as Hlen'
    by (by apply Forall_delete).
  assert (length v = n) as Hv
    by (rewrite Forall_forall in Hlen; eapply Hlen, list_elem_of_lookup_2, Hi).
  apply list_eq. intros j. unfold vec_sub. rewrite lookup_zip_with.
  destruct (decide (j < n)) as [Hj|Hj].
  - rewrite !(lookup_sum_axis1 _ n j) by done.
    destruct (lookup_lt_is_Some_2 v j) as [y Hy]; [lia|]. rewrite Hy. simpl.
    f_equal. rewrite list_fmap_delete. apply Qc_sum_delete.
    rewrite list_lookup_fmap, Hi. simpl. unfold entry. by rewrite Hy.
  - rewrite !(lookup_ge_None_2 (sum_axis1 _)); [done| |];
      rewrite (length_sum_axis1 _ n) by done; lia.
Qed.

(** The mean of the specification, entry by entry. *)
Lemma lookup_elementwise_mean (vs : list (list Qc)) (n j : nat) :
  vs ≠ [] → Forall (λ u, length u = n) vs → j < n →
  elementwise_mean vs !! j =
    Some (Qc_sum (entry j <$> vs) / Qc_of_nat (length vs))%Qc.
Proof.
  destruct vs as [|v vs]; [done|]. intros _ [Hv _]%Forall_cons Hj.
  unfold elementwise_mean. rewrite list_lookup_imap.
  destruct (lookup_lt_is_Some_2 v j) as [x ->]; [lia|]. done.
Qed.

Lemma length_elementwise_mean (vs : list (list Qc)) (n : nat) :
  vs ≠ [] → Forall (λ u, length u = n) vs → length (elementwise_mean vs) = n.
Proof.
  destruct vs as [|v vs]; [done|]. intros _ [Hv _]%Forall_cons.
  unfold elementwise_mean. by rewrite length_imap.
Qed.

Lemma lookup_peer_consensus (vs : list (list Qc)) (n i j : nat) (v : list Qc) :
  2 ≤ length vs → Forall (λ u, length u = n) vs → vs !! i = Some v → j < n →
  peer_consensus (sum_axis1 vs) v (length vs) !! j =
    Some (Qc_sum (entry j <$> delete i vs)
          / Qc_of_nat (length (delete i vs)))%Qc.
Proof.
  intros Hk Hlen Hi Hj. unfold peer_consensus, vec_div.
  rewrite (peer_sum_is_sum_of_peers vs n i v) by done.
  assert (delete i vs ≠ []) as Hne.
  { intros Hnil. apply (f_equal length) in Hnil.
    rewrite length_delete in Hnil by eauto. simpl in Hnil. lia. }
  rewrite list_lookup_fmap, (lookup_sum_axis1 _ n j); [| done | | done].
  2:{ by apply Forall_delete. }
  simpl. rewrite length_delete by eauto. by rewrite Nat.sub_1_r.
Qed.

Lemma length_peer_consensus (vs : list (list Qc)) (n : nat) (v : list Qc) :
  vs ≠ [] → Forall (λ u, length u = n) vs → length v = n →
  length (peer_consensus (sum_axis1 vs) v (length vs)) = n.
Proof.
  intros Hne Hlen Hv. unfold peer_consensus, vec_div, vec_sub.
  rewrite length_fmap, length_zip_with, (length_sum_axis1 _ n) by done. lia.
Qed.

Lemma peer_consensus_is_mean_of_peers
    (vs : list (list Qc)) (n i : nat) (v : list Qc) :
  2 ≤ length vs → Forall (λ u, length u = n) vs → vs !! i = Some v →
  peer_consensus (sum_axis1 vs) v (length vs) = elementwise_mean (delete i vs).
Proof.
  intros Hk Hlen Hi.
  assert (vs ≠ []) as Hne by (intros ->; simpl in Hk; lia).
  assert (delete i vs ≠ []) as Hne'.
  { intros Hnil. apply (f_equal length) in Hnil.
    rewrite length_delete in Hnil by eauto. simpl in Hnil. lia. }
  assert (Forall (λ u, length u = n) (delete i vs)) as Hlen'
    by (by apply Forall_delete).
  assert (length v = n) as Hv
    by (rewrite Forall_forall in Hlen; eapply Hlen, list_elem_of_lookup_2, Hi).
  apply list_eq. intros j. destruct (decide (j < n)) as [Hj|Hj].
  - rewrite (lookup_peer_consensus vs n i j v) by done.
    by rewrite (lookup_elementwise_mean _ n j).
  - rewrite !lookup_ge_None_2; [done| |].
    + rewrite (length_elementwise_mean _ n) by done. lia.
    + rewrite (length_peer_consensus _ n) by done. lia.
Qed.

(** C2. For a replicate group of k >= 2 member vectors over the same n
    genes, leaving member i out: k - 1 vectors remain; at every gene j the
    total of the group minus the member's own entry is the sum of the
    entries of the other members, and the peer consensus -- that difference
    over k - 1 -- is the sum of the entries of the other members at j
    divided by their number, the arithmetic mean. The consensus has one entry
    per gene, and is the elementwise mean of the other vectors. *)
Theorem leave_one_out_consensus_is_mean_of_peers
    (vs : list (list Qc)) (n i : nat) (v : list Qc) :
  2 ≤ length vs → Forall (λ u, length u = n) vs → vs !! i = Some v →
  length (delete i vs) = length vs - 1
  ∧ length (peer_consensus (sum_axis1 vs) v (length vs)) = n
  ∧ (∀ j, j < n →
       vec_sub (sum_axis1 vs) v !! j =
         Some (Qc_sum (entry j <$> delete i vs))
       ∧ peer_consensus (sum_axis1 vs) v (length vs) !! j =
           Some (Qc_sum (entry j <$> delete i vs)
                 / Qc_of_nat (length vs - 1))%Qc)
  ∧ peer_consensus (sum_axis1 vs) v (length vs) = elementwise_mean (delete i vs).
Proof.
  intros Hk Hlen Hi.
  assert (length (delete i vs) = length vs - 1) as Hd.
  { rewrite length_delete by eauto. lia. }
  assert (vs ≠ []) as Hne by (intros ->; simpl in Hk; lia).
  assert (delete i vs ≠ []) as Hne'.
  { intros Hnil. rewrite Hnil in Hd. simpl in Hd. lia. }
  assert (length v = n) as Hv
    by (rewrite Forall_forall in Hlen; eapply Hlen, list_elem_of_lookup_2, Hi).
  split; [done|]. split; [by apply length_peer_consensus|].
  split; [|by eapply peer_consensus_is_mean_of_peers].
  intros j Hj. split.
  - rewrite (peer_sum_is_sum_of_peers vs n i v) by done.
    apply (lookup_sum_axis1 _ n j); [done| |done]. by apply Forall_delete.
  - rewrite <-Hd. by apply (lookup_peer_consensus vs n i j v).
Qed.

(** The identity inside [calculate_raw_stats]: in a group with at least two
    instances in the matrix, the record of the i-th of them holds the
    correlation of its vector with the mean of the others. *)
Lemma omap_get_column_valid (sigs : sig_matrix) (ids : list string) :
  Forall2 (λ inst v, get_column sigs inst = Some v)
    (List.filter (in_columns sigs) ids)
    (omap (get_column sigs) (List.filter (in_columns sigs) ids)).
Proof.
  induction ids as [|inst ids IH]; simpl; [constructor|].
  destruct (in_columns sigs inst) eqn:Hin; [|done].
  apply bool_decide_eq_true in Hin as [v Hv].
  csimpl. rewrite Hv. csimpl. by constructor.
Qed.

Lemma get_column_length (sigs : sig_matrix) (n : nat) (inst : string)
    (v : list Qc) :
  Forall (λ c : string * list Qc, length c.2 = n) sigs →
  get_column sigs inst = Some v → length v = n.
Proof.
  induction 1 as [|[label col] sigs Hc _ IH]; simpl; [done|].
  case_bool_decide; [|done]. by intros [= <-].
Qed.

Lemma group_stats_scored (sigs : sig_matrix) (drug : string)
    (ids : list string) (n : nat) :
  2 ≤ length (List.filter (in_columns sigs) ids) →
  Forall (λ c : string * list Qc, length c.2 = n) sigs →
  group_stats pearsonr sigs (drug, ids) =
    imap (λ i inst,
            let vs := omap (get_column sigs) (List.filter (in_columns sigs) ids) in
            let v := default [] (get_column sigs inst) in
            let rp := pearson_or_default pearsonr v
                        (elementwise_mean (delete i vs)) in
            mkStat inst drug rp.1 rp.2
              (Z.of_nat (length (List.filter (in_columns sigs) ids)) - 1))
         (List.filter (in_columns sigs) ids).
Proof.
  intros Hk Hshape. unfold group_stats.
  rewrite bool_decide_eq_false_2 by lia.
  pose proof (omap_get_column_valid sigs ids) as Hvs.
  set (valid := List.filter (in_columns sigs) ids) in *.
  set (vs := omap (get_column sigs) valid) in *.
  pose proof (Forall2_length _ _ _ Hvs) as Hlen.
  assert (Forall (λ u, length u = n) vs) as Hall.
  { apply Forall_forall. intros v [i Hi]%list_elem_of_lookup.
    destruct (Forall2_lookup_r _ _ _ _ _ Hvs Hi) as (inst & _ & Hv).
    by eapply get_column_length. }
  apply list_eq. intros i. rewrite list_lookup_fmap, list_lookup_imap.
  destruct (valid !! i) as [inst|] eqn:Hinst; simpl; [|done].
  destruct (Forall2_lookup_l _ _ _ _ _ Hvs Hinst) as (v & Hv & Hcol).
  rewrite Hcol. simpl. rewrite Hlen in Hk |- *.
  by rewrite (peer_consensus_is_mean_of_peers vs n i v).
Qed.

(** The witness of C2: three replicates over two genes, the second left
    out. The consensus of the second is (1 + 10) / 2 and (2 + 20) / 2. *)
Lemma leave_one_out_witness :
  2 ≤ length [[Qc_of_Z 1; Qc_of_Z 2]; [Qc_of_Z 3; Qc_of_Z 5];
              [Qc_of_Z 10; Qc_of_Z 20]]
  ∧ Forall (λ u : list Qc, length u = 2)
      [[Qc_of_Z 1; Qc_of_Z 2]; [Qc_of_Z 3; Qc_of_Z 5];
       [Qc_of_Z 10; Qc_of_Z 20]]
  ∧ [[Qc_of_Z 1; Qc_of_Z 2]; [Qc_of_Z 3; Qc_of_Z 5];
     [Qc_of_Z 10; Qc_of_Z 20]] !! 1 = Some [Qc_of_Z 3; Qc_of_Z 5]
  ∧ peer_consensus
      (sum_axis1 [[Qc_of_Z 1; Qc_of_Z 2]; [Qc_of_Z 3; Qc_of_Z 5];
                  [Qc_of_Z 10; Qc_of_Z 20]])
      [Qc_of_Z 3; Qc_of_Z 5] 3
    = elementwise_mean [[Qc_of_Z 1; Qc_of_Z 2]; [Qc_of_Z 10; Qc_of_Z 20]]
  ∧ peer_consensus
      (sum_axis1 [[Qc_of_Z 1; Qc_of_Z 2]; [Qc_of_Z 3; Qc_of_Z 5];
                  [Qc_of_Z 10; Qc_of_Z 20]])
      [Qc_of_Z 3; Qc_of_Z 5] 3 !! 0 = Some (Q2Qc (11 # 2))
  ∧ peer_consensus
      (sum_axis1 [[Qc_of_Z 1; Qc_of_Z 2]; [Qc_of_Z 3; Qc_of_Z 5];
                  [Qc_of_Z 10; Qc_of_Z 20]])
      [Qc_of_Z 3; Qc_of_Z 5] 3 !! 1 = Some (Qc_of_Z 11)
  ∧ elementwise_mean [[Qc_of_Z 1; Qc_of_Z 2]; [Qc_of_Z 10; Qc_of_Z 20]]
    = [Q2Qc (11 # 2); Qc_of_Z 11].
Proof.
  assert (2 ≤ length [[Qc_of_Z 1; Qc_of_Z 2]; [Qc_of_Z 3; Qc_of_Z 5];
                      [Qc_of_Z 10; Qc_of_Z 20]]) as Hk by (simpl; lia).
  assert (Forall (λ u : list Qc, length u = 2)
            [[Qc_of_Z 1; Qc_of_Z 2]; [Qc_of_Z 3; Qc_of_Z 5];
             [Qc_of_Z 10; Qc_of_Z 20]]) as Hlen by (repeat constructor).
  destruct (leave_one_out_consensus_is_mean_of_peers
              _ 2 1 [Qc_of_Z 3; Qc_of_Z 5] Hk Hlen eq_refl)
    as (_ & _ & Hat & Hmean).
  split; [exact Hk|]. split; [exact Hlen|]. split; [reflexivity|].
  split; [exact Hmean|].
  split; [|split].
  - etrans; [exact (proj2 (Hat 0 ltac:(lia)))|].
    apply (f_equal Some), Qc_is_canon. reflexivity.
  - etrans; [exact (proj2 (Hat 1 ltac:(lia)))|].
    apply (f_equal Some), Qc_is_canon. reflexivity.
  - unfold elementwise_mean. simpl.
    apply (f_equal2 cons); [|apply (f_equal2 cons); [|done]];
      apply Qc_is_canon; reflexivity.
Defined.


(** *** The filter step *)

Lemma count_valid_assign (mask : stat_row → bool) (results : list stat_row) :
  count_valid (assign_valid mask (init_valid results)) =
    Z.of_nat (length (List.filter mask results)).
Proof.
  unfold count_valid, assign_valid, init_valid.
  induction results as [|s results IH]; [done|].
  rewrite !fmap_cons. cbn [foldr List.filter stats]. rewrite IH.
  destruct (mask s); simpl; lia.
Qed.

Lemma apply_filters_pvalue (results : list stat_row) (threshold : Qc) :
  frame_of (apply_filters results "pvalue" threshold) =
    assign_valid
      (λ s, valid_stats_mask s
            && (cell_lt (p s) threshold && cell_gt (r s) 0))
      (init_valid results).
Proof. unfold apply_filters. by case_bool_decide; [subst|]. Qed.

Lemma apply_filters_rvalue (results : list stat_row) (threshold : Qc) :
  frame_of (apply_filters results "rvalue" threshold) =
    assign_valid
      (λ s, valid_stats_mask s && cell_gt (r s) threshold)
      (init_valid results).
Proof. unfold apply_filters. by case_bool_decide; [subst|]. Qed.

Lemma cell_lt_mono (x : cell) (t1 t2 : Qc) :
  (t1 ≤ t2)%Qc → cell_lt x t1 = true → cell_lt x t2 = true.
Proof.
  destruct x as [v|]; simpl; [|done]. rewrite !bool_decide_eq_true.
  intros Hle Hlt. by eapply Qclt_le_trans.
Qed.

Lemma cell_gt_anti (x : cell) (t1 t2 : Qc) :
  (t1 ≤ t2)%Qc → cell_gt x t2 = true → cell_gt x t1 = true.
Proof.
  destruct x as [v|]; simpl; [|done]. rewrite !bool_decide_eq_true.
  intros Hle Hlt. by eapply Qcle_lt_trans.
Qed.

(** C6. With the r and p values of all records held fixed, raising the
    threshold never lowers the number of experiments marked valid in
    p-value mode, and never raises it in r-value mode. *)
Theorem threshold_monotonicity (results : list stat_row) (t1 t2 : Qc) :
  (t1 ≤ t2)%Qc →
  (count_valid (frame_of (apply_filters results "pvalue" t1))
   ≤ count_valid (frame_of (apply_filters results "pvalue" t2)))%Z
  ∧ (count_valid (frame_of (apply_filters results "rvalue" t2))
     ≤ count_valid (frame_of (apply_filters results "rvalue" t1)))%Z.
Proof.
  intros Hle. rewrite !apply_filters_pvalue, !apply_filters_rvalue. simpl.
  rewrite !count_valid_assign. split; apply inj_le, filter_length_le.
  - intros s _. rewrite !andb_true_iff. intros (? & ? & ?).
    eauto using cell_lt_mono.
  - intros s _. rewrite !andb_true_iff. intros (? & ?).
    eauto using cell_gt_anti.
Qed.

(** The witness of C6: thresholds 0.02 and 0.05 on three records. *)
Lemma threshold_monotonicity_witness :
  (Q2Qc (2 # 100) ≤ Q2Qc (5 # 100))%Qc
  ∧ (count_valid (frame_of (apply_filters scored_results "pvalue" (Q2Qc (2 # 100))))
     ≤ count_valid (frame_of (apply_filters scored_results "pvalue" (Q2Qc (5 # 100)))))%Z
  ∧ (count_valid (frame_of (apply_filters scored_results "rvalue" (Q2Qc (5 # 100))))
     ≤ count_valid (frame_of (apply_filters scored_results "rvalue" (Q2Qc (2 # 100)))))%Z.
Proof.
  assert (Q2Qc (2 # 100) ≤ Q2Qc (5 # 100))%Qc as Hle by compute_done.
  split; [exact Hle|]. exact (threshold_monotonicity scored_results _ _ Hle).
Defined.

Example threshold_counts :
  count_valid (frame_of (apply_filters scored_results "pvalue" (Q2Qc (2 # 100)))) = 1%Z
  ∧ count_valid (frame_of (apply_filters scored_results "pvalue" (Q2Qc (5 # 100)))) = 2%Z
  ∧ count_valid (frame_of (apply_filters scored_results "rvalue" (Q2Qc (5 # 100)))) = 2%Z
  ∧ count_valid (frame_of (apply_filters scored_results "rvalue" (Q2Qc (2 # 10)))) = 1%Z.
Proof. repeat split; compute_done. Qed.

(** In p-value mode a record is valid iff p < threshold and r > 0, in
    r-value mode iff r > threshold: the number of peers plays no part. *)
Lemma pvalue_mode_verdicts (results : list stat_row) (threshold : Qc) :
  frame_of (apply_filters results "pvalue" threshold) =
    (λ s, mkVerdict s (if cell_lt (p s) threshold && cell_gt (r s) 0
                       then 1 else 0)) <$> results.
Proof.
  rewrite apply_filters_pvalue. simpl. unfold assign_valid, init_valid.
  rewrite <-list_fmap_compose. apply list_fmap_ext. intros _ s _. simpl.
  unfold valid_stats_mask, notna. destruct (r s) as [rv|]; simpl.
  - by destruct (cell_lt (p s) threshold && bool_decide (Q2Qc 0 < rv)%Qc).
  - by rewrite andb_false_r.
Qed.

Lemma rvalue_mode_verdicts (results : list stat_row) (threshold : Qc) :
  frame_of (apply_filters results "rvalue" threshold) =
    (λ s, mkVerdict s (if cell_gt (r s) threshold then 1 else 0)) <$> results.
Proof.
  rewrite apply_filters_rvalue. simpl. unfold assign_valid, init_valid.
  rewrite <-list_fmap_compose. apply list_fmap_ext. intros _ s _. simpl.
  unfold valid_stats_mask, notna. destruct (r s) as [rv|]; simpl; [|done].
  by destruct (bool_decide (threshold < rv)%Qc).
Qed.

(** Whatever the mode and the threshold, and whether the filter returns or
    raises, the frame holds the records in order, and a record without
    statistics is left with valid = 0. *)
Lemma init_valid_kept (results : list stat_row) :
  Forall2 kept_invalid results (init_valid results).
Proof.
  unfold init_valid. apply Forall2_fmap_r, Forall_Forall2_diag, Forall_forall.
  by intros s _.
Qed.

Lemma assign_valid_kept (mask : stat_row → bool) (results : list stat_row) :
  Forall2 kept_invalid results
    (assign_valid (λ s, valid_stats_mask s && mask s) (init_valid results)).
Proof.
  unfold assign_valid, init_valid. rewrite <-list_fmap_compose.
  apply Forall2_fmap_r, Forall_Forall2_diag, Forall_forall.
  intros s _. unfold kept_invalid, valid_stats_mask, notna. simpl.
  destruct (r s) as [rv|]; simpl; [|done]. by destruct (mask s).
Qed.

Lemma apply_filters_kept (results : list stat_row) (mode : string)
    (threshold : Qc) :
  Forall2 kept_invalid results (frame_of (apply_filters results mode threshold)).
Proof.
  unfold apply_filters.
  repeat case_bool_decide; simpl;
    try apply assign_valid_kept; try apply init_valid_kept.
  destruct (List.filter valid_stats_mask results); simpl;
    [apply init_valid_kept|].
  destruct (nanpercentile _ _); simpl;
    [apply assign_valid_kept|apply init_valid_kept].
Qed.

(** On a frame with records the filter raises only in percentile mode, on
    a percentile outside [0, 100]. *)
Lemma apply_filters_returns (results : list stat_row) (mode : string)
    (threshold : Qc) :
  results ≠ [] →
  mode ≠ "percentile" ∨ (0 ≤ threshold ∧ threshold ≤ Qc_of_Z 100)%Qc →
  ∃ df, apply_filters results mode threshold = Returned df.
Proof.
  intros Hne Hok. unfold apply_filters. repeat case_bool_decide; eauto; [done|].
  destruct (List.filter valid_stats_mask results); eauto.
  destruct Hok as [?|[Hlo Hhi]]; [done|].
  unfold nanpercentile. rewrite bool_decide_eq_true_2.
  - destruct (merge_sort _ _); eauto.
  - split.
    + by apply Qcle_minus_iff in Hhi.
    + apply Qcle_minus_iff.
      replace (Qc_of_Z 100 + - (Qc_of_Z 100 - threshold))%Qc
        with threshold by ring. done.
Qed.

(** The frame built from no record has no column r: the filter raises. *)
Lemma apply_filters_nil (mode : string) (threshold : Qc) :
  apply_filters [] mode threshold = Raised [].
Proof. reflexivity. Qed.


(** *** The groups *)

Lemma elem_of_concat {A} (x : A) (ls : list (list A)) :
  x ∈ concat ls ↔ ∃ l, l ∈ ls ∧ x ∈ l.
Proof.
  induction ls as [|l ls IH]; simpl.
  - split; [by intros ?%elem_of_nil|]. by intros (l & ?%elem_of_nil & _).
  - rewrite elem_of_app, IH. split.
    + intros [Hx|(k & Hk & Hx)]; [exists l|exists k]; split; try done;
        [by left|by right].
    + intros (k & [->|Hk]%elem_of_cons & Hx); [by left|right; eauto].
Qed.

Lemma elem_of_drug_groups (metadata : list meta_row) (drug : string)
    (ids : list string) :
  (drug, ids) ∈ drug_groups metadata → ids = instance_ids metadata drug.
Proof.
  unfold drug_groups. intros (d & Heq & _)%list_elem_of_fmap. by simplify_eq.
Qed.

Lemma elem_of_calculate_raw_stats (sigs : sig_matrix)
    (metadata : list meta_row) (s : stat_row) :
  s ∈ calculate_raw_stats pearsonr sigs metadata ↔
    ∃ group, group ∈ drug_groups metadata ∧ s ∈ group_stats pearsonr sigs group.
Proof.
  unfold calculate_raw_stats. rewrite elem_of_concat. split.
  - intros (l & (g & -> & Hg)%list_elem_of_fmap & Hs). eauto.
  - intros (g & Hg & Hs). exists (group_stats pearsonr sigs g).
    split; [|done]. by apply list_elem_of_fmap_2.
Qed.

Lemma group_stats_unscored (sigs : sig_matrix) (drug : string)
    (ids : list string) :
  length (List.filter (in_columns sigs) ids) ≤ 1 →
  group_stats pearsonr sigs (drug, ids) =
    (λ inst, mkStat inst drug None None 0) <$> ids.
Proof. intros Hk. unfold group_stats. by rewrite bool_decide_eq_true_2. Qed.

Lemma pearson_or_default_notna (x y : list Qc) :
  is_Some (pearson_or_default pearsonr x y).1.
Proof.
  unfold pearson_or_default.
  destruct (pearsonr x y) as [[[rv|] pv]|]; simpl; eauto.
Qed.

Lemma group_stats_drug_name (sigs : sig_matrix) (drug : string)
    (ids : list string) (s : stat_row) :
  s ∈ group_stats pearsonr sigs (drug, ids) → drug_name s = drug.
Proof.
  unfold group_stats. case_bool_decide;
    intros (inst & -> & _)%list_elem_of_fmap; done.
Qed.

(** A record without statistics comes from a group with at most one
    instance in the signature matrix. *)
Lemma group_stats_nan_only_unscored (sigs : sig_matrix) (drug : string)
    (ids : list string) (s : stat_row) :
  s ∈ group_stats pearsonr sigs (drug, ids) → r s = None →
  length (List.filter (in_columns sigs) ids) ≤ 1.
Proof.
  unfold group_stats. case_bool_decide as Hk; [done|].
  intros (inst & -> & _)%list_elem_of_fmap. simpl. intros Hr.
  destruct (pearson_or_default_notna
              (default [] (get_column sigs inst))
              (peer_consensus
                 (sum_axis1 (omap (get_column sigs)
                               (List.filter (in_columns sigs) ids)))
                 (default [] (get_column sigs inst))
                 (length (List.filter (in_columns sigs) ids)))) as [rv Hrv].
  congruence.
Qed.

(** C7. On a signature matrix with distinct column labels and a metadata
    table with distinct ids (so that no group makes line 190 raise), every
    experiment of a group with at most one instance in the signature matrix
    -- a singleton group in particular -- is recorded with NaN r and p and
    no peer, and whatever the filter mode and the threshold its row of the
    frame has valid = 0, whether the filter returns or raises. *)
Theorem singleton_groups_are_unscored_and_invalid
    (sigs : sig_matrix) (metadata : list meta_row) (drug : string)
    (ids : list string) (mode : string) (threshold : Qc) :
  NoDup sigs.*1 → NoDup (meta_id <$> metadata) →
  (drug, ids) ∈ drug_groups metadata →
  length (List.filter (in_columns sigs) ids) ≤ 1 →
  group_stats pearsonr sigs (drug, ids) =
    (λ inst, mkStat inst drug None None 0) <$> ids
  ∧ (∀ inst, inst ∈ ids →
       mkVerdict (mkStat inst drug None None 0) 0
         ∈ frame_of (apply_filters (calculate_raw_stats pearsonr sigs metadata)
                       mode threshold))
  ∧ (∀ row,
       row ∈ frame_of (apply_filters (calculate_raw_stats pearsonr sigs metadata)
                         mode threshold) →
       drug_name (stats row) = drug →
       r (stats row) = None ∧ p (stats row) = None
       ∧ num_peers (stats row) = 0%Z ∧ valid row = 0%Z).
Proof.
  intros _ _ Hgroup Hk.
  pose proof (group_stats_unscored sigs drug ids Hk) as Hrec.
  pose proof (apply_filters_kept (calculate_raw_stats pearsonr sigs metadata)
                mode threshold) as Hkept.
  split; [done|]. split.
  - intros inst Hinst.
    assert (mkStat inst drug None None 0
              ∈ calculate_raw_stats pearsonr sigs metadata) as Hin.
    { apply elem_of_calculate_raw_stats. exists (drug, ids). split; [done|].
      rewrite Hrec.
      by apply (list_elem_of_fmap_2 (λ inst, mkStat inst drug None None 0)). }
    apply list_elem_of_lookup in Hin as [i Hi].
    destruct (Forall2_lookup_l _ _ _ _ _ Hkept Hi) as ([s v] & Hrow & Hs & Hv).
    simpl in *. subst s. rewrite Hv in Hrow by done.
    eapply list_elem_of_lookup_2. exact Hrow.
  - intros row [i Hi]%list_elem_of_lookup Hdrug.
    destruct (Forall2_lookup_r _ _ _ _ _ Hkept Hi) as (s & Hs & Hstats & Hv).
    subst s. apply list_elem_of_lookup_2 in Hs.
    apply elem_of_calculate_raw_stats in Hs as ([d ids'] & Hg & Hs).
    pose proof (group_stats_drug_name _ _ _ _ Hs) as Hd.
    rewrite Hdrug in Hd. subst d.
    apply elem_of_drug_groups in Hg, Hgroup. subst ids' ids.
    rewrite Hrec in Hs. apply list_elem_of_fmap in Hs as (inst & Hrow & _).
    rewrite Hrow in Hv |- *. simpl. auto.
Qed.

(** *** Groups of two *)

Lemma Qc_of_nat_1 : Qc_of_nat 1 = 1%Qc.
Proof. apply Qc_is_canon. reflexivity. Qed.

Lemma vec_div_1 (v : list Qc) : vec_div v 1%Qc = v.
Proof.
  unfold vec_div. induction v as [|x v IH]; [done|].
  rewrite fmap_cons, IH. f_equal. apply (right_id 1%Qc Qcdiv).
Qed.

(** With two members, the peer consensus of each is the other. *)
Lemma peer_consensus_two (va vb : list Qc) :
  length va = length vb →
  peer_consensus (sum_axis1 [va; vb]) va 2 = vb
  ∧ peer_consensus (sum_axis1 [va; vb]) vb 2 = va.
Proof.
  intros Hlen.
  assert (Forall (λ u, length u = length va) [va; vb]) as Hall
    by (repeat constructor; done).
  unfold peer_consensus. change (2 - 1) with 1. rewrite Qc_of_nat_1. split.
  - rewrite (peer_sum_is_sum_of_peers [va; vb] (length va) 0 va);
      [apply vec_div_1|simpl; lia|done|done].
  - rewrite (peer_sum_is_sum_of_peers [va; vb] (length va) 1 vb);
      [apply vec_div_1|simpl; lia|done|done].
Qed.

(** C10. On a signature matrix with distinct column labels, a group with
    exactly two distinct instances a and b in the matrix is scored: it gets
    two records, one per instance, each with one peer. The record of a holds
    the r and p that [pearsonr] returns for the vector of a against the
    vector of b -- the single peer is the consensus -- and r = 0, p = 1 when
    [pearsonr] raises ValueError or returns a NaN r; the record of b
    likewise, with the vectors swapped. r is never NaN in these records; the
    filter marks such a record valid exactly when its r and p pass the
    threshold, as for any larger group; and a record without statistics can
    only come from a group with at most one instance in the matrix. *)
Theorem two_instance_groups_are_scored
    (sigs : sig_matrix) (drug : string) (ids : list string)
    (a b : string) (va vb : list Qc) :
  NoDup sigs.*1 →
  List.filter (in_columns sigs) ids = [a; b] → a ≠ b →
  get_column sigs a = Some va → get_column sigs b = Some vb →
  length va = length vb →
  length (group_stats pearsonr sigs (drug, ids)) = 2
  ∧ (∀ rv pv, pearsonr va vb = Some (Some rv, pv) →
       group_stats pearsonr sigs (drug, ids) !! 0 =
         Some (mkStat a drug (Some rv) pv 1))
  ∧ (pearsonr va vb = None ∨ (∃ pv, pearsonr va vb = Some (None, pv)) →
       group_stats pearsonr sigs (drug, ids) !! 0 =
         Some (mkStat a drug (Some 0%Qc) (Some 1%Qc) 1))
  ∧ (∀ rv pv, pearsonr vb va = Some (Some rv, pv) →
       group_stats pearsonr sigs (drug, ids) !! 1 =
         Some (mkStat b drug (Some rv) pv 1))
  ∧ (pearsonr vb va = None ∨ (∃ pv, pearsonr vb va = Some (None, pv)) →
       group_stats pearsonr sigs (drug, ids) !! 1 =
         Some (mkStat b drug (Some 0%Qc) (Some 1%Qc) 1))
  ∧ Forall (λ s, is_Some (r s) ∧ num_peers s = 1%Z)
      (group_stats pearsonr sigs (drug, ids))
  ∧ (∀ threshold,
       valid <$> frame_of (apply_filters (group_stats pearsonr sigs (drug, ids))
                             "pvalue" threshold)
       = (λ s, if cell_lt (p s) threshold && cell_gt (r s) 0 then 1 else 0)%Z
           <$> group_stats pearsonr sigs (drug, ids))
  ∧ (∀ threshold,
       valid <$> frame_of (apply_filters (group_stats pearsonr sigs (drug, ids))
                             "rvalue" threshold)
       = (λ s, if cell_gt (r s) threshold then 1 else 0)%Z
           <$> group_stats pearsonr sigs (drug, ids))
  ∧ (∀ drug' ids' s,
       s ∈ group_stats pearsonr sigs (drug', ids') → r s = None →
       length (List.filter (in_columns sigs) ids') ≤ 1).
Proof.
  intros _ Hids _ Ha Hb Hlen.
  destruct (peer_consensus_two va vb Hlen) as [Hca Hcb].
  assert (group_stats pearsonr sigs (drug, ids) =
    [mkStat a drug (pearson_or_default pearsonr va vb).1
                   (pearson_or_default pearsonr va vb).2 1;
     mkStat b drug (pearson_or_default pearsonr vb va).1
                   (pearson_or_default pearsonr vb va).2 1]) as Hrec.
  { unfold group_stats. rewrite Hids. cbn [length].
    rewrite bool_decide_eq_false_2 by lia.
    cbn [omap list_omap fmap list_fmap]. rewrite Ha, Hb. cbn [default].
    unfold id. by rewrite Hca, Hcb. }
  split; [by rewrite Hrec|].
  split; [|split; [|split; [|split; [|split; [|split; [|split]]]]]].
  - intros rv pv Hr. rewrite Hrec. unfold pearson_or_default.
    by rewrite Hr.
  - intros Hr. rewrite Hrec. unfold pearson_or_default.
    by destruct Hr as [->|[pv ->]].
  - intros rv pv Hr. rewrite Hrec. unfold pearson_or_default.
    by rewrite Hr.
  - intros Hr. rewrite Hrec. unfold pearson_or_default.
    by destruct Hr as [->|[pv ->]].
  - rewrite Hrec. repeat constructor; simpl; apply pearson_or_default_notna.
  - intros threshold. rewrite pvalue_mode_verdicts, <-list_fmap_compose. done.
  - intros threshold. rewrite rvalue_mode_verdicts, <-list_fmap_compose. done.
  - apply group_stats_nan_only_unscored.
Qed.

End ValidatorFacts.

(** The witness of C7: the singleton drug of the replicate scenario, in
    percentile mode. *)
Lemma singleton_group_witness :
  NoDup replicate_sigs.*1
  ∧ NoDup (meta_id <$> replicate_metadata)
  ∧ ("drugB", ["e3"]) ∈ drug_groups replicate_metadata
  ∧ length (List.filter (in_columns replicate_sigs) ["e3"]) ≤ 1
  ∧ mkVerdict (mkStat "e3" "drugB" None None 0) 0
      ∈ frame_of
          (apply_filters
             (calculate_raw_stats pearsonr_two_genes replicate_sigs
                replicate_metadata)
             "percentile" (Qc_of_Z 50)).
Proof.
  assert (NoDup replicate_sigs.*1) as Hsigs by compute_done.
  assert (NoDup (meta_id <$> replicate_metadata)) as Hmeta by compute_done.
  assert (("drugB", ["e3"]) ∈ drug_groups replicate_metadata) as Hg
    by compute_done.
  assert (length (List.filter (in_columns replicate_sigs) ["e3"]) ≤ 1) as Hk
    by (vm_compute; lia).
  split; [exact Hsigs|]. split; [exact Hmeta|].
  split; [exact Hg|]. split; [exact Hk|].
  refine (proj1 (proj2 (singleton_groups_are_unscored_and_invalid
            pearsonr_two_genes replicate_sigs replicate_metadata
            "drugB" ["e3"] "percentile" (Qc_of_Z 50) Hsigs Hmeta Hg Hk))
            "e3" _).
  by left.
Defined.

(** The witness of C10: the drug with two replicates of the replicate
    scenario, whose two rank vectors agree. Each is recorded with r = 1 and
    p = 1 against the other, and both are marked valid in r-value mode at
    0.2. *)
Lemma two_instance_group_witness :
  NoDup replicate_sigs.*1
  ∧ List.filter (in_columns replicate_sigs) ["e1"; "e2"] = ["e1"; "e2"]
  ∧ "e1" ≠ "e2"
  ∧ get_column replicate_sigs "e1" = Some [Qc_of_Z 1; Qc_of_Z 2]
  ∧ get_column replicate_sigs "e2" = Some [Qc_of_Z 1; Qc_of_Z 2]
  ∧ group_stats pearsonr_two_genes replicate_sigs ("drugA", ["e1"; "e2"]) !! 0
    = Some (mkStat "e1" "drugA" (Some 1%Qc) (Some 1%Qc) 1)
  ∧ group_stats pearsonr_two_genes replicate_sigs ("drugA", ["e1"; "e2"]) !! 1
    = Some (mkStat "e2" "drugA" (Some 1%Qc) (Some 1%Qc) 1)
  ∧ valid <$> frame_of
                (apply_filters
                   (group_stats pearsonr_two_genes replicate_sigs
                      ("drugA", ["e1"; "e2"]))
                   "rvalue" (Q2Qc (2 # 10)))
    = [1; 1]%Z.
Proof.
  assert (NoDup replicate_sigs.*1) as Hsigs by compute_done.
  assert (List.filter (in_columns replicate_sigs) ["e1"; "e2"] = ["e1"; "e2"])
    as Hids by reflexivity.
  assert ("e1" ≠ "e2") as Hne by discriminate.
  assert (pearsonr_two_genes [Qc_of_Z 1; Qc_of_Z 2] [Qc_of_Z 1; Qc_of_Z 2]
          = Some (Some 1%Qc, Some 1%Qc)) as Hr by compute_done.
  split; [exact Hsigs|]. split; [exact Hids|]. split; [exact Hne|].
  split; [reflexivity|]. split; [reflexivity|].
  destruct (two_instance_groups_are_scored pearsonr_two_genes replicate_sigs
              "drugA" ["e1"; "e2"] "e1" "e2"
              [Qc_of_Z 1; Qc_of_Z 2] [Qc_of_Z 1; Qc_of_Z 2]
              Hsigs Hids Hne eq_refl eq_refl eq_refl)
    as (_ & Ha & _ & Hb & _ & _ & _ & Hrv & _).
  split; [exact (Ha _ _ Hr)|]. split; [exact (Hb _ _ Hr)|].
  rewrite Hrv. compute_done.
Defined.

(** ** ParallelExtractionCoordinator *)

Section ExtractionFacts.

Context {A : Type}.

Lemma split_sizes_concat {B} (sizes : list nat) (ary : list B) :
  length ary ≤ foldr Nat.add 0 sizes → concat (split_sizes sizes ary) = ary.
Proof.
  revert ary. induction sizes as [|size sizes IH]; intros ary Hlen; simpl in *.
  - symmetry. apply nil_length_inv. lia.
  - rewrite IH by (rewrite length_drop; lia). apply take_drop.
Qed.

Lemma split_sizes_lengths {B} (sizes : list nat) (ary : list B) :
  foldr Nat.add 0 sizes ≤ length ary →
  length <$> split_sizes sizes ary = sizes.
Proof.
  revert ary. induction sizes as [|size sizes IH]; intros ary Hlen; simpl in *.
  - done.
  - rewrite IH by (rewrite length_drop; lia).
    rewrite length_take. f_equal. lia.
Qed.

Lemma sum_replicate (k x : nat) : foldr Nat.add 0 (replicate k x) = k * x.
Proof. induction k as [|k IH]; simpl; [done|]. rewrite IH. lia. Qed.

Lemma foldr_add_app (l k : list nat) :
  foldr Nat.add 0 (l ++ k) = foldr Nat.add 0 l + foldr Nat.add 0 k.
Proof. induction l as [|x l IH]; simpl; [done|]. rewrite IH. lia. Qed.

Lemma array_split_sizes_sum (len n : nat) :
  0 < n →
  foldr Nat.add 0 (replicate (len mod n) (S (len / n))
                     ++ replicate (n - len mod n) (len / n)) = len.
Proof.
  intros Hn. rewrite foldr_add_app, !sum_replicate.
  pose proof (Nat.div_mod len n) as Hdm.
  pose proof (Nat.mod_upper_bound len n). nia.
Qed.

(** X1. For a positive number of sections, [np.array_split] cuts an array
    into exactly [sections] consecutive pieces that put back together give
    the array, every piece of [len // sections] or [len // sections + 1]
    entries, the longer ones first. *)
Theorem array_split_partitions (ary : list A) (sections : Z) :
  (0 < sections)%Z →
  ∃ chunks,
    array_split ary sections = Some chunks
    ∧ concat chunks = ary
    ∧ length chunks = Z.to_nat sections
    ∧ Forall (λ c, length ary / Z.to_nat sections ≤ length c
                    ≤ length ary / Z.to_nat sections + 1) chunks
    ∧ StronglySorted ge (length <$> chunks).
Proof.
  unfold array_split.
  - intros Hpos. rewrite bool_decide_eq_false_2 by lia.
    set (n := Z.to_nat sections). assert (0 < n) as Hn by lia.
    set (sizes := replicate (length ary mod n) (S (length ary / n))
                    ++ replicate (n - length ary mod n) (length ary / n)).
    pose proof (array_split_sizes_sum (length ary) n Hn) as Hsum.
    fold sizes in Hsum.
    pose proof (split_sizes_lengths sizes ary ltac:(lia)) as Hlens.
    eexists. split; [done|]. split; [apply split_sizes_concat; lia|].
    split; [|split].
    + rewrite <-(length_fmap length), Hlens. unfold sizes.
      rewrite length_app, !length_replicate.
      pose proof (Nat.mod_upper_bound (length ary) n). lia.
    + apply Forall_fmap with (f := length) (P := λ k, _ ≤ k ≤ _).
      rewrite Hlens. unfold sizes. apply Forall_app.
      split; apply Forall_replicate; lia.
    + rewrite Hlens. unfold sizes. apply StronglySorted_app_2.
      * intros x1 x2 [-> _]%elem_of_replicate [-> _]%elem_of_replicate.
        unfold ge. lia.
      * generalize (length ary mod n). intros k.
        induction k; simpl; constructor; [done|].
        apply Forall_replicate. unfold ge. lia.
      * generalize (n - length ary mod n). intros k.
        induction k; simpl; constructor; [done|].
        apply Forall_replicate. unfold ge. lia.
Qed.

Lemma process_h5_chunk_rows (cols : list Z) (block_full : list (list A)) :
  process_h5_chunk cols block_full = mapM (λ row, take_idx row cols) block_full.
Proof.
  unfold process_h5_chunk. destruct (take_argsort cols) as (s & Hs & _).
  unfold col_sorted, col_order. rewrite Hs. simpl.
  apply mapM_ext. intros row. by apply reorder_row_ok.
Qed.

Lemma mapM_concat {B C} (f : B → option C) (ls : list (list B)) :
  mapM f (concat ls) = (λ parts, concat parts) <$> mapM (mapM f) ls.
Proof.
  induction ls as [|l ls IH]; [done|]. simpl.
  induction l as [|x l IHl]; simpl.
  - rewrite IH. by destruct (mapM (mapM f) ls).
  - rewrite IHl. destruct (f x); simpl; [|done].
    destruct (mapM f l); simpl; [|done].
    by destruct (mapM (mapM f) ls).
Qed.

Lemma mapM_cons_eq {B C} (f : B → option C) (x : B) (l : list B) :
  mapM f (x :: l) = y ← f x; k ← mapM f l; Some (y :: k).
Proof. done. Qed.

Lemma mapM_zip_bind {B C D E} (f : B → option C) (h : C → option D)
    (k : B → E) (l : list B) :
  (b ← mapM f l; c ← mapM h b; Some (zip (k <$> l) c))
  = mapM (λ r, x ← f r; y ← h x; Some (k r, y)) l.
Proof.
  induction l as [|r l IH]; [done|].
  rewrite !mapM_cons_eq, <-IH. destruct (f r) as [x|]; simpl; [|done].
  destruct (mapM f l) as [b|]; simpl.
  - destruct (h x); simpl; [|done]. by destruct (mapM h b).
  - by destruct (h x).
Qed.

(** A worker does for its chunk what reading its rows one by one does. *)
Lemma h5_chunk_batch_rows (node : list (list A)) (names : list string)
    (cols : list Z) (chunk : list Z) :
  length names = length cols →
  h5_chunk_batch node names cols chunk = mapM (extract_row node cols) chunk.
Proof.
  intros Hschema. unfold h5_chunk_batch, read_rows, extract_row.
  rewrite bool_decide_eq_true_2 by done.
  rewrite <-mapM_zip_bind.
  destruct (mapM (get_item node) chunk); simpl; [|done].
  by rewrite process_h5_chunk_rows.
Qed.

(** X2. With a positive number of workers and a schema that names every
    kept column, the parallel extraction writes what reading the sorted
    experiments one after the other gives -- for each the id and the kept
    columns in the requested order -- and it fails exactly when one of the
    requested experiments cannot be read that way. *)
Theorem part1_extract_is_row_by_row (node : list (list A))
    (names : list string) (cols rows : list Z) (n_cores : Z) :
  (0 < n_cores)%Z → length names = length cols →
  part1_extract node names cols rows n_cores =
    mapM (extract_row node cols) (merge_sort Z.le rows)
  ∧ (is_Some (part1_extract node names cols rows n_cores) ↔
       Forall (λ r, is_Some (extract_row node cols r)) rows)
  ∧ ∀ table, part1_extract node names cols rows n_cores = Some table →
      table.*1 = astype_int32 <$> merge_sort Z.le rows
      ∧ length table = length rows.
Proof.
  intros Hcores Hschema.
  assert (part1_extract node names cols rows n_cores =
            mapM (extract_row node cols) (merge_sort Z.le rows)) as Heq.
  { unfold part1_extract, array_split.
    rewrite bool_decide_eq_false_2 by lia. simpl.
    set (chunks := split_sizes _ _).
    assert (concat chunks = merge_sort Z.le rows) as Hcat.
    { unfold chunks. apply split_sizes_concat.
      rewrite array_split_sizes_sum by lia. done. }
    rewrite <-Hcat, mapM_concat.
    rewrite (mapM_ext _ (mapM (extract_row node cols)))
      by (intros; by apply h5_chunk_batch_rows).
    by destruct (mapM _ chunks). }
  split; [done|]. rewrite Heq. split.
  - rewrite mapM_is_Some. by rewrite merge_sort_Permutation.
  - intros table Htable. apply mapM_Some in Htable. clear Heq. split.
    + revert Htable. generalize (merge_sort Z.le rows). intros l Htable.
      induction Htable as [|r [k v] l t Hr _ IH]; [done|].
      rewrite !fmap_cons, IH. f_equal. unfold extract_row in Hr.
      destruct (get_item node r); simpl in Hr; [|done].
      destruct (take_idx _ cols); simpl in Hr; by simplify_eq.
    + rewrite <-(Forall2_length _ _ _ Htable).
      apply Permutation_length, merge_sort_Permutation.
Qed.

End ExtractionFacts.

(** ** SignificanceGate and the column plan *)

Section GateFacts.

Lemma length_any_significant (n : nat) (chunk : list (list cell)) (t : Qc) :
  length (any_significant n chunk t) = n.
Proof. unfold any_significant. by rewrite length_fmap, length_seq. Qed.

Lemma any_significant_app (n : nat) (c1 c2 : list (list cell)) (t : Qc) :
  any_significant n (c1 ++ c2) t =
    zip_with orb (any_significant n c1 t) (any_significant n c2 t).
Proof.
  unfold any_significant. induction (seq 0 n) as [|j js IH]; [done|].
  csimpl. rewrite IH. f_equal. apply existsb_app.
Qed.

Lemma any_significant_nil (n : nat) (t : Qc) :
  any_significant n [] t = replicate n false.
Proof.
  unfold any_significant. simpl. generalize 0.
  induction n as [|n IH]; intros s; simpl; [done|]. by rewrite IH.
Qed.

Lemma zip_with_orb_assoc (a b c : list bool) :
  zip_with orb (zip_with orb a b) c = zip_with orb a (zip_with orb b c).
Proof.
  revert b c. induction a as [|x a IH]; intros [|y b] [|z c]; try done.
  simpl. by rewrite orb_assoc, IH.
Qed.

Lemma zip_with_orb_false_l (n : nat) (a : list bool) :
  length a = n → zip_with orb (replicate n false) a = a.
Proof.
  revert a. induction n as [|n IH]; intros [|x a] Hlen; simplify_eq/=; [done|].
  by rewrite IH.
Qed.

Lemma zip_with_orb_all_l (a b : list bool) :
  forallb id a = true → length b = length a → zip_with orb a b = a.
Proof.
  revert b. induction a as [|x a IH]; intros [|y b] Hall Hlen;
    simplify_eq/=; [done|].
  apply andb_true_iff in Hall as [Hx Ha]. unfold id in Hx. subst x.
  by rewrite IH.
Qed.

(** The loop, early exit included, adds to the flags the significance over
    all the chunks still to read. *)
Lemma significance_loop_spec (starts : list nat) (size : nat)
    (node : h5_array) (t : Qc) (flags : list bool) :
  length flags = h5_cols node →
  significance_loop starts size node t flags =
    zip_with orb flags
      (any_significant (h5_cols node)
         (concat ((λ start, take size (drop start (h5_rows node))) <$> starts)) t).
Proof.
  revert flags. induction starts as [|start starts IH]; intros flags Hlen.
  - simpl. rewrite any_significant_nil. clear -Hlen.
    revert flags Hlen. induction (h5_cols node) as [|n IH];
      intros [|x flags] Hlen; simplify_eq/=; [done|].
    by rewrite orb_false_r, <-IH.
  - cbn [significance_loop fmap list_fmap concat].
    assert (row_slice (h5_rows node) start
              (Nat.min (start + size) (length (h5_rows node)))
            = take size (drop start (h5_rows node))) as ->.
    { unfold row_slice.
      destruct (decide (start + size ≤ length (h5_rows node))) as [Hle|Hgt].
      - rewrite Nat.min_l by done. f_equal. lia.
      - rewrite Nat.min_r by lia.
        rewrite !take_ge; [done| |]; rewrite length_drop; lia. }
    rewrite any_significant_app, <-zip_with_orb_assoc.
    set (flags' := zip_with orb flags _).
    assert (length flags' = h5_cols node) as Hlen'.
    { unfold flags'. rewrite length_zip_with, length_any_significant. lia. }
    destruct (forallb id flags') eqn:Hall.
    + symmetry. apply zip_with_orb_all_l; [done|].
      by rewrite length_any_significant.
    + by apply IH.
Qed.

Lemma column_significant_spec (rows : list (list cell)) (t : Qc) (j : nat) :
  column_significant rows t j = true ↔
    ∃ row x, row ∈ rows ∧ row !! j = Some (Some x) ∧ (x ≤ t)%Qc.
Proof.
  unfold column_significant. rewrite existsb_exists. split.
  - intros (row & Hin & Hle). apply list_elem_of_In in Hin.
    destruct (row !! j) as [[x|]|] eqn:Hj; simpl in Hle; try done.
    apply bool_decide_eq_true in Hle. by exists row, x.
  - intros (row & x & Hin & Hj & Hle). exists row. split.
    + by apply list_elem_of_In.
    + rewrite Hj. simpl. by apply bool_decide_eq_true.
Qed.

Lemma significant_genes_any (node : h5_array) (t : Qc) (size : nat) :
  0 < size →
  significant_genes node t size =
    any_significant (h5_cols node) (h5_rows node) t.
Proof.
  intros Hsize. unfold significant_genes.
  rewrite significance_loop_spec by apply length_replicate.
  unfold py_range. rewrite concat_chunks by by apply py_range_covers.
  apply zip_with_orb_false_l, length_any_significant.
Qed.

(** X3. The significance gate reads the adjusted p-values in blocks of rows
    and stops as soon as every gene is flagged; for any positive block size
    this flags exactly the genes that a single pass over all the rows
    flags: gene [j] is kept if and only if some experiment has a value that
    is not NaN and at most the threshold in column [j]. *)
Theorem significance_gate_is_any_row (node : h5_array) (t : Qc) (size : nat) :
  0 < size →
  significant_genes node t size =
    any_significant (h5_cols node) (h5_rows node) t
  ∧ length (significant_genes node t size) = h5_cols node
  ∧ ∀ j, j < h5_cols node →
      (significant_genes node t size !! j = Some true ↔
         ∃ row x, row ∈ h5_rows node ∧ row !! j = Some (Some x) ∧ (x ≤ t)%Qc).
Proof.
  intros Hsize. rewrite significant_genes_any by done.
  split; [done|]. split; [apply length_any_significant|].
  intros j Hj. unfold any_significant.
  rewrite list_lookup_fmap, lookup_seq_lt by done. simpl.
  rewrite <-column_significant_spec. split; [by intros [= ->]|by intros ->].
Qed.

#[local] Instance idx_le_total : Total idx_le.
Proof. intros a b. unfold idx_le. lia. Qed.

Lemma sort_by_idx_Permutation (genes : list gene_row) :
  sort_by_idx genes ≡ₚ genes.
Proof. apply merge_sort_Permutation. Qed.

Lemma sort_by_idx_sorted (genes : list gene_row) :
  Sorted Z.le (gene_idx <$> sort_by_idx genes).
Proof.
  eapply Sorted_fmap; [|apply (Sorted_merge_sort idx_le)]. done.
Qed.

Lemma sorted_unique_idx_keys (genes : list gene_row) :
  sorted_unique_idx genes = group_keys (gene_idx <$> genes).
Proof. done. Qed.

(** With one row per gene index, the sorted unique indices are the index
    column of the table sorted by index. *)
Lemma sorted_unique_idx_sort (genes : list gene_row) :
  NoDup (gene_idx <$> genes) →
  sorted_unique_idx genes = gene_idx <$> sort_by_idx genes.
Proof.
  intros Hnd. apply (Sorted_unique Z.le).
  - apply (Sorted_merge_sort Z.le).
  - apply sort_by_idx_sorted.
  - unfold sorted_unique_idx. rewrite merge_sort_Permutation.
    rewrite sort_by_idx_Permutation. apply NoDup_Permutation.
    + apply NoDup_remove_dups.
    + done.
    + intros i. apply elem_of_remove_dups.
Qed.

Lemma Sorted_lt_of_le (l : list Z) : Sorted Z.le l → NoDup l → Sorted Z.lt l.
Proof.
  intros Hs%(Sorted_StronglySorted _) Hnd. apply StronglySorted_Sorted.
  induction Hs as [|x l Hs IH Hall]; [constructor|].
  apply NoDup_cons in Hnd as [Hx Hnd]. constructor; [by apply IH|].
  apply Forall_forall. intros y Hy.
  rewrite Forall_forall in Hall. specialize (Hall y Hy).
  assert (x ≠ y) by (intros ->; done). lia.
Qed.

Lemma NoDup_fmap_filter {B C} (f : B → C) (P : B → Prop)
    `{!∀ x, Decision (P x)} (l : list B) :
  NoDup (f <$> l) → NoDup (f <$> filter P l).
Proof.
  induction l as [|x l IH]; [done|]. csimpl. intros [Hx Hnd]%NoDup_cons.
  rewrite filter_cons. destruct (decide (P x)); csimpl; [|by apply IH].
  apply NoDup_cons. split; [|by apply IH].
  intros (y & Hy & Hin%list_elem_of_filter)%list_elem_of_fmap.
  apply Hx. apply list_elem_of_fmap. exists y. split; [done|]. by destruct Hin.
Qed.

Lemma mask_select_fmap {B C} (g : B → C) (f : B → bool) (l : list B) :
  mask_select (g <$> l) (f <$> l) = g <$> filter (λ x, f x = true) l.
Proof.
  unfold mask_select. induction l as [|x l IH]; [done|]. csimpl.
  rewrite !filter_cons. simpl. destruct (decide (f x = true)); csimpl;
    by rewrite IH.
Qed.

Lemma mask_select_elem_of {B} (array : list B) (mask : list bool) (x : B) :
  x ∈ mask_select array mask → x ∈ array.
Proof.
  unfold mask_select. intros ([b y] & -> & Hin)%list_elem_of_fmap.
  apply list_elem_of_filter in Hin as [_ Hin]. simpl.
  apply list_elem_of_lookup in Hin as [i Hi].
  apply lookup_zip_with_Some in Hi as (b' & y' & [= <- <-] & _ & Hy).
  by apply list_elem_of_lookup_2 in Hy.
Qed.

(** What the plan is made from when the function gets as far as the check
    of line 331: the genes that survive the gate. *)
Lemma part1_column_plan_Ok (enable : bool) (padj : option h5_array) (t : Qc)
    (genes : list gene_row) (plan : column_plan) :
  part1_column_plan enable padj t genes = Ok plan →
  ∃ kept : list gene_row,
    kept ⊆ genes
    ∧ (NoDup (gene_idx <$> genes) → NoDup (gene_idx <$> kept))
    ∧ sorted_unique_idx kept ≠ []
    ∧ plan = mkPlan (sorted_unique_idx kept) (gene_name <$> sort_by_idx kept).
Proof.
  unfold part1_column_plan. destruct enable; [destruct padj as [node|]|].
  - case_bool_decide; [done|]. case_bool_decide as Hlen; [done|].
    intros [= <-]. eexists. split_and!; [| | |done].
    + intros g Hg%list_elem_of_filter. tauto.
    + apply NoDup_fmap_filter.
    + intros Hnil. apply Hlen. by rewrite Hnil.
  - done.
  - case_bool_decide as Hlen; [done|]. intros [= <-].
    exists genes. split_and!; [done|done| |done].
    intros Hnil. apply Hlen. by rewrite Hnil.
Qed.

(** X4. How the column plan ends. It raises UnboundLocalError exactly when
    the significance filter is on and the store has no table of adjusted
    p-values (the announced fallback to all genes is never reached), and
    ValueError exactly when the filter is on and that table's width differs
    from the number of gene rows; and a plan it returns is never empty: the
    kept column indices are strictly ascending indices of gene rows. *)
Theorem part1_column_plan_outcomes (enable : bool) (padj : option h5_array)
    (t : Qc) (genes : list gene_row) :
  (part1_column_plan enable padj t genes = Raise UnboundLocalError ↔
     enable = true ∧ padj = None)
  ∧ (part1_column_plan enable padj t genes = Raise ValueError ↔
       enable = true ∧ ∃ node, padj = Some node ∧ h5_cols node ≠ length genes)
  ∧ (∀ plan, part1_column_plan enable padj t genes = Ok plan →
       plan_idx plan ≠ []
       ∧ Sorted Z.lt (plan_idx plan)
       ∧ ∀ i, i ∈ plan_idx plan → ∃ g, g ∈ genes ∧ gene_idx g = i).
Proof.
  split_and!.
  - unfold part1_column_plan. destruct enable; [destruct padj as [node|]|].
    + repeat case_bool_decide; (split; [done|by intros [_ ?]]).
    + done.
    + case_bool_decide; (split; [done|by intros [? _]]).
  - unfold part1_column_plan. destruct enable; [destruct padj as [node|]|].
    + case_bool_decide as Hw.
      * split; [|done]. intros _. split; [done|]. by exists node.
      * case_bool_decide; (split; [done|]);
          intros (_ & node' & [= <-] & Hne); by destruct Hne.
    + split; [done|]. by intros (_ & node & ? & _).
    + case_bool_decide; (split; [done|by intros [? _]]).
  - intros plan (kept & Hsub & _ & Hne & ->)%part1_column_plan_Ok. simpl.
    split_and!; [done| |].
    + rewrite sorted_unique_idx_keys.
      apply Sorted_lt_of_le; [apply Sorted_group_keys|apply NoDup_group_keys].
    + intros i. rewrite sorted_unique_idx_keys, elem_of_group_keys.
      intros (g & -> & Hg)%list_elem_of_fmap. exists g. split; [|done].
      by apply Hsub.
Qed.

(** X5. When every gene row has its own column index, a returned plan is
    aligned: it has as many names as indices, and the name at each position
    is the name of the gene row whose index is at that position. *)
Theorem part1_column_plan_names_follow_indices (enable : bool)
    (padj : option h5_array) (t : Qc) (genes : list gene_row)
    (plan : column_plan) :
  NoDup (gene_idx <$> genes) →
  part1_column_plan enable padj t genes = Ok plan →
  length (plan_names plan) = length (plan_idx plan)
  ∧ ∀ k i, plan_idx plan !! k = Some i →
      ∃ g, g ∈ genes ∧ gene_idx g = i ∧ plan_names plan !! k = Some (gene_name g).
Proof.
  intros Hnd (kept & Hsub & Hnd' & _ & ->)%part1_column_plan_Ok. simpl.
  rewrite sorted_unique_idx_sort by by apply Hnd'.
  split; [by rewrite !length_fmap|].
  intros k i Hk. rewrite list_lookup_fmap in Hk.
  destruct (sort_by_idx kept !! k) as [g|] eqn:Hg; [|done].
  injection Hk as <-. exists g. split_and!; [|done|].
  - apply Hsub. rewrite <-(sort_by_idx_Permutation kept).
    by eapply list_elem_of_lookup_2.
  - by rewrite list_lookup_fmap, Hg.
Qed.

Lemma Sorted_filter_seq (P : nat → Prop) `{!∀ x, Decision (P x)} (s n : nat) :
  Sorted Z.le (Z.of_nat <$> filter P (seq s n)).
Proof.
  apply StronglySorted_Sorted. revert s. induction n as [|n IH]; intros s.
  - constructor.
  - simpl. rewrite filter_cons. destruct (decide (P s)); [|apply IH].
    csimpl. constructor; [apply IH|].
    apply Forall_forall. intros i (j & -> & Hj)%list_elem_of_fmap.
    apply list_elem_of_filter in Hj as [_ Hj]. apply elem_of_seq in Hj. lia.
Qed.

(** The kept column indices when the gene table lists the columns
    [0 .. n-1] of the store, one row each. *)
Lemma kept_indices_are_significant (node : h5_array) (t : Qc)
    (genes : list gene_row) :
  gene_idx <$> genes ≡ₚ arange (length genes) →
  h5_cols node = length genes →
  sorted_unique_idx
    (filter (λ g, gene_idx g ∈
               mask_select (gene_idx <$> sort_by_idx genes)
                 (significant_genes node t P_VALUE_CHUNK_SIZE)) genes)
  = Z.of_nat <$> filter (λ j, column_significant (h5_rows node) t j = true)
                   (seq 0 (length genes)).
Proof.
  intros Hperm Hcols.
  assert (NoDup (gene_idx <$> genes)) as Hnd.
  { rewrite Hperm. unfold arange. apply NoDup_fmap; [apply _|apply NoDup_seq]. }
  assert (gene_idx <$> sort_by_idx genes = arange (length genes)) as ->.
  { apply (Sorted_unique Z.le);
      [apply sort_by_idx_sorted|apply arange_sorted|].
    by rewrite sort_by_idx_Permutation. }
  rewrite significant_genes_any by (unfold P_VALUE_CHUNK_SIZE; lia).
  unfold any_significant, arange. rewrite Hcols, mask_select_fmap.
  set (kept := Z.of_nat <$> filter _ _).
  assert (∀ i, i ∈ kept → i ∈ gene_idx <$> genes) as Hkept.
  { intros i (j & -> & Hj)%list_elem_of_fmap. rewrite Hperm.
    apply list_elem_of_filter in Hj as [_ Hj].
    unfold arange. by apply list_elem_of_fmap_2. }
  apply (Sorted_unique Z.le).
  - apply (Sorted_merge_sort Z.le).
  - apply Sorted_filter_seq.
  - unfold sorted_unique_idx. rewrite merge_sort_Permutation.
    apply NoDup_Permutation.
    + apply NoDup_remove_dups.
    + apply NoDup_fmap; [apply _|]. apply NoDup_filter, NoDup_seq.
    + intros i. rewrite elem_of_remove_dups, list_elem_of_fmap. split.
      * intros (g & -> & Hg). apply list_elem_of_filter in Hg. tauto.
      * intros Hi. pose proof (Hkept i Hi) as Hin.
        apply list_elem_of_fmap in Hin as (g & -> & Hg).
        exists g. split; [done|]. by apply list_elem_of_filter.
Qed.

(** X6. With the filter on, a table of adjusted p-values as wide as the
    gene table, and gene rows that list the store's columns [0 .. n-1] once
    each, the plan keeps exactly the significant columns: a returned plan
    lists, in ascending order, the columns in which some experiment has a
    value that is not NaN and at most the threshold, and RuntimeError is
    raised exactly when there is no such column. *)
Theorem part1_column_plan_keeps_significant (node : h5_array) (t : Qc)
    (genes : list gene_row) :
  gene_idx <$> genes ≡ₚ arange (length genes) →
  h5_cols node = length genes →
  let significant (i : Z) :=
    ∃ j row x, i = Z.of_nat j ∧ j < length genes ∧ row ∈ h5_rows node
               ∧ row !! j = Some (Some x) ∧ (x ≤ t)%Qc in
  (∀ plan, part1_column_plan true (Some node) t genes = Ok plan →
     Sorted Z.lt (plan_idx plan) ∧ ∀ i, i ∈ plan_idx plan ↔ significant i)
  ∧ (part1_column_plan true (Some node) t genes = Raise RuntimeError ↔
       ∀ i, ¬ significant i)
  ∧ ((∃ plan, part1_column_plan true (Some node) t genes = Ok plan) ↔
       ∃ i, significant i).
Proof.
  intros Hperm Hcols significant.
  pose proof (kept_indices_are_significant node t genes Hperm Hcols) as Hkept.
  assert (∀ i, i ∈ Z.of_nat <$>
                 filter (λ j, column_significant (h5_rows node) t j = true)
                   (seq 0 (length genes)) ↔ significant i) as Hsig.
  { intros i. unfold significant. rewrite list_elem_of_fmap. split.
    - intros (j & -> & Hj). apply list_elem_of_filter in Hj as [Hj Hlt].
      apply elem_of_seq in Hlt.
      apply column_significant_spec in Hj as (row & x & ? & ? & ?).
      exists j, row, x. split_and!; try done. lia.
    - intros (j & row & x & -> & Hlt & Hrow & Hx & Hle). exists j.
      split; [done|]. apply list_elem_of_filter. split.
      + apply column_significant_spec. by exists row, x.
      + apply elem_of_seq. lia. }
  unfold part1_column_plan.
  rewrite bool_decide_false by (intros Hne; by apply Hne).
  rewrite Hkept.
  set (kept := Z.of_nat <$> filter _ _) in *.
  case_bool_decide as Hlen.
  - apply nil_length_inv in Hlen.
    assert (∀ i, ¬ significant i) as Hnone.
    { intros i Hi%Hsig. rewrite Hlen in Hi. by apply elem_of_nil in Hi. }
    split_and!; [done|done|]. split; [by intros [? ?]|].
    intros [i Hi]. by apply Hnone in Hi.
  - assert (∃ i, significant i) as Hsome.
    { destruct kept as [|i kept']; [done|]. exists i.
      apply Hsig, list_elem_of_here. }
    split_and!.
    + intros plan [= <-]. simpl. split; [|done].
      apply Sorted_lt_of_le; [apply Sorted_filter_seq|].
      apply NoDup_fmap; [apply _|]. apply NoDup_filter, NoDup_seq.
    + split; [done|]. intros Hnone. destruct Hsome as [i Hi].
      by apply Hnone in Hi.
    + split; [done|]. intros _. by eexists.
Qed.

End GateFacts.

(** ** The harmonizer and the pipeline of the rank-and-checkpoint script *)

Section PipelineFacts.

Lemma elem_of_omap_id {B} (l : list (option B)) (x : B) :
  x ∈ omap id l ↔ Some x ∈ l.
Proof.
  rewrite list_elem_of_omap. split.
  - intros (o & Ho & Hx). simpl in Hx. by subst o.
  - intros Hx. by exists (Some x).
Qed.

Lemma elem_of_index_map_to_entrez (d : gmap string raw_id)
    (transposed : Frame string) (g : Z) :
  g ∈ index (map_to_entrez d transposed) ↔
    ∃ symbol, symbol ∈ index transposed ∧ entrez_of d symbol = Some g.
Proof.
  simpl. rewrite elem_of_omap_id, list_elem_of_fmap. split.
  - intros (symbol & Hg & Hin). by exists symbol.
  - intros (symbol & Hin & Hg). by exists symbol.
Qed.

Lemma length_columns_groupby_mean (f : Frame Z) :
  Forall (λ c : Z * list cell, length c.2 = length (index (groupby_mean f)))
    (columns (groupby_mean f)).
Proof.
  simpl. apply Forall_fmap, Forall_forall. intros [lbl col] _. simpl.
  by rewrite length_fmap.
Qed.

Lemma keep_rows_all {K B} (keys : list K) (col : list B) :
  length col ≤ length keys → keep_rows (Some <$> keys) col = col.
Proof.
  unfold keep_rows. revert col.
  induction keys as [|k keys IH]; intros [|x col] Hlen; simpl in *;
    try done; try lia.
  f_equal. apply IH. lia.
Qed.

(** The intersection filter leaves a frame alone when all its ids are in the
    set. *)
Lemma enforce_shared_id (shared : gset Z) (f : Frame Z) :
  Forall (.∈ shared) (index f) →
  Forall (λ c : Z * list cell, length c.2 = length (index f)) (columns f) →
  enforce_shared shared f = f.
Proof.
  destruct f as [idx cols]. simpl. intros Hin Hlen. unfold enforce_shared. simpl.
  assert ((λ g, if bool_decide (g ∈ shared) then Some g else None) <$> idx
          = Some <$> idx) as ->.
  { apply Forall_fmap_ext. eapply Forall_impl; [exact Hin|].
    intros g Hg. simpl. by rewrite bool_decide_eq_true_2. }
  f_equal.
  - clear. induction idx as [|g idx IH]; [done|]. csimpl. by rewrite IH.
  - induction Hlen as [|[lbl col] cols Hc Hcols IH]; [done|].
    csimpl. rewrite IH. unfold prod_map. simpl in *.
    rewrite keep_rows_all; [done|]. lia.
Qed.

Lemma dict_zip_lookup_elem (table : list map_row) (symbol : string) (v : raw_id) :
  dict_zip table !! symbol = Some v →
  ∃ row, row ∈ table ∧ Gene_name row = Some symbol ∧ entrezID row = v.
Proof.
  rewrite dict_zip_lookup.
  destruct (List.find _ _) as [row|] eqn:Hfind; [|done].
  intros [= <-]. apply find_some in Hfind as [Hin Hsym].
  exists row. split_and!; [|by apply bool_decide_eq_true in Hsym|done].
  apply list_elem_of_In in Hin. by rewrite elem_of_reverse in Hin.
Qed.

(** X7. In the ranking filter script the dictionary and the reference set
    are read from the same shared-genes table, so the hard filter that
    follows the collapse removes nothing: every id the dictionary can give
    is in the reference set, and Step 3 with the filter is Step 3 without
    it. *)
Theorem hard_filter_keeps_every_collapsed_row
    (shared_genes_df : list map_row) (transposed : Frame string) :
  (∀ symbol g,
     entrez_of (gene_name_to_entrez_shared shared_genes_df) symbol = Some g →
     g ∈ shared_entrez_ids shared_genes_df)
  ∧ harmonize_shared shared_genes_df transposed =
      groupby_mean
        (map_to_entrez (gene_name_to_entrez_shared shared_genes_df) transposed).
Proof.
  assert (∀ symbol g,
     entrez_of (gene_name_to_entrez_shared shared_genes_df) symbol = Some g →
     g ∈ shared_entrez_ids shared_genes_df) as Hin.
  { intros symbol g. unfold entrez_of, gene_name_to_entrez_shared.
    destruct (dict_zip shared_genes_df !! symbol) as [v|] eqn:Hv; [|done].
    simpl. intros Hg.
    apply dict_zip_lookup_elem in Hv as (row & Hrow & _ & <-).
    unfold shared_entrez_ids. apply elem_of_list_to_set, list_elem_of_omap.
    by exists row. }
  split; [exact Hin|].
  unfold harmonize_shared. apply enforce_shared_id.
  - apply Forall_forall. intros g Hg.
    apply elem_of_group_keys, elem_of_index_map_to_entrez in Hg
      as (symbol & _ & Hsym).
    by eapply Hin.
  - apply length_columns_groupby_mean.
Qed.

Lemma length_remove_dups_le `{EqDecision B} (l : list B) :
  length (remove_dups l) ≤ length l.
Proof.
  induction l as [|x l IH]; [done|]. simpl.
  destruct (decide_rel _ _ _); simpl; lia.
Qed.

Lemma length_omap_le {B C} (f : B → option C) (l : list B) :
  length (omap f l) ≤ length l.
Proof.
  induction l as [|x l IH]; [done|]. csimpl. destruct (f x); simpl; lia.
Qed.

Lemma length_group_keys_le (keys : list Z) :
  length (group_keys keys) ≤ length keys.
Proof.
  unfold group_keys. rewrite merge_sort_Permutation.
  apply length_remove_dups_le.
Qed.

Lemma elem_of_index_harmonize (gene_map : list map_row)
    (transposed : Frame string) (g : Z) :
  g ∈ index (harmonize gene_map transposed) ↔
    ∃ symbol, symbol ∈ index transposed
              ∧ entrez_of (gene_name_to_entrez gene_map) symbol = Some g.
Proof.
  unfold harmonize. simpl index at 1.
  rewrite elem_of_group_keys. apply elem_of_index_map_to_entrez.
Qed.

Lemma Sorted_index_harmonize (gene_map : list map_row)
    (transposed : Frame string) :
  Sorted Z.lt (index (harmonize gene_map transposed)).
Proof.
  apply Sorted_lt_of_le; [apply Sorted_group_keys|apply NoDup_group_keys].
Qed.

Lemma length_index_harmonize_le (gene_map : list map_row)
    (transposed : Frame string) :
  length (index (harmonize gene_map transposed)) ≤ length (index transposed).
Proof.
  unfold harmonize. simpl. etrans; [apply length_group_keys_le|].
  etrans; [apply length_omap_le|]. by rewrite length_fmap.
Qed.

Lemma columns_harmonize_labels (gene_map : list map_row)
    (transposed : Frame string) :
  (columns (harmonize gene_map transposed)).*1 = (columns transposed).*1.
Proof.
  unfold harmonize. simpl. rewrite <-!list_fmap_compose.
  apply list_fmap_ext. by intros _ [lbl col] _.
Qed.

Lemma length_columns_harmonize (gene_map : list map_row)
    (transposed : Frame string) :
  Forall (λ c : Z * list cell,
            length c.2 = length (index (harmonize gene_map transposed)))
    (columns (harmonize gene_map transposed)).
Proof. apply length_columns_groupby_mean. Qed.

(** X8. What Step 3 of the rank-and-checkpoint script hands to the ranking:
    a frame whose ids are strictly ascending (so no id is listed twice) and
    are exactly the ids that some symbol of the input resolves to, with the
    experiment columns of the input, in the same order, each holding one
    cell per id. *)
Theorem harmonize_shape (gene_map : list map_row) (transposed : Frame string) :
  Sorted Z.lt (index (harmonize gene_map transposed))
  ∧ (∀ g, g ∈ index (harmonize gene_map transposed) ↔
       ∃ symbol, symbol ∈ index transposed
                 ∧ entrez_of (gene_name_to_entrez gene_map) symbol = Some g)
  ∧ (columns (harmonize gene_map transposed)).*1 = (columns transposed).*1
  ∧ Forall (λ c : Z * list cell,
              length c.2 = length (index (harmonize gene_map transposed)))
      (columns (harmonize gene_map transposed))
  ∧ length (index (harmonize gene_map transposed)) ≤ length (index transposed).
Proof.
  split_and!.
  - apply Sorted_index_harmonize.
  - apply elem_of_index_harmonize.
  - apply columns_harmonize_labels.
  - apply length_columns_harmonize.
  - apply length_index_harmonize_le.
Qed.

Lemma filter_zip_unique {B C} (P : B → bool) (l : list B) (k : list C)
    (pos : nat) (b : B) (c : C) :
  l !! pos = Some b → k !! pos = Some c → P b = true →
  (∀ pos' b', l !! pos' = Some b' → P b' = true → pos' = pos) →
  snd <$> List.filter (λ bc : B * C, P bc.1) (zip l k) = [c].
Proof.
  revert k pos. induction l as [|b0 l IH]; intros [|c0 k] pos Hb Hc HP Huniq;
    try done.
  destruct pos as [|pos]; simplify_eq/=.
  - rewrite HP. csimpl. f_equal.
    rewrite filter_none; [done|]. apply Forall_forall. intros [b' c'] Hin.
    apply list_elem_of_lookup in Hin as [i Hi]. simpl.
    apply lookup_zip_with_Some in Hi as (? & ? & [= <- <-] & Hb' & _).
    destruct (P b') eqn:HPb; [|done].
    by specialize (Huniq (S i) b' Hb' HPb).
  - destruct (P b0) eqn:HP0.
    + by specialize (Huniq 0 b0 eq_refl HP0).
    + apply (IH k pos); try done.
      intros pos' b' Hb' HPb. specialize (Huniq (S pos') b' Hb' HPb). lia.
Qed.

Lemma mean_skipna_singleton (x : cell) : mean_skipna [x] = x.
Proof.
  destruct x as [v|]; [|done]. unfold mean_skipna. simpl. f_equal.
  rewrite Qc_of_nat_1, Qcplus_0_r. unfold Qcdiv.
  replace (/ 1)%Qc with 1%Qc by (by apply Qc_is_canon).
  apply Qcmult_1_r.
Qed.

(** X9. A gene whose id no other symbol of the frame resolves to goes
    through the collapse untouched: its harmonized row is the row of its
    symbol in the input, NaN cells included. *)
Theorem uniquely_mapped_gene_keeps_its_row (gene_map : list map_row)
    (transposed : Frame string) (pos : nat) (symbol : string) (g : Z) :
  Forall (λ c : Z * list cell, length c.2 = length (index transposed))
    (columns transposed) →
  index transposed !! pos = Some symbol →
  entrez_of (gene_name_to_entrez gene_map) symbol = Some g →
  (∀ pos' symbol',
     index transposed !! pos' = Some symbol' →
     entrez_of (gene_name_to_entrez gene_map) symbol' = Some g → pos' = pos) →
  ∃ out_pos,
    index (harmonize gene_map transposed) !! out_pos = Some g
    ∧ row_at (harmonize gene_map transposed) out_pos = row_at transposed pos.
Proof.
  intros Hshape Hpos Hg Huniq.
  assert (g ∈ index (harmonize gene_map transposed)) as Hin.
  { apply elem_of_index_harmonize. exists symbol. split; [|done].
    by eapply list_elem_of_lookup_2. }
  apply list_elem_of_lookup in Hin as [out_pos Hout]. exists out_pos.
  split; [done|]. rewrite (harmonize_row _ _ _ _ Hout).
  symmetry. unfold row_at. apply mapM_Some, Forall2_fmap_r, Forall_Forall2_diag.
  eapply Forall_impl; [exact Hshape|]. intros [lbl col] Hlen. simpl in *.
  destruct (col !! pos) as [x|] eqn:Hx.
  - pose (P := λ s : string,
       bool_decide (entrez_of (gene_name_to_entrez gene_map) s = Some g)).
    assert (symbol_group_cells (gene_name_to_entrez gene_map) g
              (index transposed) col = [x]) as ->.
    { apply (filter_zip_unique P (index transposed) col pos symbol x);
        [done|done|by apply bool_decide_eq_true|].
      intros pos' symbol' Hs' Hb. apply bool_decide_eq_true in Hb. eauto. }
    by rewrite mean_skipna_singleton.
  - apply lookup_ge_None in Hx. apply lookup_lt_Some in Hpos. lia.
Qed.

Lemma rank_block_labels (cols : list (Z * list cell)) :
  (rank_block cols).*1 = cols.*1.
Proof.
  unfold rank_block. rewrite <-list_fmap_compose.
  apply list_fmap_ext. by intros _ [lbl col] _.
Qed.

Lemma rank_in_chunks_Some (cols : list (Z * list cell)) (size : Z) :
  (0 < size)%Z → cols ≠ [] → rank_in_chunks cols size = Some (rank_block cols).
Proof.
  intros Hpos Hcols. unfold rank_in_chunks.
  rewrite bool_decide_eq_false_2 by lia.
  assert (0 < Z.to_nat size) as Hs by lia.
  pose proof (ranked_chunks_nonempty cols _ Hs Hcols) as Hne.
  pose proof (concat_ranked_chunks cols _ Hs) as Hcat.
  destruct (ranked_chunks cols (Z.to_nat size)); [done|].
  by rewrite Hcat.
Qed.

Lemma rank_in_chunks_is_Some (cols : list (Z * list cell)) (size : Z) :
  is_Some (rank_in_chunks cols size) ↔ (0 < size)%Z ∧ cols ≠ [].
Proof.
  split.
  - intros [ranked Hr]. unfold rank_in_chunks in Hr.
    case_bool_decide; [done|]. split; [lia|]. intros ->.
    unfold ranked_chunks, py_range in Hr. simpl in Hr.
    rewrite Nat.div_small in Hr by lia. done.
  - intros [Hpos Hcols]. rewrite rank_in_chunks_Some; done.
Qed.

Lemma astype_Int64_is_Some (q : Qc) :
  is_Some (astype_Int64 q) ↔ ∃ z, q = Qc_of_Z z ∧ (- 2 ^ 63 ≤ z < 2 ^ 63)%Z.
Proof.
  unfold astype_Int64. case_bool_decide as Hq; split.
  - intros _. exists (Qfloor q). by destruct Hq.
  - eauto.
  - by intros [? ?].
  - intros (z & -> & Hz). exfalso. apply Hq.
    change (Qfloor (Qc_of_Z z)) with (Qfloor (inject_Z z)).
    by rewrite Qfloor_Z.
Qed.

Lemma safe_cast_spec (d : gmap string dict_value) (symbols : list string) :
  safe_cast d symbols = true ↔
    ∀ symbol q, symbol ∈ symbols → d !! symbol = Some (Number q) →
                ∃ z, q = Qc_of_Z z ∧ (- 2 ^ 63 ≤ z < 2 ^ 63)%Z.
Proof.
  unfold safe_cast. rewrite forallb_forall. split.
  - intros Hall symbol q Hin%list_elem_of_In Hq.
    specialize (Hall symbol Hin). rewrite Hq in Hall.
    by apply bool_decide_eq_true, astype_Int64_is_Some in Hall.
  - intros Hall symbol Hin%list_elem_of_In.
    destruct (d !! symbol) as [[q|s]|] eqn:Hq; [|done..].
    apply bool_decide_eq_true, astype_Int64_is_Some. eauto.
Qed.

Lemma entrez_of_cast_ids (d : gmap string dict_value) (symbol : string)
    (g : Z) :
  (∀ q, d !! symbol = Some (Number q) →
        ∃ z, q = Qc_of_Z z ∧ (- 2 ^ 63 ≤ z < 2 ^ 63)%Z) →
  entrez_of (cast_ids d) symbol = Some g ↔
    d !! symbol = Some (Number (Qc_of_Z g)).
Proof.
  intros Hwhole. unfold entrez_of, cast_ids. rewrite lookup_fmap.
  destruct (d !! symbol) as [[q|s]|] eqn:Hq; simpl; [|done..].
  destruct (Hwhole q eq_refl) as (z & -> & _).
  change (Qfloor (Qc_of_Z z)) with (Qfloor (inject_Z z)). rewrite Qfloor_Z.
  split; [by intros [= ->]|]. by intros [= ->].
Qed.

Lemma elem_of_index_collapsed (d : gmap string raw_id)
    (transposed : Frame string) (g : Z) :
  g ∈ index (groupby_mean (map_to_entrez d transposed)) ↔
    ∃ symbol, symbol ∈ index transposed ∧ entrez_of d symbol = Some g.
Proof.
  simpl index at 1. rewrite elem_of_group_keys.
  apply elem_of_index_map_to_entrez.
Qed.

Lemma columns_collapsed_labels (d : gmap string raw_id)
    (transposed : Frame string) :
  (columns (groupby_mean (map_to_entrez d transposed))).*1 =
    (columns transposed).*1.
Proof.
  simpl. rewrite <-!list_fmap_compose.
  apply list_fmap_ext. by intros _ [lbl col] _.
Qed.

(** X10. The rank-and-checkpoint script from the dictionary of line 152 and
    the transposed frame to the checkpoint. It gets through exactly when
    the frame has at least one gene row and one experiment column, the
    chunk size is positive, and every number that a symbol of the frame
    resolves to is a whole number within the range of 64-bit integers
    (line 178 raises TypeError on any other number, one with a fractional
    part in particular). The checkpoint then lists the resolved ids in
    strictly ascending order, keeps the experiment columns in their order,
    and (fewer than 2^31 gene rows) every column holds each of the ranks
    1, ..., G once, G being the number of ids. *)
Theorem rank_and_checkpoint_result
    (gene_name_to_entrez : gmap string dict_value)
    (transposed : Frame string) (rank_chunk_size : Z) :
  (Z.of_nat (length (index transposed)) < 2 ^ 31)%Z →
  (is_Some (rank_and_checkpoint gene_name_to_entrez transposed rank_chunk_size)
   ↔ index transposed ≠ [] ∧ columns transposed ≠ []
     ∧ (0 < rank_chunk_size)%Z
     ∧ ∀ symbol q, symbol ∈ index transposed →
                   gene_name_to_entrez !! symbol = Some (Number q) →
                   ∃ z, q = Qc_of_Z z ∧ (- 2 ^ 63 ≤ z < 2 ^ 63)%Z)
  ∧ ∀ ids ranked,
      rank_and_checkpoint gene_name_to_entrez transposed rank_chunk_size
        = Some (ids, ranked) →
      Sorted Z.lt ids
      ∧ (∀ g, g ∈ ids ↔
           ∃ symbol, symbol ∈ index transposed
                     ∧ gene_name_to_entrez !! symbol
                       = Some (Number (Qc_of_Z g)))
      ∧ ranked.*1 = (columns transposed).*1
      ∧ Forall (λ c : Z * list Z, c.2 ≡ₚ Z.of_nat <$> seq 1 (length ids)) ranked.
Proof.
  intros Hsmall.
  set (collapsed :=
         groupby_mean (map_to_entrez (cast_ids gene_name_to_entrez) transposed)).
  assert (columns collapsed = [] ↔ columns transposed = []) as Hcols.
  { pose proof (columns_collapsed_labels (cast_ids gene_name_to_entrez)
                  transposed) as Hl.
    fold collapsed in Hl.
    split; intros Hnil; rewrite Hnil in Hl.
    - symmetry in Hl. by apply fmap_nil_inv in Hl.
    - by apply fmap_nil_inv in Hl. }
  unfold rank_and_checkpoint. fold collapsed. split.
  - case_bool_decide as Hn.
    + split; [by intros [? ?]|]. intros (Hne & _). by apply nil_length_inv in Hn.
    + assert (index transposed ≠ []) as Hne.
      { intros Heq. by rewrite Heq in Hn. }
      destruct (safe_cast gene_name_to_entrez (index transposed)) eqn:Hcast;
        cbn [negb].
      2:{ split; [by intros [? ?]|]. intros (_ & _ & _ & Hwhole).
          apply (proj2 (safe_cast_spec _ _)) in Hwhole. congruence. }
      pose proof (proj1 (safe_cast_spec _ _) Hcast) as Hwhole; clear Hcast;
      rename Hwhole into Hcast.
      destruct (rank_in_chunks _ _) as [ranked|] eqn:Hr; simpl.
      * assert (is_Some (rank_in_chunks (columns collapsed) rank_chunk_size))
          as Hs by (by rewrite Hr).
        apply rank_in_chunks_is_Some in Hs as [Hpos Hc].
        split; [|done]. intros _. split_and!; [done| |done|done].
        by rewrite <-Hcols.
      * split; [by intros [? ?]|]. intros (_ & Hc & Hpos & _).
        assert (is_Some (rank_in_chunks (columns collapsed) rank_chunk_size))
          as [? Hs].
        { apply rank_in_chunks_is_Some. split; [done|]. by rewrite Hcols. }
        congruence.
  - intros ids ranked. case_bool_decide as Hn; [done|].
    destruct (safe_cast gene_name_to_entrez (index transposed)) eqn:Hcast;
      cbn [negb]; [|done].
    pose proof (proj1 (safe_cast_spec _ _) Hcast) as Hwhole; clear Hcast;
      rename Hwhole into Hcast.
    destruct (rank_in_chunks _ _) as [ranked'|] eqn:Hr; [|done].
    cbn [mbind option_bind]. intros [= <- <-].
    assert (is_Some (rank_in_chunks (columns collapsed) rank_chunk_size))
      as Hs by (by rewrite Hr).
    apply rank_in_chunks_is_Some in Hs as [Hpos Hc].
    rewrite rank_in_chunks_Some in Hr by done. injection Hr as <-.
    split_and!.
    + apply Sorted_lt_of_le; [apply Sorted_group_keys|apply NoDup_group_keys].
    + intros g.
      etrans; [apply (elem_of_index_collapsed (cast_ids gene_name_to_entrez)
                        transposed g)|].
      split; intros (symbol & Hin & Hg); exists symbol; (split; [done|]).
      * apply entrez_of_cast_ids in Hg; [done|]. intros q. by apply Hcast.
      * apply entrez_of_cast_ids; [|done]. intros q. by apply Hcast.
    + rewrite rank_block_labels. apply columns_collapsed_labels.
    + unfold rank_block. apply Forall_fmap.
      eapply Forall_impl; [apply (length_columns_groupby_mean
        (map_to_entrez (cast_ids gene_name_to_entrez) transposed))|].
      intros [lbl col] Hlen. unfold compose. cbn [prod_map snd] in *.
      change (group_keys _) with (index collapsed).
      fold collapsed in Hlen. rewrite <-Hlen. apply rank_column_permutation.
      assert (length (index collapsed) ≤ length (index transposed)); [|lia].
      simpl. etrans; [apply length_group_keys_le|].
      etrans; [apply length_omap_le|]. by rewrite length_fmap.
Qed.

End PipelineFacts.

(** ** More on the rank transform *)

Section RankOrderFacts.

Lemma length_filter_fmap {B C} (P : C → bool) (h : B → C) (l : list B) :
  length (List.filter P (h <$> l)) = length (List.filter (λ x, P (h x)) l).
Proof.
  induction l as [|x l IH]; [done|]. csimpl.
  destruct (P (h x)); simpl; by rewrite IH.
Qed.

Lemma entries_fmap (g : cell → cell) (col : list cell) :
  entries (g <$> col) = prod_map id g <$> entries col.
Proof.
  unfold entries. rewrite imap_fmap, fmap_imap. by apply imap_ext.
Qed.

Section Monotone.

Variable f : Qc → Qc.
Hypothesis f_mono : ∀ a b, (a < b)%Qc → (f a < f b)%Qc.

Lemma f_mono_iff (a b : Qc) : (f a < f b)%Qc ↔ (a < b)%Qc.
Proof.
  split; [|apply f_mono]. intros Hf.
  destruct (Qclt_le_dec a b) as [|Hle]; [done|].
  apply Qcle_lt_or_eq in Hle as [Hlt|Heq].
  - apply f_mono in Hlt. exfalso. eapply Qclt_not_le; [exact Hf|].
    by apply Qclt_le_weak.
  - subst b. by apply Qclt_not_eq in Hf.
Qed.

Lemma f_mono_inj (a b : Qc) : f a = f b → a = b.
Proof.
  intros Heq. destruct (Qc_dec a b) as [[Hlt|Hgt]|]; [| |done].
  - apply f_mono in Hlt. rewrite Heq in Hlt. by apply Qclt_not_eq in Hlt.
  - apply f_mono in Hgt. rewrite Heq in Hgt. by apply Qclt_not_eq in Hgt.
Qed.

Lemma ranks_above_fmap (y x : cell) :
  ranks_above (f <$> y) (f <$> x) = ranks_above y x.
Proof.
  destruct y as [b|], x as [a|]; simpl; try done.
  apply bool_decide_ext, f_mono_iff.
Qed.

Lemma comes_first_fmap (j : nat) (y : cell) (i : nat) (x : cell) :
  comes_first j (f <$> y) i (f <$> x) = comes_first j y i x.
Proof.
  unfold comes_first. rewrite ranks_above_fmap. do 2 f_equal.
  apply bool_decide_ext. split; [|by intros ->].
  destruct y as [b|], x as [a|]; simpl; try done.
  intros [= Heq]. f_equal. by apply f_mono_inj.
Qed.

Lemma rank_first_fmap (col : list cell) :
  rank_first ((λ x : cell, f <$> x) <$> col) = rank_first col.
Proof.
  unfold rank_first. rewrite imap_fmap. apply imap_ext. intros i x _. simpl.
  unfold rank_of. f_equal. rewrite entries_fmap, length_filter_fmap.
  f_equal. apply filter_ext. intros [j y]. simpl. apply comes_first_fmap.
Qed.

End Monotone.

(** X11. The ranks of a column depend on the order of its values only:
    applying a strictly increasing function to every finite cell (a change
    of scale or of offset) leaves the rank column as it is. *)
Theorem ranks_depend_on_order_only (f : Qc → Qc) (col : list cell) :
  (∀ a b, (a < b)%Qc → (f a < f b)%Qc) →
  rank_column ((λ x : cell, f <$> x) <$> col) = rank_column col.
Proof. intros Hf. unfold rank_column. by rewrite rank_first_fmap. Qed.

Lemma entries_snoc (col : list cell) (x : cell) :
  entries (col ++ [x]) = entries col ++ [(length col, x)].
Proof.
  unfold entries. rewrite imap_app. simpl. by rewrite Nat.add_0_r.
Qed.

Lemma length_filter_app {B} (P : B → bool) (l k : list B) :
  length (List.filter P (l ++ k)) =
    length (List.filter P l) + length (List.filter P k).
Proof. by rewrite List.filter_app, length_app. Qed.

(** The cells that sort before a NaN cell at row [i]: every finite cell,
    and the NaN cells of the rows above. *)
Lemma count_before_nan (col : list cell) (i : nat) :
  length (List.filter (λ e : nat * cell, comes_first e.1 e.2 i None)
            (entries col)) =
    length (List.filter notna col)
    + length (List.filter (λ x, negb (notna x)) (take i col)).
Proof.
  induction col as [|x col IH] using rev_ind; [by rewrite take_nil|].
  rewrite entries_snoc, take_app, !length_filter_app, IH.
  destruct x as [a|]; simpl.
  - destruct (i - length col) as [|k]; simpl; [lia|].
    rewrite take_nil. simpl. lia.
  - unfold comes_first. simpl.
    destruct (decide (length col < i)) as [Hlt|Hge].
    + rewrite bool_decide_eq_true_2 by done.
      destruct (i - length col) as [|k] eqn:Hk; [lia|]. simpl.
      rewrite take_nil. simpl. lia.
    + rewrite bool_decide_eq_false_2 by done.
      replace (i - length col) with 0 by lia. simpl. lia.
Qed.

Lemma count_finite_entries (col : list cell) :
  length (List.filter (λ e : nat * cell, notna e.2) (entries col)) =
    length (List.filter notna col).
Proof.
  induction col as [|x col IH] using rev_ind; [done|].
  rewrite entries_snoc, !length_filter_app, IH. simpl.
  by destruct (notna x).
Qed.

(** X12. NaN cells take the last ranks. In a column with [m] finite cells
    (and fewer than 2^31 rows), every finite cell gets a rank between 1 and
    [m], and a NaN cell gets the rank [m + 1 + k], where [k] is the number
    of NaN cells in the rows above it. *)
Theorem nan_cells_take_the_last_ranks (col : list cell) (i : nat) :
  (Z.of_nat (length col) < 2 ^ 31)%Z →
  let finite := length (List.filter notna col) in
  let nan_above := length (List.filter (λ x, negb (notna x)) (take i col)) in
  (∀ a, col !! i = Some (Some a) →
     ∃ rk, rank_column col !! i = Some rk ∧ (1 ≤ rk ≤ Z.of_nat finite)%Z)
  ∧ (col !! i = Some None →
     rank_column col !! i = Some (Z.of_nat (finite + 1 + nan_above))).
Proof.
  intros Hlen finite nan_above. split.
  - intros a Hi. eexists. split; [by apply lookup_rank_column|].
    unfold rank_of, finite. rewrite <-count_finite_entries.
    assert (length (List.filter
                      (λ e : nat * cell, comes_first e.1 e.2 i (Some a))
                      (entries col))
            < length (List.filter (λ e : nat * cell, notna e.2) (entries col)));
      [|lia].
    apply (filter_length_lt _ _ _ (i, Some a)).
    + intros [j y] _. simpl. intros Hc. apply comes_first_spec in Hc.
      destruct y as [b|]; [done|]. by destruct Hc as [Hc|[Hc _]].
    + by apply elem_of_entries.
    + done.
    + apply comes_first_irrefl.
  - intros Hi. rewrite (lookup_rank_column col i None Hlen Hi).
    unfold rank_of. rewrite count_before_nan. do 2 f_equal.
    unfold finite, nan_above. lia.
Qed.

End RankOrderFacts.

(** ** The filter step and the report *)

Section FilterFacts.

(** Whatever the mode, the filter marks the rows picked by a mask that
    holds on records with statistics only. *)
Lemma apply_filters_mask (results : list stat_row) (mode : string)
    (threshold : Qc) :
  ∃ mask : stat_row → bool,
    frame_of (apply_filters results mode threshold) =
      assign_valid (λ s, valid_stats_mask s && mask s) (init_valid results).
Proof.
  assert (init_valid results =
          assign_valid (λ s, valid_stats_mask s && false) (init_valid results))
    as Hinit.
  { unfold assign_valid, init_valid. rewrite <-list_fmap_compose.
    apply list_fmap_ext. intros _ s _. simpl. by rewrite andb_false_r. }
  unfold apply_filters. case_bool_decide; [by exists (λ _, false)|].
  case_bool_decide; [by eexists|]. case_bool_decide; [by eexists|].
  case_bool_decide; [|by exists (λ _, false)].
  destruct (List.filter valid_stats_mask results) as [|s l];
    [by exists (λ _, false)|].
  destruct (nanpercentile _ _); [by eexists|by exists (λ _, false)].
Qed.

Lemma percentile_in_range (threshold : Qc) :
  (0 ≤ Qc_of_Z 100 - threshold ∧ Qc_of_Z 100 - threshold ≤ Qc_of_Z 100)%Qc ↔
  (0 ≤ threshold ∧ threshold ≤ Qc_of_Z 100)%Qc.
Proof.
  assert (Qc_of_Z 100 + - (Qc_of_Z 100 - threshold) = threshold)%Qc as Heq
    by ring.
  rewrite (Qcle_minus_iff (Qc_of_Z 100 - threshold) (Qc_of_Z 100)), Heq.
  rewrite (Qcle_minus_iff threshold (Qc_of_Z 100)). tauto.
Qed.



Lemma length_assign_valid (mask : stat_row → bool) (results : list stat_row) :
  length (assign_valid mask (init_valid results)) = length results.
Proof. unfold assign_valid, init_valid. by rewrite !length_fmap. Qed.

Lemma length_filter_le {B} (f : B → bool) (l : list B) :
  length (List.filter f l) ≤ length l.
Proof.
  induction l as [|x l IH]; [done|]. simpl. destruct (f x); simpl; lia.
Qed.

Lemma count_rows_assign (mask : stat_row → bool) (results : list stat_row) :
  length (List.filter (λ row, bool_decide (valid row = 1%Z))
            (assign_valid mask (init_valid results)))
    = length (List.filter mask results)
  ∧ length (List.filter (λ row, bool_decide (valid row = 0%Z))
              (assign_valid mask (init_valid results)))
    = length results - length (List.filter mask results).
Proof.
  unfold assign_valid, init_valid.
  induction results as [|s results [IH1 IH0]]; [done|].
  pose proof (length_filter_le mask results) as Hle.
  rewrite !fmap_cons. cbn [List.filter stats]. destruct (mask s); simpl.
  - rewrite IH1, IH0. split; lia.
  - rewrite IH1, IH0. split; lia.
Qed.

Lemma percentage_bounds (v n : Z) :
  (0 ≤ v ≤ n)%Z → (0 < n)%Z →
  (0 ≤ Qc_of_Z v / Qc_of_Z n * Qc_of_Z 100
   ∧ Qc_of_Z v / Qc_of_Z n * Qc_of_Z 100 ≤ Qc_of_Z 100)%Qc.
Proof.
  intros Hv Hn. unfold Qcle, Qcdiv, Qcmult, Qcinv, Qc_of_Z. simpl.
  rewrite !Qred_correct.
  destruct n as [|pn|pn]; try lia.
  unfold Qle, Qinv, Qmult, inject_Z. simpl. split; nia.
Qed.

(** X14. The report accounts for every record of the filtered frame. A
    frame filtered from no record gives the report "No instances
    processed."; otherwise the total is the number of records, the valid
    figure counts the rows marked 1 and the invalid figure the rows marked
    0 (no row carries another mark), the valid rows are never more than the
    records with statistics, and the percentage lies between 0 and 100. *)
Theorem summary_accounts_for_every_record (results : list stat_row)
    (mode : string) (threshold : Qc) :
  let results_df := frame_of (apply_filters results mode threshold) in
  (generate_summary results_df = None ↔ results = [])
  ∧ ∀ report, generate_summary results_df = Some report →
      total_experiments report = Z.of_nat (length results)
      ∧ valid_1 report =
          Z.of_nat (length (List.filter (λ row, bool_decide (valid row = 1%Z))
                              results_df))
      ∧ invalid_0 report =
          Z.of_nat (length (List.filter (λ row, bool_decide (valid row = 0%Z))
                              results_df))
      ∧ (valid_1 report + invalid_0 report = total_experiments report)%Z
      ∧ (0 ≤ valid_1 report
           ≤ Z.of_nat (length (List.filter valid_stats_mask results)))%Z
      ∧ (0 ≤ percentage_valid report ∧ percentage_valid report ≤ Qc_of_Z 100)%Qc.
Proof.
  destruct (apply_filters_mask results mode threshold) as [mask Hdf].
  intros results_df. unfold results_df. rewrite Hdf. clear Hdf results_df.
  set (M := λ s, valid_stats_mask s && mask s).
  unfold generate_summary.
  rewrite length_assign_valid, count_valid_assign.
  destruct (count_rows_assign M results) as [H1 H0]. rewrite H1, H0.
  pose proof (filter_length_le M valid_stats_mask results) as Hstats.
  pose proof (length_filter_le M results) as Hle.
  case_bool_decide as Hn.
  - split; [|done]. split; [|done]. intros _. apply nil_length_inv. lia.
  - split; [split; [done|]; intros ->; done|].
    intros report [= <-]. simpl. split_and!; try lia.
    + enough (length (List.filter M results)
              ≤ length (List.filter valid_stats_mask results)) by lia.
      apply Hstats. intros s _. unfold M. by intros [? _]%andb_true_iff.
    + apply percentage_bounds; lia.
    + apply percentage_bounds; lia.
Qed.

End FilterFacts.

(** ** Percentile mode *)

Section PercentileFacts.

Local Open Scope Qc_scope.

Lemma Qcmult_nonneg (a b : Qc) : 0 ≤ a → 0 ≤ b → 0 ≤ a * b.
Proof.
  intros Ha Hb. replace 0 with (0 * b) by ring. by apply Qcmult_le_compat_r.
Qed.

Lemma lerp_ge (lo hi g : Qc) : lo ≤ hi → 0 ≤ g → lo ≤ lo + (hi - lo) * g.
Proof.
  intros Hlh Hg. apply Qcle_minus_iff.
  replace (lo + (hi - lo) * g + - lo) with ((hi + - lo) * g) by ring.
  apply Qcmult_nonneg; [|done]. by apply Qcle_minus_iff in Hlh.
Qed.

Lemma lerp_le (lo hi g : Qc) : lo ≤ hi → g ≤ 1 → lo + (hi - lo) * g ≤ hi.
Proof.
  intros Hlh Hg. apply Qcle_minus_iff.
  replace (hi + - (lo + (hi - lo) * g)) with ((hi + - lo) * (1 + - g)) by ring.
  apply Qcmult_nonneg; by apply Qcle_minus_iff in Hlh, Hg.
Qed.

Lemma lerp_mono (lo hi g1 g2 : Qc) :
  lo ≤ hi → g1 ≤ g2 → lo + (hi - lo) * g1 ≤ lo + (hi - lo) * g2.
Proof.
  intros Hlh Hg. apply Qcle_minus_iff.
  replace (lo + (hi - lo) * g2 + - (lo + (hi - lo) * g1))
    with ((hi + - lo) * (g2 + - g1)) by ring.
  apply Qcmult_nonneg; by apply Qcle_minus_iff in Hlh, Hg.
Qed.

Lemma this_Qc_of_nat (k : nat) : (Qc_of_nat k : Q) = inject_Z (Z.of_nat k).
Proof.
  unfold Qc_of_nat, Qc_of_Z, Q2Qc, this, inject_Z, Qred. simpl. reflexivity.
Qed.

Lemma Qc_of_nat_nonneg (k : nat) : 0 ≤ Qc_of_nat k.
Proof.
  unfold Qcle. rewrite this_Qc_of_nat. simpl.
  unfold Qle, inject_Z. simpl. lia.
Qed.

Lemma Qc_of_nat_le (j k : nat) : (j ≤ k)%nat → Qc_of_nat j ≤ Qc_of_nat k.
Proof.
  intros Hjk. unfold Qcle. rewrite !this_Qc_of_nat.
  unfold Qle, inject_Z. simpl. lia.
Qed.

Lemma Qfloor_nonneg (v : Qc) : 0 ≤ v → (0 ≤ Qfloor v)%Z.
Proof. intros Hv. by apply (Qfloor_resp_le 0 v). Qed.

Lemma Qc_floor_le (v : Qc) : 0 ≤ v → Qc_of_nat (Z.to_nat (Qfloor v)) ≤ v.
Proof.
  intros Hv. unfold Qcle. rewrite this_Qc_of_nat.
  rewrite Z2Nat.id by by apply Qfloor_nonneg. apply Qfloor_le.
Qed.

Lemma this_plus (a b : Qc) : ((a + b : Qc) : Q) == (a : Q) + (b : Q).
Proof. unfold Qcplus, Q2Qc, this. apply Qred_correct. Qed.

Lemma Qc_lt_floor (v : Qc) : 0 ≤ v → v ≤ Qc_of_nat (Z.to_nat (Qfloor v)) + 1.
Proof.
  intros Hv. unfold Qcle. rewrite this_plus, this_Qc_of_nat.
  rewrite Z2Nat.id by by apply Qfloor_nonneg.
  apply Qlt_le_weak. change (this 1) with (inject_Z 1).
  rewrite <-inject_Z_plus. apply Qlt_floor.
Qed.

Lemma Qc_floor_mono (v1 v2 : Qc) :
  v1 ≤ v2 → (Z.to_nat (Qfloor v1) ≤ Z.to_nat (Qfloor v2))%nat.
Proof.
  intros Hv. pose proof (Qfloor_resp_le v1 v2 Hv). lia.
Qed.

Lemma Qc_floor_of_nat (k : nat) : Z.to_nat (Qfloor (Qc_of_nat k)) = k.
Proof. rewrite this_Qc_of_nat, Qfloor_Z. lia. Qed.

Lemma nth_sorted (l : list Qc) (d : Qc) (i j : nat) :
  StronglySorted Qcle l → (i ≤ j)%nat → (j < length l)%nat →
  nth i l d ≤ nth j l d.
Proof.
  intros Hs. revert i j. induction Hs as [|x l Hs IH Hall]; intros i j Hij Hj.
  - simpl in Hj. lia.
  - destruct i as [|i], j as [|j]; simpl in *; try lia.
    + apply Qcle_refl.
    + rewrite Forall_forall in Hall. apply Hall.
      apply list_elem_of_In, nth_In. lia.
    + apply IH; lia.
Qed.

(** The virtual index of a percentile in range, and its floor. *)
Lemma virtual_index_bounds (q : Qc) (m : nat) :
  0 ≤ q → q ≤ Qc_of_Z 100 →
  let virtual := q / Qc_of_Z 100 * Qc_of_nat m in
  0 ≤ virtual ∧ virtual ≤ Qc_of_nat m
  ∧ (Z.to_nat (Qfloor virtual) ≤ m)%nat.
Proof.
  intros Hq0 Hq100 virtual.
  assert (0 ≤ / Qc_of_Z 100) as Hinv by done.
  assert (0 ≤ q / Qc_of_Z 100) as Hr0 by (by apply Qcmult_nonneg).
  assert (q / Qc_of_Z 100 ≤ 1) as Hr1.
  { replace 1 with (Qc_of_Z 100 / Qc_of_Z 100) by (by apply Qc_is_canon).
    by apply Qcmult_le_compat_r. }
  assert (virtual ≤ Qc_of_nat m) as Hv.
  { unfold virtual.
    pose proof (Qcmult_le_compat_r _ _ (Qc_of_nat m) Hr1 (Qc_of_nat_nonneg m))
      as Hm.
    by rewrite Qcmult_1_l in Hm. }
  split_and!; [|done|].
  - apply Qcmult_nonneg; [done|apply Qc_of_nat_nonneg].
  - pose proof (Qc_floor_mono _ _ Hv) as Hf.
    by rewrite Qc_floor_of_nat in Hf.
Qed.

Lemma virtual_index_mono (q1 q2 : Qc) (m : nat) :
  q1 ≤ q2 →
  q1 / Qc_of_Z 100 * Qc_of_nat m ≤ q2 / Qc_of_Z 100 * Qc_of_nat m.
Proof.
  intros Hq. apply Qcmult_le_compat_r; [|apply Qc_of_nat_nonneg].
  by apply Qcmult_le_compat_r.
Qed.

(** The interpolated value lies between the two order statistics around
    the virtual index. *)
Lemma interpolation_bounds (sorted : list Qc) (d : Qc) (virtual : Qc) :
  StronglySorted Qcle sorted →
  0 ≤ virtual → virtual ≤ Qc_of_nat (length sorted - 1) → sorted ≠ [] →
  let previous := Z.to_nat (Qfloor virtual) in
  let next := Nat.min (previous + 1) (length sorted - 1) in
  let lo := nth previous sorted d in
  let hi := nth next sorted d in
  lo ≤ lo + (hi - lo) * (virtual - Qc_of_nat previous)
  ∧ lo + (hi - lo) * (virtual - Qc_of_nat previous) ≤ hi
  ∧ lo ≤ hi ∧ (previous ≤ length sorted - 1)%nat.
Proof.
  intros Hs Hv0 Hvm Hne previous next lo hi.
  assert (0 < length sorted)%nat as Hlen.
  { destruct sorted; [done|simpl; lia]. }
  assert (previous ≤ length sorted - 1)%nat as Hprev.
  { pose proof (Qc_floor_mono _ _ Hvm) as Hf.
    by rewrite Qc_floor_of_nat in Hf. }
  assert (lo ≤ hi) as Hlh by (apply nth_sorted; [done|lia|lia]).
  split_and!; [| |done|done].
  - apply lerp_ge; [done|].
    apply (Qcle_minus_iff (Qc_of_nat previous) virtual).
    by apply Qc_floor_le.
  - apply lerp_le; [done|]. apply Qcle_minus_iff.
    replace (1 + - (virtual - Qc_of_nat previous))
      with (Qc_of_nat previous + 1 + - virtual) by ring.
    apply (Qcle_minus_iff virtual (Qc_of_nat previous + 1)).
    by apply Qc_lt_floor.
Qed.

Lemma sorted_values (a : list cell) :
  StronglySorted Qcle (merge_sort Qcle (omap id a))
  ∧ merge_sort Qcle (omap id a) ≡ₚ omap id a.
Proof.
  split; [|apply merge_sort_Permutation].
  apply (StronglySorted_merge_sort Qcle).
Qed.

(** The value of the percentile when it is in range and some value is
    finite. *)
Lemma nanpercentile_value (a : list cell) (q : Qc) :
  0 ≤ q → q ≤ Qc_of_Z 100 → omap id a ≠ [] →
  let sorted := merge_sort Qcle (omap id a) in
  let virtual := q / Qc_of_Z 100 * Qc_of_nat (length sorted - 1) in
  let previous := Z.to_nat (Qfloor virtual) in
  let next := Nat.min (previous + 1) (length sorted - 1) in
  nanpercentile a q =
    Some (Some (nth previous sorted 0
                + (nth next sorted 0 - nth previous sorted 0)
                  * (virtual - Qc_of_nat previous))).
Proof.
  intros Hq0 Hq100 Hne. cbv zeta.
  unfold nanpercentile. rewrite bool_decide_eq_true_2 by done.
  remember (merge_sort Qcle (omap id a)) as sorted eqn:Hs.
  destruct (virtual_index_bounds q (length sorted - 1) Hq0 Hq100)
    as (_ & _ & Hprev).
  destruct sorted as [|first rest].
  - exfalso. apply Hne. apply Permutation_nil.
    rewrite Hs. apply merge_sort_Permutation.
  - cbv zeta.
    rewrite (nth_indep _ first 0), (nth_indep (first :: rest) first 0);
      [done| |]; simpl in *; lia.
Qed.

Lemma nanpercentile_all_nan (a : list cell) (q : Qc) (c : Qc) :
  nanpercentile a q = Some (Some c) → omap id a ≠ [].
Proof.
  unfold nanpercentile. case_bool_decide; [|done]. intros Hc Hnil.
  rewrite Hnil in Hc. done.
Qed.

Lemma nth_elem_of (l : list Qc) (k : nat) :
  (k < length l)%nat → nth k l 0 ∈ l.
Proof. intros Hk. by apply list_elem_of_In, nth_In. Qed.

(** A percentile in range lies between two of the finite values. *)
Lemma nanpercentile_between (a : list cell) (q : Qc) :
  0 ≤ q → q ≤ Qc_of_Z 100 → omap id a ≠ [] →
  ∃ c lo hi,
    nanpercentile a q = Some (Some c)
    ∧ lo ∈ omap id a ∧ hi ∈ omap id a ∧ lo ≤ c ∧ c ≤ hi.
Proof.
  intros Hq0 Hq100 Hne.
  pose proof (nanpercentile_value a q Hq0 Hq100 Hne) as Hval. cbv zeta in Hval.
  destruct (sorted_values a) as [Hs Hperm].
  set (sorted := merge_sort Qcle (omap id a)) in *.
  assert (sorted ≠ []) as Hne'.
  { intros Hnil. apply Hne. apply Permutation_nil. by rewrite <-Hperm, Hnil. }
  destruct (virtual_index_bounds q (length sorted - 1) Hq0 Hq100)
    as (Hv0 & Hvm & Hprev).
  destruct (interpolation_bounds sorted 0 _ Hs Hv0 Hvm Hne')
    as (Hlo & Hhi & _ & _).
  assert (0 < length sorted)%nat by (destruct sorted; [done|simpl; lia]).
  eexists _, _, _. split; [exact Hval|].
  split_and!; [| |exact Hlo|exact Hhi];
    rewrite <-Hperm; apply nth_elem_of; lia.
Qed.

(** The percentile is monotone in the percentage. *)
Lemma nanpercentile_mono (a : list cell) (q1 q2 c1 c2 : Qc) :
  0 ≤ q1 → q1 ≤ q2 → q2 ≤ Qc_of_Z 100 →
  nanpercentile a q1 = Some (Some c1) → nanpercentile a q2 = Some (Some c2) →
  c1 ≤ c2.
Proof.
  intros Hq1 Hq12 Hq2 Hc1 Hc2.
  pose proof (nanpercentile_all_nan _ _ _ Hc1) as Hne.
  assert (q1 ≤ Qc_of_Z 100) as Hq1' by (by eapply Qcle_trans).
  assert (0 ≤ q2) as Hq2' by (by eapply Qcle_trans).
  pose proof (nanpercentile_value a q1 Hq1 Hq1' Hne) as Hv1.
  pose proof (nanpercentile_value a q2 Hq2' Hq2 Hne) as Hv2.
  cbv zeta in Hv1, Hv2. rewrite Hv1 in Hc1. rewrite Hv2 in Hc2.
  apply (inj Some), (inj Some) in Hc1. apply (inj Some), (inj Some) in Hc2.
  subst c1 c2. clear Hv1 Hv2.
  destruct (sorted_values a) as [Hs Hperm].
  set (sorted := merge_sort Qcle (omap id a)) in *.
  assert (sorted ≠ []) as Hne'.
  { intros Hnil. apply Hne. apply Permutation_nil. by rewrite <-Hperm, Hnil. }
  assert (0 < length sorted)%nat by (destruct sorted; [done|simpl; lia]).
  pose proof (virtual_index_mono q1 q2 (length sorted - 1) Hq12) as Hmono.
  destruct (virtual_index_bounds q1 (length sorted - 1) Hq1 Hq1')
    as (Hv10 & Hv1m & Hp1).
  destruct (virtual_index_bounds q2 (length sorted - 1) Hq2' Hq2)
    as (Hv20 & Hv2m & Hp2).
  destruct (interpolation_bounds sorted 0 _ Hs Hv10 Hv1m Hne')
    as (_ & Hhi1 & _ & _).
  destruct (interpolation_bounds sorted 0 _ Hs Hv20 Hv2m Hne')
    as (Hlo2 & _ & Hlh2 & _).
  pose proof (Qc_floor_mono _ _ Hmono) as Hfloor.
  set (v1 := q1 / Qc_of_Z 100 * Qc_of_nat (length sorted - 1)) in *.
  set (v2 := q2 / Qc_of_Z 100 * Qc_of_nat (length sorted - 1)) in *.
  set (p1 := Z.to_nat (Qfloor v1)) in *.
  set (p2 := Z.to_nat (Qfloor v2)) in *.
  destruct (decide (p1 = p2)) as [Heq|Hneq].
  - rewrite Heq. apply lerp_mono; [exact Hlh2|].
    apply Qcplus_le_compat; [done|apply Qcle_refl].
  - eapply Qcle_trans; [exact Hhi1|].
    eapply Qcle_trans; [|exact Hlo2].
    apply nth_sorted; [done|lia|lia].
Qed.

(** Percentile 0 is the smallest finite value, percentile 100 the
    largest. *)
Lemma nanpercentile_0 (a : list cell) :
  omap id a ≠ [] →
  ∃ c, nanpercentile a 0 = Some (Some c)
       ∧ c ∈ omap id a ∧ ∀ x, x ∈ omap id a → c ≤ x.
Proof.
  intros Hne.
  assert (0 ≤ 0) as H0 by apply Qcle_refl.
  assert (0 ≤ Qc_of_Z 100) as H100 by done.
  pose proof (nanpercentile_value a 0 H0 H100 Hne) as Hval. cbv zeta in Hval.
  destruct (sorted_values a) as [Hs Hperm].
  set (sorted := merge_sort Qcle (omap id a)) in *.
  assert (0 / Qc_of_Z 100 * Qc_of_nat (length sorted - 1) = 0) as Hv
    by (unfold Qcdiv; ring).
  assert (Z.to_nat (Qfloor (0 : Qc)) = 0%nat) as Hf by reflexivity.
  rewrite Hv, Hf in Hval.
  assert (sorted ≠ []) as Hne'.
  { intros Hnil. apply Hne. apply Permutation_nil. by rewrite <-Hperm, Hnil. }
  assert (0 < length sorted)%nat by (destruct sorted; [done|simpl; lia]).
  exists (nth 0 sorted 0). split_and!.
  - rewrite Hval. do 2 f_equal.
    replace (Qc_of_nat 0) with 0 by (by apply Qc_is_canon). ring.
  - rewrite <-Hperm. apply nth_elem_of. lia.
  - intros x Hx. rewrite <-Hperm in Hx.
    apply list_elem_of_lookup in Hx as [k Hk].
    pose proof (lookup_lt_Some _ _ _ Hk).
    rewrite <-(nth_lookup_Some _ _ 0 _ Hk). apply nth_sorted; [done|lia|done].
Qed.

Lemma nanpercentile_100 (a : list cell) :
  omap id a ≠ [] →
  ∃ c, nanpercentile a (Qc_of_Z 100) = Some (Some c)
       ∧ c ∈ omap id a ∧ ∀ x, x ∈ omap id a → x ≤ c.
Proof.
  intros Hne.
  assert (0 ≤ Qc_of_Z 100) as H0 by done.
  assert (Qc_of_Z 100 ≤ Qc_of_Z 100) as H100 by apply Qcle_refl.
  pose proof (nanpercentile_value a _ H0 H100 Hne) as Hval. cbv zeta in Hval.
  destruct (sorted_values a) as [Hs Hperm].
  set (sorted := merge_sort Qcle (omap id a)) in *.
  assert (Qc_of_Z 100 / Qc_of_Z 100 * Qc_of_nat (length sorted - 1)
          = Qc_of_nat (length sorted - 1)) as Hv.
  { replace (Qc_of_Z 100 / Qc_of_Z 100) with 1 by (by apply Qc_is_canon).
    ring. }
  rewrite Hv, Qc_floor_of_nat in Hval.
  assert (sorted ≠ []) as Hne'.
  { intros Hnil. apply Hne. apply Permutation_nil. by rewrite <-Hperm, Hnil. }
  assert (0 < length sorted)%nat by (destruct sorted; [done|simpl; lia]).
  rewrite Nat.min_r in Hval by lia.
  exists (nth (length sorted - 1) sorted 0). split_and!.
  - rewrite Hval. do 2 f_equal. ring.
  - rewrite <-Hperm. apply nth_elem_of. lia.
  - intros x Hx. rewrite <-Hperm in Hx.
    apply list_elem_of_lookup in Hx as [k Hk].
    pose proof (lookup_lt_Some _ _ _ Hk).
    rewrite <-(nth_lookup_Some _ _ 0 _ Hk). apply nth_sorted; [done|lia|lia].
Qed.

Lemma assign_init_verdicts (mask : stat_row → bool) (results : list stat_row) :
  assign_valid mask (init_valid results) =
    (λ s, mkVerdict s (if mask s then 1 else 0)%Z) <$> results.
Proof.
  unfold assign_valid, init_valid. rewrite <-list_fmap_compose.
  apply list_fmap_ext. intros _ s _. simpl. by destruct (mask s).
Qed.

(** The r values that the percentile is taken over. *)
Lemma elem_of_rankable (results : list stat_row) (x : Qc) :
  x ∈ omap id (r <$> List.filter valid_stats_mask results) ↔
    ∃ s, s ∈ results ∧ r s = Some x.
Proof.
  rewrite list_elem_of_omap. split.
  - intros (o & Ho & Hx). simpl in Hx. subst o.
    apply list_elem_of_fmap in Ho as (s & Hs & Hin).
    apply list_elem_of_In, filter_In in Hin as [Hin _].
    exists s. split; [by apply list_elem_of_In|done].
  - intros (s & Hin & Hs). exists (Some x). split; [|done].
    apply list_elem_of_fmap. exists s. split; [done|].
    apply list_elem_of_In, filter_In. split; [by apply list_elem_of_In|].
    unfold valid_stats_mask, notna. rewrite Hs. by apply bool_decide_eq_true.
Qed.

Lemma rankable_nil (results : list stat_row) :
  omap id (r <$> List.filter valid_stats_mask results) = [] ↔
    List.filter valid_stats_mask results = [].
Proof.
  split; [|by intros ->]. intros Hnil.
  destruct (List.filter valid_stats_mask results) as [|s l] eqn:Hf; [done|].
  assert (In s (List.filter valid_stats_mask results)) as Hin
    by (rewrite Hf; by left).
  apply filter_In in Hin as [_ Hs]. apply bool_decide_eq_true in Hs as [x Hx].
  simpl in Hnil. rewrite Hx in Hnil. done.
Qed.

(** Percentile mode with a threshold in range and a record to rank. *)
Lemma apply_filters_percentile (results : list stat_row) (threshold : Qc) :
  0 ≤ threshold → threshold ≤ Qc_of_Z 100 →
  List.filter valid_stats_mask results ≠ [] →
  ∃ r_cutoff,
    nanpercentile (r <$> List.filter valid_stats_mask results)
      (Qc_of_Z 100 - threshold) = Some (Some r_cutoff)
    ∧ frame_of (apply_filters results "percentile" threshold) =
        (λ s, mkVerdict s
                (if valid_stats_mask s
                    && (cell_ge (r s) (Some r_cutoff) && cell_gt (r s) 0)
                 then 1 else 0)%Z) <$> results.
Proof.
  intros Ht0 Ht100 Hne.
  assert (0 ≤ Qc_of_Z 100 - threshold ∧ Qc_of_Z 100 - threshold ≤ Qc_of_Z 100)
    as [Hq0 Hq100] by (by apply percentile_in_range).
  assert (omap id (r <$> List.filter valid_stats_mask results) ≠ []) as Hne'
    by (by rewrite rankable_nil).
  destruct (nanpercentile_between _ _ Hq0 Hq100 Hne') as (c & _ & _ & Hc & _).
  exists c. split; [done|].
  unfold apply_filters.
  rewrite (bool_decide_eq_false_2 (results = [])) by (by intros ->). simpl.
  destruct (List.filter valid_stats_mask results) as [|s l] eqn:Hf; [done|].
  rewrite Hc. simpl. apply assign_init_verdicts.
Qed.

Lemma apply_filters_percentile_unranked (results : list stat_row)
    (threshold : Qc) :
  List.filter valid_stats_mask results = [] →
  frame_of (apply_filters results "percentile" threshold) = init_valid results.
Proof.
  intros Hnil. unfold apply_filters. case_bool_decide; [done|]. simpl.
  by rewrite Hnil.
Qed.

(** X15. Percentile mode never loses the best record: for every threshold
    between 0 and 100, a record whose r is positive and is the largest of
    all is marked valid; and at threshold 0 ("keep the top 0 percent") the
    records marked valid are exactly the records with that largest r, when
    it is positive. *)
Theorem percentile_mode_keeps_the_top_record (results : list stat_row)
    (threshold : Qc) (s : stat_row) (rv : Qc) :
  0 ≤ threshold → threshold ≤ Qc_of_Z 100 →
  s ∈ results → r s = Some rv → 0 < rv →
  (∀ s' rv', s' ∈ results → r s' = Some rv' → rv' ≤ rv) →
  mkVerdict s 1 ∈ frame_of (apply_filters results "percentile" threshold)
  ∧ ∀ row, row ∈ frame_of (apply_filters results "percentile" 0) →
      (valid row = 1%Z ↔ r (stats row) = Some rv).
Proof.
  intros Ht0 Ht100 Hin Hrv Hpos Hmax.
  assert (List.filter valid_stats_mask results ≠ []) as Hne.
  { intros Hnil.
    assert (rv ∈ omap id (r <$> List.filter valid_stats_mask results)) as Hx
      by (apply elem_of_rankable; eauto).
    rewrite Hnil in Hx. by apply elem_of_nil in Hx. }
  split.
  - destruct (apply_filters_percentile results threshold Ht0 Ht100 Hne)
      as (c & Hc & ->).
    apply list_elem_of_fmap. exists s. split; [|done]. f_equal.
    assert (0 ≤ Qc_of_Z 100 - threshold ∧ Qc_of_Z 100 - threshold ≤ Qc_of_Z 100)
      as [Hq0 Hq100] by (by apply percentile_in_range).
    destruct (nanpercentile_between _ _ Hq0 Hq100
                (nanpercentile_all_nan _ _ _ Hc))
      as (c' & lo & hi & Hc' & _ & Hhi & _ & Hle).
    rewrite Hc in Hc'. injection Hc' as <-.
    apply elem_of_rankable in Hhi as (s' & Hs' & Hr').
    unfold valid_stats_mask, notna. rewrite Hrv. simpl.
    rewrite (bool_decide_eq_true_2 (c ≤ rv)) by (eapply Qcle_trans; eauto).
    by rewrite bool_decide_eq_true_2.
  - assert (0 ≤ 0) as H00 by apply Qcle_refl.
    assert (0 ≤ Qc_of_Z 100) as H0100 by done.
    destruct (apply_filters_percentile results 0 H00 H0100 Hne) as (c & Hc & ->).
    replace (Qc_of_Z 100 - 0) with (Qc_of_Z 100) in Hc by ring.
    destruct (nanpercentile_100 _ (nanpercentile_all_nan _ _ _ Hc))
      as (c' & Hc' & Hcin & Hcmax).
    rewrite Hc in Hc'. injection Hc' as <-.
    assert (c = rv) as ->.
    { apply Qcle_antisym.
      - apply elem_of_rankable in Hcin as (s' & Hs' & Hr'). eauto.
      - apply Hcmax, elem_of_rankable. eauto. }
    intros row (s' & -> & Hs')%list_elem_of_fmap. simpl.
    unfold valid_stats_mask, notna.
    destruct (r s') as [x|] eqn:Hx; simpl; [|done].
    case_bool_decide as Hge; simpl.
    + assert (x = rv) as -> by (apply Qcle_antisym; eauto).
      by rewrite bool_decide_eq_true_2.
    + split; [done|]. intros [= ->]. exfalso. apply Hge, Qcle_refl.
Qed.

(** X16. "Keep the top 100 percent" is r-value mode at threshold 0: the cut
    is the smallest r, so a record is marked valid exactly when its r is
    positive. *)
Theorem percentile_100_is_rvalue_0 (results : list stat_row) :
  apply_filters results "percentile" (Qc_of_Z 100) =
    apply_filters results "rvalue" 0.
Proof.
  destruct (decide (results = [])) as [->|Hrows]; [done|].
  unfold apply_filters. rewrite !(bool_decide_eq_false_2 (results = [])) by done.
  simpl.
  destruct (List.filter valid_stats_mask results) as [|s0 l] eqn:Hf.
  - f_equal.
    rewrite assign_init_verdicts. unfold init_valid.
    apply list_fmap_ext. intros _ s Hs%list_elem_of_lookup_2.
    destruct (valid_stats_mask s) eqn:Hv; [|done].
    assert (In s (List.filter valid_stats_mask results)) as Hin.
    { apply filter_In. split; [by apply list_elem_of_In|done]. }
    by rewrite Hf in Hin.
  - assert (List.filter valid_stats_mask results ≠ []) as Hne
      by (by rewrite Hf).
    assert (omap id (r <$> List.filter valid_stats_mask results) ≠ []) as Hne'
      by (by rewrite rankable_nil).
    destruct (nanpercentile_0 _ Hne') as (c & Hc & _ & Hmin).
    rewrite <-Hf.
    replace (Qc_of_Z 100 - Qc_of_Z 100) with 0 by ring.
    rewrite Hc. f_equal. rewrite !assign_init_verdicts.
    apply list_fmap_ext. intros _ s Hs%list_elem_of_lookup_2. do 2 f_equal.
    destruct (r s) as [x|] eqn:Hx; simpl; [|done].
    rewrite bool_decide_eq_true_2; [done|].
    apply Hmin, elem_of_rankable. eauto.
Qed.

(** X17. In percentile mode too, raising the threshold never lowers the
    number of experiments marked valid (thresholds between 0 and 100). *)
Theorem percentile_threshold_monotonicity (results : list stat_row)
    (t1 t2 : Qc) :
  0 ≤ t1 → t1 ≤ t2 → t2 ≤ Qc_of_Z 100 →
  (count_valid (frame_of (apply_filters results "percentile" t1))
   ≤ count_valid (frame_of (apply_filters results "percentile" t2)))%Z.
Proof.
  intros Ht1 Ht12 Ht2.
  assert (t1 ≤ Qc_of_Z 100) as Ht1' by (by eapply Qcle_trans).
  assert (0 ≤ t2) as Ht2' by (by eapply Qcle_trans).
  destruct (List.filter valid_stats_mask results) as [|s0 l] eqn:Hf.
  - by rewrite !apply_filters_percentile_unranked.
  - assert (List.filter valid_stats_mask results ≠ []) as Hne
      by (by rewrite Hf).
    destruct (apply_filters_percentile results t1 Ht1 Ht1' Hne) as (c1 & Hc1 & ->).
    destruct (apply_filters_percentile results t2 Ht2' Ht2 Hne) as (c2 & Hc2 & ->).
    rewrite <-!assign_init_verdicts, !count_valid_assign.
    assert (c2 ≤ c1) as Hc.
    { eapply (nanpercentile_mono _ (Qc_of_Z 100 - t2) (Qc_of_Z 100 - t1));
        [| | |exact Hc2|exact Hc1].
      - by apply percentile_in_range.
      - apply Qcplus_le_compat; [apply Qcle_refl|]. by apply Qcopp_le_compat.
      - by apply percentile_in_range. }
    apply inj_le, filter_length_le. intros s _.
    rewrite !andb_true_iff. intros (Hv & Hge & Hgt). split_and!; [done| |done].
    destruct (r s) as [x|]; simpl in *; [|done].
    apply bool_decide_eq_true in Hge. apply bool_decide_eq_true.
    by eapply Qcle_trans.
Qed.

End PercentileFacts.

(** ** The records of a validation run *)

Section RunFacts.

Variable pearsonr : list Qc → list Qc → option (cell * cell).

(** The records of a group depend on the matrix through the columns of the
    group's instances only. *)
Lemma group_stats_ext (sigs sigs' : sig_matrix) (drug : string)
    (ids : list string) :
  (∀ pid, pid ∈ ids → get_column sigs pid = get_column sigs' pid) →
  group_stats pearsonr sigs (drug, ids) = group_stats pearsonr sigs' (drug, ids).
Proof.
  intros Hext. unfold group_stats.
  assert (List.filter (in_columns sigs) ids = List.filter (in_columns sigs') ids)
    as Hfilter.
  { apply filter_ext_in. intros pid Hpid%list_elem_of_In.
    unfold in_columns. by rewrite Hext. }
  rewrite Hfilter.
  assert (∀ pid, pid ∈ List.filter (in_columns sigs') ids → pid ∈ ids) as Hsub.
  { intros pid Hpid. apply list_elem_of_In, filter_In in Hpid as [Hpid _].
    by apply list_elem_of_In. }
  assert (omap (get_column sigs) (List.filter (in_columns sigs') ids)
          = omap (get_column sigs') (List.filter (in_columns sigs') ids)) as Homap.
  { apply list_omap_ext, Forall_Forall2_diag, Forall_forall.
    intros pid Hpid. apply Hext, Hsub, Hpid. }
  rewrite Homap. case_bool_decide; [done|].
  apply list_fmap_ext. intros _ pid Hpid%list_elem_of_lookup_2.
  by rewrite (Hext pid (Hsub pid Hpid)).
Qed.

Lemma calculate_raw_stats_ext (sigs sigs' : sig_matrix)
    (metadata : list meta_row) :
  (∀ pid, pid ∈ meta_id <$> metadata →
          get_column sigs pid = get_column sigs' pid) →
  calculate_raw_stats pearsonr sigs metadata =
    calculate_raw_stats pearsonr sigs' metadata.
Proof.
  intros Hext. unfold calculate_raw_stats. f_equal.
  unfold drug_groups. rewrite <-!list_fmap_compose.
  apply list_fmap_ext. intros _ drug _. simpl.
  apply group_stats_ext. intros pid Hpid. apply Hext.
  unfold instance_ids in Hpid.
  apply list_elem_of_fmap in Hpid as (m & -> & Hm).
  apply list_elem_of_fmap_2.
  apply list_elem_of_In, filter_In in Hm as [Hm _]. by apply list_elem_of_In.
Qed.

Lemma get_column_Permutation (sigs sigs' : sig_matrix) (pid : string) :
  NoDup sigs.*1 → sigs ≡ₚ sigs' → get_column sigs pid = get_column sigs' pid.
Proof.
  intros Hnd Hperm. induction Hperm as [|[l c] s1 s2 Hp IH|[l1 c1] [l2 c2] s|s1 s2 s3 Hp1 IH1 Hp2 IH2].
  - done.
  - simpl. apply NoDup_cons in Hnd as [_ Hnd]. by rewrite IH.
  - simpl. repeat case_bool_decide; try done. subst.
    apply NoDup_cons in Hnd as [Hnd _]. exfalso. apply Hnd. simpl. by left.
  - rewrite IH1 by done. apply IH2. by rewrite <-Hp1.
Qed.

(** X18. The records do not depend on the order of the columns of the
    signature matrix (which [main] takes from a set): for a matrix with
    distinct column labels, any rearrangement of its columns gives the same
    records, in the same order, with the same statistics. *)
Theorem records_ignore_column_order (sigs sigs' : sig_matrix)
    (metadata : list meta_row) :
  NoDup sigs.*1 → sigs ≡ₚ sigs' →
  calculate_raw_stats pearsonr sigs metadata =
    calculate_raw_stats pearsonr sigs' metadata.
Proof.
  intros Hnd Hperm. apply calculate_raw_stats_ext.
  intros pid _. by apply get_column_Permutation.
Qed.

Lemma get_column_is_Some (sigs : sig_matrix) (pid : string) :
  is_Some (get_column sigs pid) ↔ pid ∈ sigs.*1.
Proof.
  induction sigs as [|[l c] sigs IH]; simpl.
  - split; [by intros [? ?]|by intros ?%elem_of_nil].
  - rewrite elem_of_cons. case_bool_decide as Hl.
    + split; [by left|by eexists].
    + rewrite IH. split; [by right|]. by intros [?|?].
Qed.

Lemma select_columns_Some (sigs : sig_matrix) (labels : list string) :
  (∀ label, label ∈ labels → label ∈ sigs.*1) →
  ∃ picked,
    select_columns sigs labels = Some picked
    ∧ ∀ pid, get_column picked pid =
        if bool_decide (pid ∈ labels) then get_column sigs pid else None.
Proof.
  unfold select_columns. induction labels as [|label labels IH]; intros Hin.
  - exists []. split; [done|]. by intros pid.
  - destruct IH as (picked & Hpicked & Hget).
    { intros l Hl. apply Hin. by right. }
    assert (is_Some (get_column sigs label)) as [col Hcol].
    { apply get_column_is_Some, Hin. by left. }
    exists ((label, col) :: picked). split.
    + rewrite mapM_cons_eq, Hcol. simpl. by rewrite Hpicked.
    + intros pid. simpl. case_bool_decide as Hl.
      * subst. by rewrite bool_decide_eq_true_2 by by left.
      * rewrite Hget. case_bool_decide as Hm.
        -- rewrite bool_decide_eq_true_2; [done|by right].
        -- rewrite bool_decide_eq_false_2; [done|].
           intros [?|?]%elem_of_cons; [by subst|done].
Qed.

Lemma elem_of_common_ids (sigs : sig_matrix) (meta : list meta_row)
    (pid : string) :
  pid ∈ common_ids sigs meta ↔ pid ∈ sigs.*1 ∧ pid ∈ meta_id <$> meta.
Proof. unfold common_ids. set_solver. Qed.

Lemma elem_of_isin_rows (meta : list meta_row) (ids : gset string)
    (m : meta_row) :
  m ∈ isin_rows meta ids ↔ m ∈ meta ∧ meta_id m ∈ ids.
Proof.
  unfold isin_rows. rewrite list_elem_of_In, filter_In, <-list_elem_of_In.
  by rewrite bool_decide_eq_true.
Qed.

(** The restriction of the matrix to the common columns plays no part:
    the records are those of the whole matrix on the restricted metadata. *)
Lemma validate_instances_results (sigs : sig_matrix) (meta : list meta_row)
    (listing : list string) :
  listing ≡ₚ elements (common_ids sigs meta) →
  ∃ sigs_filt,
    select_columns sigs listing = Some sigs_filt
    ∧ calculate_raw_stats pearsonr sigs_filt
        (isin_rows meta (common_ids sigs meta))
      = calculate_raw_stats pearsonr sigs
          (isin_rows meta (common_ids sigs meta)).
Proof.
  intros Hlisting.
  assert (∀ pid, pid ∈ listing ↔ pid ∈ common_ids sigs meta) as Hin.
  { intros pid. by rewrite Hlisting, elem_of_elements. }
  destruct (select_columns_Some sigs listing) as (picked & Hpicked & Hget).
  { intros l Hl%Hin%elem_of_common_ids. tauto. }
  exists picked. split; [done|]. apply calculate_raw_stats_ext.
  intros pid (m & -> & Hm)%list_elem_of_fmap.
  apply elem_of_isin_rows in Hm as [_ Hm%Hin].
  by rewrite Hget, bool_decide_eq_true_2.
Qed.

Lemma filter_disjoint_app {B} (P Q : B → bool) (l : list B) :
  (∀ x, P x = true → Q x = false) →
  List.filter P l ++ List.filter Q l ≡ₚ List.filter (λ x, P x || Q x) l.
Proof.
  intros Hdisj. induction l as [|x l IH]; [done|]. simpl.
  destruct (P x) eqn:HP; simpl.
  - rewrite (Hdisj x HP). by rewrite IH.
  - destruct (Q x); simpl; [|done]. by rewrite <-Permutation_middle, IH.
Qed.

(** The rows whose drug name is one of [names]. *)
Lemma groups_partition (names : list string) (rows : list meta_row) :
  NoDup names →
  concat ((λ drug, List.filter (λ m, bool_decide (meta_name m = Some drug)) rows)
            <$> names)
  ≡ₚ List.filter (λ m, match meta_name m with
                       | Some drug => bool_decide (drug ∈ names)
                       | None => false
                       end) rows.
Proof.
  induction 1 as [|drug names Hnotin Hnd IH]; simpl.
  - rewrite filter_none; [done|]. apply Forall_forall. intros m _.
    by destruct (meta_name m).
  - rewrite IH, filter_disjoint_app.
    + erewrite filter_ext; [done|]. intros m. simpl.
      destruct (meta_name m) as [d|]; simpl.
      * apply eq_true_iff_eq.
        rewrite orb_true_iff, !bool_decide_eq_true, elem_of_cons.
        split; [intros [[= ->]|?]; [by left|by right]|].
        intros [->|?]; [by left|by right].
      * done.
    + intros m Hm%bool_decide_eq_true. rewrite Hm.
      by apply bool_decide_eq_false.
Qed.

Lemma drug_names_spec (metadata : list meta_row) :
  NoDup (drug_names metadata)
  ∧ ∀ drug, drug ∈ drug_names metadata ↔
      ∃ m, m ∈ metadata ∧ meta_name m = Some drug.
Proof.
  unfold drug_names. split.
  - rewrite merge_sort_Permutation. apply NoDup_remove_dups.
  - intros drug. rewrite merge_sort_Permutation, elem_of_remove_dups.
    apply list_elem_of_omap.
Qed.

Lemma fmap_concat_fmap {B C D} (f : C → D) (g : B → list C) (l : list B) :
  f <$> concat (g <$> l) = concat ((λ x, f <$> g x) <$> l).
Proof.
  induction l as [|x l IH]; [done|]. csimpl. by rewrite fmap_app, IH.
Qed.

(** The (instance, drug) pairs of the records when every instance of the
    metadata is a column of the matrix: one per row that has a drug
    name. *)
Lemma record_ids_all_in_matrix (sigs : sig_matrix) (metadata : list meta_row) :
  (∀ m, m ∈ metadata → meta_id m ∈ sigs.*1) →
  (λ s, (inst_id s, drug_name s)) <$> calculate_raw_stats pearsonr sigs metadata
  ≡ₚ omap (λ m, pair (meta_id m) <$> meta_name m) metadata.
Proof.
  intros Hall.
  assert (∀ drug,
    (λ s, (inst_id s, drug_name s))
      <$> group_stats pearsonr sigs (drug, instance_ids metadata drug)
    = (λ m, (meta_id m, drug))
        <$> List.filter (λ m, bool_decide (meta_name m = Some drug)) metadata)
    as Hgroup.
  { intros drug. unfold group_stats.
    assert (List.filter (in_columns sigs) (instance_ids metadata drug)
            = instance_ids metadata drug) as ->.
    { apply filter_all, Forall_forall. intros pid Hpid.
      unfold instance_ids in Hpid.
      apply list_elem_of_fmap in Hpid as (m & -> & Hm).
      apply list_elem_of_In, filter_In in Hm as [Hm _].
      apply bool_decide_eq_true, get_column_is_Some, Hall.
      by apply list_elem_of_In. }
    unfold instance_ids.
    case_bool_decide; rewrite <-!list_fmap_compose; by apply list_fmap_ext. }
  unfold calculate_raw_stats, drug_groups.
  rewrite <-list_fmap_compose, fmap_concat_fmap.
  destruct (drug_names_spec metadata) as [Hnd Hnames].
  trans ((λ m, (meta_id m, default "" (meta_name m)))
           <$> List.filter (λ m, match meta_name m with
                                 | Some drug =>
                                     bool_decide (drug ∈ drug_names metadata)
                                 | None => false
                                 end)
                 metadata).
  { rewrite <-(groups_partition _ _ Hnd), fmap_concat_fmap.
    apply reflexive_eq. f_equal. apply list_fmap_ext. intros _ drug _.
    etrans; [apply Hgroup|]. apply list_fmap_ext.
    intros _ m Hm%list_elem_of_lookup_2.
    apply list_elem_of_In, filter_In in Hm as [_ Hm].
    apply bool_decide_eq_true in Hm. by rewrite Hm. }
  apply reflexive_eq. clear Hall Hgroup Hnd.
  assert (∀ m, m ∈ metadata →
            match meta_name m with
            | Some drug => bool_decide (drug ∈ drug_names metadata)
            | None => false
            end = bool_decide (is_Some (meta_name m))) as Hext.
  { intros m Hm. destruct (meta_name m) as [d|] eqn:Hd.
    - rewrite !bool_decide_eq_true_2; [done|by eexists|].
      apply Hnames. eauto.
    - by rewrite bool_decide_eq_false_2 by by intros [? ?]. }
  rewrite (filter_ext_in _ (λ m, bool_decide (is_Some (meta_name m))))
    by (intros m Hm%list_elem_of_In; by apply Hext).
  clear. induction metadata as [|m metadata IH]; [done|]. csimpl.
  destruct (meta_name m) as [d|] eqn:Hd; csimpl.
  - by rewrite Hd, IH.
  - done.
Qed.

Lemma omap_List_filter {B C} (f : B → option C) (P : B → bool) (l : list B) :
  omap f (List.filter P l) = omap (λ x, if P x then f x else None) l.
Proof.
  induction l as [|x l IH]; [done|]. csimpl.
  destruct (P x); csimpl; by rewrite IH.
Qed.

Lemma stats_apply_filters (results : list stat_row) (mode : string)
    (threshold : Qc) :
  stats <$> frame_of (apply_filters results mode threshold) = results.
Proof.
  destruct (apply_filters_mask results mode threshold) as [mask ->].
  rewrite assign_init_verdicts, <-list_fmap_compose.
  rewrite <-(list_fmap_id results) at 2. by apply list_fmap_ext.
Qed.

(** X19. A run of [main] on a matrix with distinct column labels and a
    metadata table with distinct ids. The restriction of the matrix to the
    common ids plays no part, in whatever order the set lists them: the
    records are those of the whole matrix on the metadata rows whose id is
    a column. The table that is written has exactly one row for every
    metadata row that has a drug name and whose id is a column of the
    matrix (rows without a drug name are left out), and the report that
    goes with it is never "No instances processed."; when there is no such
    row, the run ends with an exception and nothing is written. *)
Theorem validation_run_covers_the_overlap (sigs : sig_matrix)
    (meta : list meta_row) (listing : list string) (mode : string)
    (threshold : Qc) :
  NoDup sigs.*1 → NoDup (meta_id <$> meta) →
  listing ≡ₚ elements (common_ids sigs meta) →
  let named_overlap :=
    omap (λ m, if bool_decide (meta_id m ∈ sigs.*1)
               then pair (meta_id m) <$> meta_name m else None) meta in
  (named_overlap = [] →
     validate_instances pearsonr sigs meta listing mode threshold = Aborted)
  ∧ ∀ results_df report,
      validate_instances pearsonr sigs meta listing mode threshold
        = Written results_df report →
      stats <$> results_df =
        calculate_raw_stats pearsonr sigs
          (isin_rows meta (common_ids sigs meta))
      ∧ (λ row, (inst_id (stats row), drug_name (stats row))) <$> results_df
        ≡ₚ named_overlap
      ∧ is_Some report.
Proof.
  intros _ _ Hlisting named_overlap.
  destruct (validate_instances_results sigs meta listing Hlisting)
    as (sigs_filt & Hsel & Hres).
  unfold validate_instances. rewrite Hsel, Hres.
  set (results := calculate_raw_stats pearsonr sigs
                    (isin_rows meta (common_ids sigs meta))).
  assert ((λ s, (inst_id s, drug_name s)) <$> results ≡ₚ named_overlap)
    as Hpairs.
  { unfold results. rewrite record_ids_all_in_matrix.
    - apply reflexive_eq. unfold isin_rows, named_overlap.
      rewrite omap_List_filter.
      apply list_omap_ext, Forall_Forall2_diag, Forall_forall. intros m Hm.
      assert (bool_decide (meta_id m ∈ common_ids sigs meta)
              = bool_decide (meta_id m ∈ sigs.*1)) as ->; [|done].
      apply bool_decide_ext. rewrite elem_of_common_ids.
      split; [tauto|]. intros ?. split; [done|].
      by apply list_elem_of_fmap_2.
    - intros m [_ Hm%elem_of_common_ids]%elem_of_isin_rows. tauto. }
  split.
  - intros Hnil. rewrite Hnil in Hpairs.
    apply Permutation_nil_r, fmap_nil_inv in Hpairs. by rewrite Hpairs.
  - intros results_df report.
    destruct results as [|s0 rest] eqn:Hr; [done|].
    destruct (apply_filters (s0 :: rest) mode threshold) as [df|df] eqn:Hf;
      [|done].
    intros [= <- <-].
    pose proof (stats_apply_filters (s0 :: rest) mode threshold) as Hstats.
    rewrite Hf in Hstats. simpl in Hstats.
    split_and!.
    + done.
    + rewrite <-Hpairs, <-Hstats, <-list_fmap_compose. done.
    + unfold generate_summary.
      assert (length df = length (s0 :: rest)) as Hlen
        by (by rewrite <-Hstats, length_fmap).
      rewrite bool_decide_eq_false_2 by (rewrite Hlen; simpl; lia).
      by eexists.
Qed.

End RunFacts.

(** ** The shared-genes table *)

Section CompareGenesFacts.

Lemma drop_duplicate_rows_spec `{EqDecision B} (seen rows : list B) :
  NoDup (drop_duplicate_rows seen rows)
  ∧ ∀ x, x ∈ drop_duplicate_rows seen rows ↔ x ∈ rows ∧ x ∉ seen.
Proof.
  revert seen. induction rows as [|row rows IH]; intros seen; simpl.
  - split; [constructor|]. intros x. split; [by intros ?%elem_of_nil|].
    by intros [?%elem_of_nil _].
  - case_bool_decide as Hseen.
    + destruct (IH seen) as [Hnd Hin]. split; [done|]. intros x.
      rewrite Hin, elem_of_cons. split; [tauto|].
      intros [[->|?] ?]; [done|tauto].
    + destruct (IH (row :: seen)) as [Hnd Hin]. split.
      * apply NoDup_cons. split; [|done]. rewrite Hin.
        intros [_ Hnot]. apply Hnot. by left.
      * intros x. rewrite !elem_of_cons, Hin, !elem_of_cons.
        destruct (decide (x = row)) as [->|Hne]; [tauto|]. tauto.
Qed.

Lemma elem_of_tahoe_mapped (d : gmap string raw_id) (gene_names : list string)
    (name : string) (v : raw_id) :
  (name, v) ∈ tahoe_mapped d gene_names ↔
    name ∈ gene_names ∧ d !! name = Some v ∧ v ≠ IdNaN.
Proof.
  unfold tahoe_mapped. rewrite list_elem_of_omap. split.
  - intros (name' & Hin & Hv).
    destruct (d !! name') as [[z|s|]|] eqn:Hd; try done;
      injection Hv as <- <-; done.
  - intros (Hin & Hd & Hv). exists name. split; [done|]. rewrite Hd.
    by destruct v.
Qed.

Lemma mapM_astype_int (rows : list (string * raw_id))
    (ints : list (string * Z)) :
  mapM (λ row : string * raw_id, pair row.1 <$> astype_int row.2) rows
    = Some ints →
  rows = (λ row : string * Z, (row.1, IdNum row.2)) <$> ints.
Proof.
  revert ints. induction rows as [|[name v] rows IH]; intros ints.
  - by intros [= <-].
  - rewrite mapM_cons_eq. simpl. destruct v as [z|s|]; simpl; try done.
    destruct (mapM _ rows) as [ints'|]; simpl; [|done].
    intros [= <-]. simpl. f_equal. by apply IH.
Qed.

(** The rows of the table that is saved. *)
Lemma compare_genes_saved (cmap_V1 : list raw_id) (gene_map_df : list map_row)
    (gene_names : list string) (final_df : list (string * Z)) :
  compare_genes cmap_V1 gene_map_df gene_names = SavedGenes final_df →
  NoDup final_df
  ∧ ∀ name id,
      (name, id) ∈ final_df ↔
        text_typed gene_map_df = false
        ∧ name ∈ gene_names
        ∧ gene_name_to_entrez gene_map_df !! name = Some (IdNum id)
        ∧ id ∈ omap to_numeric cmap_V1.
Proof.
  unfold compare_genes.
  destruct (mapM _ _) as [ints|] eqn:Hints; [|done].
  apply mapM_astype_int in Hints.
  case_bool_decide as Hshared; [done|]. intros [= <-].
  destruct (text_typed gene_map_df) eqn:Htext.
  { simpl. split; [constructor|]. intros name id. split.
    - by intros ?%elem_of_nil.
    - by intros [? _]. }
  destruct (drop_duplicate_rows_spec []
              (filter (λ row : string * Z,
                         row.2 ∈ (list_to_set (omap to_numeric cmap_V1) : gset Z)
                                 ∩ list_to_set ints.*2) ints))
    as [Hnd Hin].
  split; [exact Hnd|]. intros name id. rewrite Hin, list_elem_of_filter. simpl.
  assert ((name, id) ∈ ints ↔
            name ∈ gene_names
            ∧ gene_name_to_entrez gene_map_df !! name = Some (IdNum id))
    as Hrow.
  { trans ((name, IdNum id) ∈ tahoe_mapped (gene_name_to_entrez gene_map_df)
                               gene_names).
    - rewrite Hints, list_elem_of_fmap. split.
      + intros Hi. by exists (name, id).
      + by intros ([name' id'] & [= <- <-] & Hi).
    - rewrite elem_of_tahoe_mapped. split; [tauto|]. by intros [? ?]. }
  rewrite elem_of_intersection, !elem_of_list_to_set. split.
  - intros [[[Hc _] Hi] _]. apply Hrow in Hi. tauto.
  - intros (_ & Hn & Hd & Hc).
    assert ((name, id) ∈ ints) as Hi by (by apply Hrow).
    split; [|apply not_elem_of_nil]. split_and!; [done| |done].
    apply list_elem_of_fmap. by exists (name, id).
Qed.

(** X20. The shared-genes table that [compare_genes] saves lists every
    symbol once. When no id of the mapping table is a text, its rows are
    the Tahoe gene names that the mapping table resolves (first complete
    row of the symbol) to an id of the CMap signatures, each with that id;
    when some id of the mapping table is a text, the column is typed as
    text, the selection of line 182 matches nothing, and the table has no
    row. So the dictionary that the ranking filter script builds from the
    table, which keeps the last row of a symbol, answers with the first row
    as well, and gives every listed symbol the id that the
    rank-and-checkpoint dictionary gives it; and the reference set read
    from the table holds CMap ids only. *)
Theorem shared_genes_table_lists_each_symbol_once (cmap_V1 : list raw_id)
    (gene_map_df : list map_row) (gene_names : list string)
    (final_df : list (string * Z)) :
  compare_genes cmap_V1 gene_map_df gene_names = SavedGenes final_df →
  NoDup final_df.*1
  ∧ (∀ name id,
       (name, id) ∈ final_df ↔
         text_typed gene_map_df = false
         ∧ name ∈ gene_names
         ∧ gene_name_to_entrez gene_map_df !! name = Some (IdNum id)
         ∧ id ∈ omap to_numeric cmap_V1)
  ∧ (text_typed gene_map_df = true → final_df = [])
  ∧ (∀ name,
       gene_name_to_entrez_shared (read_shared_genes final_df) !! name =
         entrezID <$> List.find (has_symbol name) (read_shared_genes final_df))
  ∧ (∀ name id,
       (name, id) ∈ final_df →
       gene_name_to_entrez_shared (read_shared_genes final_df) !! name
         = gene_name_to_entrez gene_map_df !! name)
  ∧ (∀ id, id ∈ shared_entrez_ids (read_shared_genes final_df) →
           id ∈ omap to_numeric cmap_V1).
Proof.
  intros [Hnd Hrows]%compare_genes_saved.
  assert (∀ name id1 id2,
            (name, id1) ∈ final_df → (name, id2) ∈ final_df → id1 = id2)
    as Hfun.
  { intros name id1 id2 (_ & _ & H1 & _)%Hrows (_ & _ & H2 & _)%Hrows.
    congruence. }
  assert (NoDup final_df.*1) as Hnames by (by apply NoDup_fmap_fst).
  assert (NoDup (Gene_name <$> read_shared_genes final_df)) as Hsym.
  { assert (Gene_name <$> read_shared_genes final_df = Some <$> final_df.*1)
      as ->.
    { unfold read_shared_genes. rewrite <-!list_fmap_compose.
      by apply list_fmap_ext. }
    by apply (NoDup_fmap_2 Some). }
  assert (∀ name,
       gene_name_to_entrez_shared (read_shared_genes final_df) !! name =
         entrezID <$> List.find (has_symbol name) (read_shared_genes final_df))
    as Hfirst.
  { intros name. unfold gene_name_to_entrez_shared.
    by rewrite dict_zip_lookup, find_reverse_unique. }
  split_and!; [done|done| |done| |].
  - intros Htext. destruct final_df as [|[name id] rest]; [done|].
    destruct (Hrows name id) as [(Hno & _) _]; [by left|]. congruence.
  - intros name id Hin. rewrite Hfirst.
    destruct (Hrows name id) as [(_ & _ & -> & _) _]; [done|].
    destruct (List.find _ _) as [row|] eqn:Hfind.
    + apply find_some in Hfind as [Hrow Hsymbol].
      apply list_elem_of_In, list_elem_of_fmap in Hrow
        as ([name' id'] & -> & Hin').
      apply bool_decide_eq_true in Hsymbol. simpl in *.
      injection Hsymbol as ->. do 3 f_equal. by eapply Hfun.
    + exfalso. apply find_none_iff with (x := mkMapRow (Some name) (IdNum id))
        in Hfind.
      * apply bool_decide_eq_false in Hfind. by apply Hfind.
      * apply list_elem_of_fmap. by exists (name, id).
  - intros id. unfold shared_entrez_ids, read_shared_genes.
    rewrite elem_of_list_to_set, list_elem_of_omap.
    intros (row & Hrow & Hid).
    apply list_elem_of_fmap in Hrow as ([name id'] & -> & Hin).
    simpl in Hid. injection Hid as <-.
    by apply Hrows in Hin as (_ & _ & _ & ?).
Qed.

End CompareGenesFacts.

(** ** Instances *)

(** Seven rows cut for three workers. *)
Lemma array_split_partitions_witness :
  (0 < 3)%Z
  ∧ ∃ chunks,
      array_split [10; 11; 12; 13; 14; 15; 16]%Z 3 = Some chunks
      ∧ concat chunks = [10; 11; 12; 13; 14; 15; 16]%Z
      ∧ length chunks = 3.
Proof.
  assert (0 < 3)%Z as Hpos by lia. split; [exact Hpos|].
  destruct (array_split_partitions [10; 11; 12; 13; 14; 15; 16]%Z 3 Hpos)
    as (chunks & Hsplit & Hcat & Hlen & _).
  exists chunks. split; [exact Hsplit|]. split; [exact Hcat|exact Hlen].
Defined.

(** Experiments 2 and 0 of the example store, genes 2 and 0, two workers. *)
Lemma part1_extract_witness :
  (0 < 2)%Z
  ∧ length ["g2"; "g0"] = length [2; 0]%Z
  ∧ part1_extract example_node ["g2"; "g0"] [2; 0]%Z [2; 0]%Z 2 =
      mapM (extract_row example_node [2; 0]%Z) (merge_sort Z.le [2; 0]%Z).
Proof.
  assert (0 < 2)%Z as Hpos by lia.
  assert (length ["g2"; "g0"] = length [2; 0]%Z) as Hlen by reflexivity.
  split; [exact Hpos|]. split; [exact Hlen|].
  exact (proj1 (part1_extract_is_row_by_row example_node ["g2"; "g0"]
                  [2; 0]%Z [2; 0]%Z 2 Hpos Hlen)).
Defined.

(** The example p-values read one row at a time. *)
Lemma significance_gate_witness :
  0 < 1
  ∧ significant_genes example_padj (Q2Qc (5 # 100)) 1 =
      any_significant (h5_cols example_padj) (h5_rows example_padj)
        (Q2Qc (5 # 100)).
Proof.
  assert (0 < 1) as Hpos by lia. split; [exact Hpos|].
  exact (proj1 (significance_gate_is_any_row example_padj (Q2Qc (5 # 100)) 1
                  Hpos)).
Defined.

(** The example genes without the filter. *)
Lemma part1_column_plan_names_witness :
  NoDup (gene_idx <$> example_genes)
  ∧ part1_column_plan false None (Q2Qc (5 # 100)) example_genes
    = Ok (mkPlan [0; 1]%Z ["A"; "B"])
  ∧ length (plan_names (mkPlan [0; 1]%Z ["A"; "B"]))
    = length (plan_idx (mkPlan [0; 1]%Z ["A"; "B"])).
Proof.
  assert (NoDup (gene_idx <$> example_genes)) as Hnd by compute_done.
  assert (part1_column_plan false None (Q2Qc (5 # 100)) example_genes
          = Ok (mkPlan [0; 1]%Z ["A"; "B"])) as Hplan by reflexivity.
  split; [exact Hnd|]. split; [exact Hplan|].
  exact (proj1 (part1_column_plan_names_follow_indices false None
                  (Q2Qc (5 # 100)) example_genes _ Hnd Hplan)).
Defined.

(** The example genes through the gate at 0.05. *)
Lemma part1_column_plan_significant_witness :
  gene_idx <$> example_genes ≡ₚ arange (length example_genes)
  ∧ h5_cols example_padj = length example_genes
  ∧ ∀ plan,
      part1_column_plan true (Some example_padj) (Q2Qc (5 # 100)) example_genes
        = Ok plan →
      Sorted Z.lt (plan_idx plan).
Proof.
  assert (gene_idx <$> example_genes ≡ₚ arange (length example_genes)) as Hperm
    by apply perm_swap.
  assert (h5_cols example_padj = length example_genes) as Hcols by reflexivity.
  split; [exact Hperm|]. split; [exact Hcols|].
  intros plan Hplan.
  exact (proj1 (proj1 (part1_column_plan_keeps_significant example_padj
                         (Q2Qc (5 # 100)) example_genes Hperm Hcols)
                  plan Hplan)).
Defined.

(** Symbol B of the reference frame is the only one resolving to id 30. *)
Lemma uniquely_mapped_gene_witness :
  Forall (λ c : Z * list cell, length c.2 = length (index reference_frame))
    (columns reference_frame)
  ∧ index reference_frame !! 1 = Some "B"
  ∧ entrez_of (gene_name_to_entrez reference_gene_map) "B" = Some 30%Z
  ∧ (∀ pos' symbol',
       index reference_frame !! pos' = Some symbol' →
       entrez_of (gene_name_to_entrez reference_gene_map) symbol' = Some 30%Z →
       pos' = 1)
  ∧ ∃ out_pos,
      index (harmonize reference_gene_map reference_frame) !! out_pos
        = Some 30%Z
      ∧ row_at (harmonize reference_gene_map reference_frame) out_pos
        = row_at reference_frame 1.
Proof.
  assert (Forall (λ c : Z * list cell,
                    length c.2 = length (index reference_frame))
            (columns reference_frame)) as Hshape
    by (repeat constructor).
  assert (index reference_frame !! 1 = Some "B") as Hpos by reflexivity.
  assert (entrez_of (gene_name_to_entrez reference_gene_map) "B" = Some 30%Z)
    as Hg by (vm_compute; reflexivity).
  assert (∀ pos' symbol',
            index reference_frame !! pos' = Some symbol' →
            entrez_of (gene_name_to_entrez reference_gene_map) symbol'
              = Some 30%Z →
            pos' = 1) as Huniq.
  { intros pos' symbol' Hsym Hid.
    destruct pos' as [|[|[|pos']]]; simpl in Hsym; try done;
      injection Hsym as <-; vm_compute in Hid; congruence. }
  split; [exact Hshape|]. split; [exact Hpos|]. split; [exact Hg|].
  split; [exact Huniq|].
  exact (uniquely_mapped_gene_keeps_its_row reference_gene_map reference_frame
           1 "B" 30 Hshape Hpos Hg Huniq).
Defined.

(** The collapse scenario through the whole script, in chunks of two: one
    id, rank 1 in every experiment. With the number 7.5 in the dictionary
    the script raises. *)
Lemma rank_and_checkpoint_witness :
  (Z.of_nat (length (index collapse_frame)) < 2 ^ 31)%Z
  ∧ is_Some (rank_and_checkpoint collapse_dictionary collapse_frame 2)
  ∧ rank_and_checkpoint collapse_dictionary collapse_frame 2
    = Some ([7%Z], [(0%Z, [1%Z]); (1%Z, [1%Z]); (2%Z, [1%Z])])
  ∧ ¬ is_Some (rank_and_checkpoint fractional_dictionary collapse_frame 2).
Proof.
  assert (Z.of_nat (length (index collapse_frame)) < 2 ^ 31)%Z as Hsmall
    by (vm_compute; reflexivity).
  split; [exact Hsmall|]. split; [|split].
  - apply (proj1 (rank_and_checkpoint_result collapse_dictionary
                    collapse_frame 2 Hsmall)).
    split; [done|]. split; [done|]. split; [lia|].
    intros symbol q Hin Hq. exists 7%Z.
    apply elem_of_cons in Hin as [->|Hin].
    { vm_compute in Hq. injection Hq as <-. split; [done|lia]. }
    apply elem_of_cons in Hin as [->|Hin].
    { vm_compute in Hq. injection Hq as <-. split; [done|lia]. }
    by apply elem_of_nil in Hin.
  - vm_compute. reflexivity.
  - intros Hs.
    apply (proj1 (rank_and_checkpoint_result fractional_dictionary
                    collapse_frame 2 Hsmall)) in Hs
      as (_ & _ & _ & Hwhole).
    destruct (Hwhole "B" (Q2Qc (15 # 2))) as (z & Hz & _).
    + right. by left.
    + vm_compute. reflexivity.
    + apply (f_equal (λ x : Qc, Qden x)) in Hz. discriminate Hz.
Defined.

(** The effect vector shifted by one. *)
Lemma ranks_depend_on_order_witness :
  (∀ a b, (a < b)%Qc → (a + 1 < b + 1)%Qc)
  ∧ rank_column ((λ x : cell, (λ v, v + 1)%Qc <$> x) <$> effect_vector)
    = rank_column effect_vector.
Proof.
  assert (∀ a b, (a < b)%Qc → (a + 1 < b + 1)%Qc) as Hmono.
  { intros a b Hab. apply Qclt_minus_iff.
    replace (b + 1 + - (a + 1))%Qc with (b + - a)%Qc by ring.
    by apply Qclt_minus_iff in Hab. }
  split; [exact Hmono|].
  exact (ranks_depend_on_order_only (λ v, v + 1)%Qc effect_vector Hmono).
Defined.

(** The NaN cell of the effect vector gets rank 4. *)
Lemma nan_cells_take_the_last_ranks_witness :
  (Z.of_nat (length effect_vector) < 2 ^ 31)%Z
  ∧ effect_vector !! 3 = Some None
  ∧ rank_column effect_vector !! 3 = Some 4%Z.
Proof.
  assert (Z.of_nat (length effect_vector) < 2 ^ 31)%Z as Hsmall
    by (vm_compute; reflexivity).
  assert (effect_vector !! 3 = Some None) as Hnan by reflexivity.
  split; [exact Hsmall|]. split; [exact Hnan|].
  exact (proj2 (nan_cells_take_the_last_ranks effect_vector 3 Hsmall) Hnan).
Defined.

(** The best of the three scored records at threshold 50. *)
Lemma percentile_mode_witness :
  (0 ≤ Qc_of_Z 50)%Qc ∧ (Qc_of_Z 50 ≤ Qc_of_Z 100)%Qc
  ∧ mkStat "e1" "drugA" (frac 9 10) (frac 1 100) 1 ∈ scored_results
  ∧ (0 < Q2Qc (9 # 10))%Qc
  ∧ (∀ s' rv', s' ∈ scored_results → r s' = Some rv' →
       (rv' ≤ Q2Qc (9 # 10))%Qc)
  ∧ mkVerdict (mkStat "e1" "drugA" (frac 9 10) (frac 1 100) 1) 1
      ∈ frame_of (apply_filters scored_results "percentile" (Qc_of_Z 50)).
Proof.
  assert (0 ≤ Qc_of_Z 50)%Qc as H0 by compute_done.
  assert (Qc_of_Z 50 ≤ Qc_of_Z 100)%Qc as H100 by compute_done.
  assert (mkStat "e1" "drugA" (frac 9 10) (frac 1 100) 1 ∈ scored_results)
    as Hin by apply list_elem_of_here.
  assert (0 < Q2Qc (9 # 10))%Qc as Hpos by compute_done.
  assert (∀ s' rv', s' ∈ scored_results → r s' = Some rv' →
            (rv' ≤ Q2Qc (9 # 10))%Qc) as Hmax.
  { intros s' rv' Hs' Hr'. unfold scored_results in Hs'.
    repeat (apply elem_of_cons in Hs' as [->|Hs']);
      [| | |by apply elem_of_nil in Hs'];
      simpl in Hr'; try done; injection Hr' as <-; compute_done. }
  split; [exact H0|]. split; [exact H100|]. split; [exact Hin|].
  split; [exact Hpos|]. split; [exact Hmax|].
  exact (proj1 (percentile_mode_keeps_the_top_record scored_results
                  (Qc_of_Z 50) _ (Q2Qc (9 # 10)) H0 H100 Hin eq_refl Hpos
                  Hmax)).
Defined.

(** Thresholds 20 and 50 on the three scored records. *)
Lemma percentile_threshold_monotonicity_witness :
  (0 ≤ Qc_of_Z 20)%Qc ∧ (Qc_of_Z 20 ≤ Qc_of_Z 50)%Qc
  ∧ (Qc_of_Z 50 ≤ Qc_of_Z 100)%Qc
  ∧ (count_valid
       (frame_of (apply_filters scored_results "percentile" (Qc_of_Z 20)))
     ≤ count_valid
         (frame_of (apply_filters scored_results "percentile" (Qc_of_Z 50))))%Z.
Proof.
  assert (0 ≤ Qc_of_Z 20)%Qc as H0 by compute_done.
  assert (Qc_of_Z 20 ≤ Qc_of_Z 50)%Qc as H12 by compute_done.
  assert (Qc_of_Z 50 ≤ Qc_of_Z 100)%Qc as H100 by compute_done.
  split; [exact H0|]. split; [exact H12|]. split; [exact H100|].
  exact (percentile_threshold_monotonicity scored_results _ _ H0 H12 H100).
Defined.

(** The replicate matrix with two columns exchanged. *)
Lemma records_ignore_column_order_witness :
  NoDup replicate_sigs.*1
  ∧ replicate_sigs ≡ₚ swapped_sigs
  ∧ calculate_raw_stats pearsonr_two_genes replicate_sigs replicate_metadata
    = calculate_raw_stats pearsonr_two_genes swapped_sigs replicate_metadata.
Proof.
  assert (NoDup replicate_sigs.*1) as Hnd by compute_done.
  assert (replicate_sigs ≡ₚ swapped_sigs) as Hperm by apply perm_swap.
  split; [exact Hnd|]. split; [exact Hperm|].
  exact (records_ignore_column_order pearsonr_two_genes replicate_sigs
           swapped_sigs replicate_metadata Hnd Hperm).
Defined.

(** A run on the replicate scenario in p-value mode, the common ids listed
    in the order of the matrix. *)
Lemma validation_run_witness :
  NoDup replicate_sigs.*1
  ∧ NoDup (meta_id <$> replicate_metadata)
  ∧ ["e1"; "e2"; "e3"]
    ≡ₚ elements (common_ids replicate_sigs replicate_metadata)
  ∧ ∀ results_df report,
      validate_instances pearsonr_two_genes replicate_sigs replicate_metadata
        ["e1"; "e2"; "e3"] "pvalue" (Q2Qc (5 # 100))
      = Written results_df report →
      (λ row, (inst_id (stats row), drug_name (stats row))) <$> results_df
      ≡ₚ [("e1", "drugA"); ("e3", "drugB"); ("e2", "drugA")]
      ∧ is_Some report.
Proof.
  assert (NoDup replicate_sigs.*1) as Hsigs by compute_done.
  assert (NoDup (meta_id <$> replicate_metadata)) as Hmeta by compute_done.
  assert (["e1"; "e2"; "e3"]
          ≡ₚ elements (common_ids replicate_sigs replicate_metadata)) as Hl.
  { assert (elements (common_ids replicate_sigs replicate_metadata)
            = ["e3"; "e1"; "e2"]) as -> by (vm_compute; reflexivity).
    apply (Permutation_app_comm ["e1"; "e2"] ["e3"]). }
  split; [exact Hsigs|]. split; [exact Hmeta|]. split; [exact Hl|].
  intros results_df report Hrun.
  exact (proj2 (proj2 (validation_run_covers_the_overlap
                         pearsonr_two_genes replicate_sigs
                         replicate_metadata _ "pvalue" (Q2Qc (5 # 100))
                         Hsigs Hmeta Hl)
                  results_df report Hrun)).
Defined.

(** The reference mapping against CMap ids 10 and 20, gene A listed twice;
    and the mapping with a text id, on which the table is saved empty. *)
Lemma shared_genes_table_witness :
  compare_genes [IdNum 10; IdNum 20; IdNaN] reference_gene_map
    ["A"; "B"; "C"; "A"]
    = SavedGenes [("A", 10%Z); ("C", 20%Z)]
  ∧ NoDup [("A", 10%Z); ("C", 20%Z)].*1
  ∧ (("A", 10%Z) ∈ [("A", 10%Z); ("C", 20%Z)] ↔
       text_typed reference_gene_map = false
       ∧ "A" ∈ ["A"; "B"; "C"; "A"]
       ∧ gene_name_to_entrez reference_gene_map !! "A" = Some (IdNum 10)
       ∧ 10%Z ∈ omap to_numeric [IdNum 10; IdNum 20; IdNaN])
  ∧ compare_genes [IdNum 10; IdNum 20; IdNaN] text_gene_map ["A"; "C"]
    = SavedGenes [].
Proof.
  assert (compare_genes [IdNum 10; IdNum 20; IdNaN] reference_gene_map
            ["A"; "B"; "C"; "A"]
          = SavedGenes [("A", 10%Z); ("C", 20%Z)]) as Hsaved
    by (vm_compute; reflexivity).
  split; [exact Hsaved|].
  destruct (shared_genes_table_lists_each_symbol_once _ _ _ _ Hsaved)
    as (Hnd & Hrows & _).
  split; [exact Hnd|]. split; [exact (Hrows "A" 10%Z)|].
  vm_compute. reflexivity.
Defined.
